(** * Exam-paper ingestion: windowed reconciliation, the oracle client,
      text parsing, region cropping, crop selection, export (uploads,
      archive, file names), the log registry and answer-key editing.

    A shallow embedding of the TypeScript sources and the properties
    established about them.

    Conventions of the embedding.
    - A JavaScript [number] is an IEEE double in the sources; a finite one
      is modelled by an exact rational ([Q]), so rounding is outside the
      model, and what is stated about numbers is what rounding keeps:
      signs, order, and values that are computed exactly.  Where the
      sources divide by a run-time value, the infinities and NaN are
      modelled too ([JsNumber]); where they size a canvas, the value is
      cut to whole pixels as the canvas does.  Results on rationals are
      stated with [==], [<=] and [<] of [Q].
    - The objects that [JSON.parse] makes of an answer of the remote
      service are cast to the types of [types.ts], not checked.  Where the
      sources read a field that may throw (the text of a candidate, the
      options of a question, a question or an option that is [null]), the
      model has the value as it may arrive; the fields that are only
      copied are typed as the cast asserts.
    - A JavaScript string is modelled by [string], read as a sequence of
      code units below 256; [JsString] has the string functions the
      sources use ([includes], [split], [trim], [join]).
    - An array is a [list]; an object that is mutated in place while it is
      shared lives in a store ([gmap]) and is named by its location.
    - What a function does to the outside world (log lines, remote calls,
      alerts, callbacks) is returned as a trace of events; what the outside
      world decides (the answer of the remote service, whether an image
      decodes, the order in which uploads settle) is a parameter. *)

From Stdlib Require Import QArith Qminmax Qabs Lqa Ascii.
From stdpp Require Import base tactics option list gmap strings pretty.

(** ** The data model ([types.ts]) *)

Module Types.

Inductive Subject := Physics | Chemistry | Mathematics.
Inductive Difficulty := easy | medium | hard.
Inductive QuestionType := mcq | numerical | msq.
Inductive SectionName := Objective | Numerical | MatrixMatch.
Inductive Board := JEE | NEET.
Inductive Standard := Std11th | Std12th.

(** [interface Option].  A field the interface marks optional, or one that a
    spread of [undefined] leaves unset, is [None]. *)
Record Option := mkOption {
  opt_text : option string;
  opt_isCorrect : option bool;
  opt_image : option string;
  opt_hasDiagram : option bool;
  opt_boundingBox : option (list Q)
}.

(** [interface Question], over the representation [O] of its options: the
    services hold options by value ([Option]), the review card by
    reference (a location of the store).  The questions of a run are
    objects that the remote service wrote and that are cast, not checked:
    [text] is [None] where such an object has no string there. *)
Record QuestionOf (O : Type) := mkQuestion {
  text : option string;
  type : QuestionType;
  options : list O;
  subject : Subject;
  board : Board;
  standard : option Standard;
  chapter : string;
  topic : string;
  section : SectionName;
  marks : Q;
  difficulty : Difficulty;
  correctAnswerText : string;
  numericalAnswer : option string;
  source : string;
  isActive : bool;
  isSelected : bool;
  isValid : option bool;
  image : option string;
  hasImage : option bool;
  boundingBox : option (list Q)
}.

Arguments mkQuestion {O}.
Arguments text {O}.
Arguments type {O}.
Arguments options {O}.
Arguments subject {O}.
Arguments board {O}.
Arguments standard {O}.
Arguments chapter {O}.
Arguments topic {O}.
Arguments section {O}.
Arguments marks {O}.
Arguments difficulty {O}.
Arguments correctAnswerText {O}.
Arguments numericalAnswer {O}.
Arguments source {O}.
Arguments isActive {O}.
Arguments isSelected {O}.
Arguments isValid {O}.
Arguments image {O}.
Arguments hasImage {O}.
Arguments boundingBox {O}.

Abbreviation Question := (QuestionOf Option).

#[global] Instance QuestionType_eq_dec : EqDecision QuestionType.
Proof. solve_decision. Defined.

End Types.

(** ** Effects shared by the services *)

Module Js.

(** An [Error] object: only its [message] is ever read. *)
Record Error := mkError { err_message : string }.

(** [logService.ts]: [id] and [timestamp] of an entry are random and
    wall-clock values; the entry is modelled by its message and level. *)
Inductive LogLevel := info | success | warn | error.
Record LogEntry := mkLog { message : string; level : LogLevel }.

Section Writer.
Context {E : Type}.

(** A computation that emits events of type [E] and then returns or
    throws. *)
Definition M (A : Type) : Type := list E * (Error + A).

Definition ret {A} (a : A) : M A := ([], inr a).
Definition throw {A} (e : Error) : M A := ([], inl e).
Definition emit (ev : E) : M unit := ([ev], inr tt).

Definition bind {A B} (m : M A) (k : A → M B) : M B :=
  match m with
  | (tr, inl e) => (tr, inl e)
  | (tr, inr a) => let '(tr', r) := k a in (tr ++ tr', r)
  end.

(** [try { body } catch (error) { handler(error) }] *)
Definition try_catch {A} (body : M A) (handler : Error → M A) : M A :=
  match body with
  | (tr, inl e) => let '(tr', r) := handler e in (tr ++ tr', r)
  | (tr, inr a) => (tr, inr a)
  end.

Definition trace {A} (m : M A) : list E := m.1.
Definition result {A} (m : M A) : Error + A := m.2.

(** What a loop body asks of its loop. *)
Inductive Control := Continue | Break.

(** [for (let i = ...; ...; i += 1) { body }] over the indices [idxs], where
    the body may [break] and threads the loop's state. *)
Fixpoint for_each {I S} (idxs : list I) (body : I → S → M (S * Control)) (s : S) : M S :=
  match idxs with
  | [] => ret s
  | i :: idxs' =>
      bind (body i s) (λ '(s', c),
        match c with
        | Break => ret s'
        | Continue => for_each idxs' body s'
        end)
  end.

End Writer.

Arguments M : clear implicits.

End Js.

Notation "x <- m ;; k" := (Js.bind m (λ x, k))
  (at level 100, m at next level, k at level 200, right associativity, only parsing).
Notation "m >>- k" := (Js.bind m (λ _, k))
  (at level 100, k at level 200, right associativity, only parsing).

(** ** Strings

    A string is a sequence of code units below 256.  There the line
    terminators are LF and CR, and white space is TAB, LF, VT, FF, CR, the
    space and the no-break space. *)

Module JsString.

(** [s.includes(sep)] *)
Fixpoint includes (sep s : string) : bool :=
  String.prefix sep s
  || match s with
     | EmptyString => false
     | String _ s' => includes sep s'
     end.

(** [s.split(sep)] for a separator that is not empty: the text is cut at
    every occurrence of the separator, found from left to right; after an
    occurrence the search resumes behind it ([skip] counts the code units
    of the separator still to pass). *)
Fixpoint split_go (sep : string) (skip : nat) (s : string) : list string :=
  match s with
  | EmptyString => [EmptyString]
  | String c s' =>
      match skip with
      | S k => split_go sep k s'
      | O =>
          if String.prefix sep s
          then EmptyString :: split_go sep (String.length sep - 1) s'
          else match split_go sep 0 s' with
               | piece :: pieces => String c piece :: pieces
               | [] => [String c EmptyString]
               end
      end
  end.

Definition split (sep s : string) : list string := split_go sep 0 s.

Definition is_white_space (c : Ascii.ascii) : bool :=
  match Ascii.nat_of_ascii c with
  | 9 | 10 | 11 | 12 | 13 | 32 | 160 => true
  | _ => false
  end.

Definition is_line_terminator (c : Ascii.ascii) : bool :=
  match Ascii.nat_of_ascii c with
  | 10 | 13 => true
  | _ => false
  end.

Fixpoint trimStart (s : string) : string :=
  match s with
  | EmptyString => EmptyString
  | String c s' => if is_white_space c then trimStart s' else s
  end.

(** [s.trim()] *)
Definition trim (s : string) : string :=
  String.rev (trimStart (String.rev (trimStart s))).

(** [arr.join(sep)] *)
Fixpoint join (sep : string) (arr : list string) : string :=
  match arr with
  | [] => EmptyString
  | [piece] => piece
  | piece :: arr' => piece +:+ sep +:+ join sep arr'
  end.

(** The character [c] occurs in [s]. *)
Fixpoint occurs (c : Ascii.ascii) (s : string) : bool :=
  match s with
  | EmptyString => false
  | String c' s' => bool_decide (c' = c) || occurs c s'
  end.

(** A line terminator occurs in [s]. *)
Fixpoint has_line_terminator (s : string) : bool :=
  match s with
  | EmptyString => false
  | String c s' => is_line_terminator c || has_line_terminator s'
  end.

End JsString.

(** ** The log registry ([logService.ts]) *)

Module LogService.
Import Js.

Section Registry.
(** Listeners are functions; [indexOf] compares them by identity. *)
Context {LogListener : Type} `{EqDecision LogListener}.

(** What [log] does to the outside: a line on the console, or a call of a
    listener with the entry. *)
Inductive Effect :=
  | ConsoleLog (line : string)
  | Called (fn : LogListener) (entry : LogEntry).

(** [listeners.push(fn)] *)
Definition addLogListener (fn : LogListener) (listeners : list LogListener)
    : list LogListener :=
  listeners ++ [fn].

(** [listeners.indexOf(fn)]; [None] is [-1]. *)
Definition indexOf (fn : LogListener) (listeners : list LogListener) : option nat :=
  fst <$> list_find (λ g, g = fn) listeners.

(** The function [addLogListener] returns:
    [const idx = listeners.indexOf(fn); if (idx > -1) listeners.splice(idx, 1)] *)
Definition unsubscribe (fn : LogListener) (listeners : list LogListener)
    : list LogListener :=
  match indexOf fn listeners with
  | Some idx => delete idx listeners
  | None => listeners
  end.

(** [entry.level.toUpperCase()] *)
Definition toUpperCase (lvl : LogLevel) : string :=
  match lvl with
  | info => "INFO"
  | success => "SUCCESS"
  | warn => "WARN"
  | error => "ERROR"
  end.

(** [log(message, level = 'info')], for listeners that leave the registry
    alone while they are called. *)
Definition log (message : string) (lvl : option LogLevel) (listeners : list LogListener)
    : list Effect :=
  let entry := mkLog message (default info lvl) in
  ConsoleLog ("[" +:+ toUpperCase (level entry) +:+ "] " +:+ message)
  :: ((λ fn, Called fn entry) <$> listeners).

(** The entries a listener was called with, in order. *)
Definition received (fn : LogListener) (effects : list Effect) : list LogEntry :=
  omap (λ ef, match ef with
              | Called g entry => if decide (g = fn) then Some entry else None
              | ConsoleLog _ => None
              end) effects.

End Registry.

End LogService.

(** ** The windowed reconciler ([geminiService.ts]) *)

Module GeminiService.
Import Types Js.

Section Reconciler.

(** A rendered page ([PDFPageImage] of [pdfService]); its declaration is
    not part of the sources, and the reconciler only slices arrays of it. *)
Context {PDFPageImage : Type}.

(** What is handed to [processBatch]: the text of a document, or pages. *)
Inductive Part :=
  | TextPart (text : string)
  | PagePart (page : PDFPageImage).

(** What the reconciler does to the outside: a line given to [log], or one
    call of [processBatch] with its parts and page number. *)
Inductive Event :=
  | Logged (entry : LogEntry)
  | Batch (parts : list Part) (pageNumber : option nat).

(** [import.meta.env.VITE_GEMINI_API_KEY]; [None] is [undefined]. *)
Variable VITE_GEMINI_API_KEY : option string.

(** [processBatch] is the oracle client: one remote call, [JSON.parse] of
    the answer, the crops.  What it returns or throws is decided by the
    remote service, so it is a parameter here; the reconciler calls it at
    most once for each page number. *)
Variable processBatch : list Part → string → option nat → Error + list Question.

Definition truthy (s : option string) : bool :=
  match s with
  | None => false
  | Some s => negb (String.eqb s "")
  end.

Definition log (msg : string) (lvl : LogLevel) : M Event unit :=
  emit (Logged (mkLog msg lvl)).

(** [await processBatch(parts, sourceName, pageNumber)]: the call is
    recorded in the trace, then returns or throws what the client does. *)
Definition callProcessBatch (parts : list Part) (sourceName : string)
    (pageNumber : option nat) : M Event (list Question) :=
  emit (Batch parts pageNumber) >>-
  ([], processBatch parts sourceName pageNumber).

Definition WINDOW_SIZE : nat := 2.

(** [input.slice(i, j)] *)
Definition slice {A} (i j : nat) (l : list A) : list A := take (j - i) (drop i l).

(** [q.text.substring(0, 50)].  Where a candidate has no string for its
    [text], reading [substring] throws a [TypeError] (the wording of its
    message is the engine's). *)
Definition fingerprint (q : Question) : Error + string :=
  match text q with
  | Some t => inr (String.substring 0 50 t)
  | None => inl (mkError "Cannot read properties of undefined (reading 'substring')")
  end.

(** [allQuestions.find(prev => prev.text.substring(0, 50) === q.text.substring(0, 50))]:
    the callback runs on the elements in order until it answers [true]; it
    reads the fingerprint of [prev], then that of [q].  On an empty array
    it never runs. *)
Fixpoint find_duplicate (allQuestions : list Question) (q : Question)
    : Error + option Question :=
  match allQuestions with
  | [] => inr None
  | prev :: rest =>
      match fingerprint prev with
      | inl e => inl e
      | inr a =>
          match fingerprint q with
          | inl e => inl e
          | inr b => if String.eqb a b then inr (Some prev) else find_duplicate rest q
          end
      end
  end.

(** [for (const q of windowQuestions) if (!allQuestions.find(...)) allQuestions.push(q)].
    [allQuestions] is one array, pushed to in place: the function returns
    the array as the loop leaves it, and the exception that ended the
    loop, if one did. *)
Fixpoint merge_window (allQuestions windowQuestions : list Question)
    : list Question * option Error :=
  match windowQuestions with
  | [] => (allQuestions, None)
  | q :: rest =>
      match find_duplicate allQuestions q with
      | inl e => (allQuestions, Some e)
      | inr (Some _) => merge_window allQuestions rest
      | inr None => merge_window (allQuestions ++ [q]) rest
      end
  end.

(** The [try] block of a window: the call, then the merge.  The outcome is
    [allQuestions] after the block and the exception that ended it, if
    any. *)
Definition try_window (chunk : list PDFPageImage) (sourceName : string) (i : nat)
    (allQuestions : list Question) : M Event (list Question * option Error) :=
  try_catch
    (windowQuestions <- callProcessBatch (PagePart <$> chunk) sourceName (Some (i + 1));;
     ret (merge_window allQuestions windowQuestions))
    (λ e, ret (allQuestions, Some e)).

(** The body of the loop over [i]. *)
Definition window_step (input : list PDFPageImage) (sourceName : string)
    (i : nat) (allQuestions : list Question) : M Event (list Question * Control) :=
  let chunk := slice i (i + WINDOW_SIZE) input in
  if decide (length chunk = 0) then ret (allQuestions, Break) else
  log ("Processing Multi-Page Window starting at Page " +:+ pretty (i + 1) +:+ "...") info >>-
  outcome <- try_window chunk sourceName i allQuestions;;
  (match outcome.2 with
   | Some e => log ("Window processing failed: " +:+ err_message e) Js.error
   | None => ret tt
   end) >>-
  if decide (length input ≤ i + WINDOW_SIZE) then ret (outcome.1, Break)
  else ret (outcome.1, Continue).

(** The loop [for (let i = 0; i < input.length; i += 1)] runs its body on
    the indices [0 .. input.length - 1] in order, until the body breaks. *)
Definition parseQuestionsWithGemini (input : string + list PDFPageImage)
    (sourceName : string) : M Event (list Question) :=
  if negb (truthy VITE_GEMINI_API_KEY) then throw (mkError "Gemini API Key is missing.") else
  match input with
  | inl textContent => callProcessBatch [TextPart textContent] sourceName None
  | inr pages =>
      for_each (seq 0 (length pages)) (window_step pages sourceName) []
  end.

End Reconciler.

(** *** Reading a run *)

Section Observations.
Context {PDFPageImage : Type}.
Variable processBatch : list (@Part PDFPageImage) → string → option nat → Error + list Question.

(** The calls of [processBatch] in a trace, in order. *)
Definition batches (tr : list (@Event PDFPageImage)) : list (list Part * option nat) :=
  omap (λ ev, match ev with Batch parts pn => Some (parts, pn) | Logged _ => None end) tr.

(** The lines given to [log] in a trace, in order. *)
Definition logged (tr : list (@Event PDFPageImage)) : list LogEntry :=
  omap (λ ev, match ev with Logged entry => Some entry | Batch _ _ => None end) tr.

(** The 1-based numbers of the pages a call covers: it starts at its page
    number and has one page for each part. *)
Definition window_pages (call : list (@Part PDFPageImage) * option nat) : list nat :=
  match call.2 with
  | Some p => seq p (length call.1)
  | None => []
  end.

(** The candidate questions a call handed back: none when it threw. *)
Definition returned_by (sourceName : string) (call : list Part * option nat) : list Question :=
  match processBatch call.1 sourceName call.2 with
  | inr qs => qs
  | inl _ => []
  end.

(** All candidates of a run, in the order the windows were processed. *)
Definition candidates (sourceName : string) (tr : list (@Event PDFPageImage)) : list Question :=
  batches tr ≫= returned_by sourceName.

(** An oracle client that answers with no question where [processBatch]
    throws, and like [processBatch] elsewhere. *)
Definition skipping_failures : list (@Part PDFPageImage) → string → option nat → Error + list Question :=
  λ parts sourceName pn,
    match processBatch parts sourceName pn with
    | inl _ => inr []
    | inr qs => inr qs
    end.

(** The call made for the window that starts at index [i] of [pages]. *)
Definition window_call (pages : list PDFPageImage) (i : nat) : list Part * option nat :=
  (PagePart <$> slice i (i + WINDOW_SIZE) pages, Some (i + 1)).

(** The line logged when a window fails with [e]. *)
Definition failure_line (e : Error) : LogEntry :=
  mkLog ("Window processing failed: " +:+ err_message e) Js.error.

(** What the window that starts at index [i] makes of [allQuestions]. *)
Definition window_outcome (pages : list PDFPageImage) (sourceName : string) (i : nat)
    (allQuestions : list Question) : list Question * option Error :=
  match processBatch (window_call pages i).1 sourceName (window_call pages i).2 with
  | inl e => (allQuestions, Some e)
  | inr windowQuestions => merge_window allQuestions windowQuestions
  end.

(** Everything one window leaves in the trace: the announcement, the call,
    and the failure line when its [try] block ended in [failure]. *)
Definition window_events (pages : list PDFPageImage) (i : nat) (failure : option Error)
    : list (@Event PDFPageImage) :=
  Logged (mkLog ("Processing Multi-Page Window starting at Page " +:+ pretty (i + 1) +:+ "...") info)
  :: Batch (window_call pages i).1 (window_call pages i).2
  :: match failure with
     | Some e => [Logged (failure_line e)]
     | None => []
     end.

(** The windows that start at the indices [l], one after the other, from
    [allQuestions]: the trace they leave and [allQuestions] at the end. *)
Fixpoint windows_run (pages : list PDFPageImage) (sourceName : string) (l : list nat)
    (allQuestions : list Question) : list (@Event PDFPageImage) * list Question :=
  match l with
  | [] => ([], allQuestions)
  | i :: l' =>
      let outcome := window_outcome pages sourceName i allQuestions in
      let later := windows_run pages sourceName l' outcome.1 in
      (window_events pages i outcome.2 ++ later.1, later.2)
  end.

(** The exception of an oracle call that threw. *)
Definition thrown {A} (answer : Error + A) : option Error :=
  match answer with
  | inl e => Some e
  | inr _ => None
  end.

End Observations.

(** The windows of the specification for a document of [N] pages:
    [[1,2],[2,3],...,[N-1,N]], or [[N]] alone if [N = 1]. *)
Definition spec_windows (N : nat) : list (list nat) :=
  if decide (N = 1) then [[1]] else (λ k, [k; k + 1]) <$> seq 1 (N - 1).

(** The stem of a candidate; one that has no string for its text has no
    stem to compare, and stands here with the empty one. *)
Definition stem (q : Question) : string := default "" (text q).

(** The first [n] characters of the stem of a candidate. *)
Definition stem_prefix (n : nat) (q : Question) : string := String.substring 0 n (stem q).

(** The specification of de-duplication: of the questions whose stems
    agree on their first [n] characters the first stays, and the order is
    kept. *)
Fixpoint first_occurrences (n : nat) (l : list Question) : list Question :=
  match l with
  | [] => []
  | q :: l' => q :: filter (λ x, stem_prefix n x ≠ stem_prefix n q) (first_occurrences n l')
  end.

End GeminiService.

(** ** The region cropper ([imageUtils.ts]) *)

Module ImageUtils.
Import Js.

(** The [box] argument as it can arrive at run time: the type says
    [number[]], the guard also answers for [null], [undefined] and values
    that are no array. *)
Inductive BoxArg :=
  | BoxNull
  | BoxUndefined
  | BoxNotArray
  | BoxArray (coords : list Q).

(** The browser, as far as the cropper depends on it.  [decode] is what
    loading a source into an [Image] gives: [naturalWidth] and
    [naturalHeight] when [onload] fires, [None] when [onerror] fires.
    [context2d] tells whether [canvas.getContext('2d')] is non-null, and
    [canvas_failure] is the exception a canvas operation throws, if any. *)
Record Browser := mkBrowser {
  decode : string → option (nat * nat);
  context2d : bool;
  canvas_failure : option Error
}.

(** What the cropper does to the outside. *)
Inductive Event :=
  | ImageLoad (src : string)
  | ConsoleWarn (msg : string)
  | ConsoleError (msg : string).

(** The data URL the cropper resolves to, described by what was drawn: the
    region of the source that was copied, and the size of the canvas that
    was encoded, in whole pixels. *)
Record CroppedImage := mkCropped {
  source_x : Q;
  source_y : Q;
  source_width : Q;
  source_height : Q;
  canvas_width : Z;
  canvas_height : Z;
  mime : string;
  quality : Q
}.

(** [canvas.width = v] and [canvas.height = v].  The attribute is an
    [unsigned long] that reflects a content attribute limited to
    non-negative numbers: the value is truncated towards zero and taken
    modulo 2^32, and a result above 2^31 - 1 is replaced by the default of
    the attribute (300 for the width, 150 for the height). *)
Definition canvas_dimension (default : Z) (v : Q) : Z :=
  let n := (Z.quot (Qnum v) (Zpos (Qden v)) mod 2 ^ 32)%Z in
  if (2147483647 <? n)%Z then default else n.

Definition Q_of_nat (n : nat) : Q := inject_Z (Z.of_nat n).

(** [base64Image.startsWith('data:') ? '' : 'data:image/jpeg;base64,'],
    then the source given to the [Image]. *)
Definition image_src (base64Image : string) : string :=
  let srcPrefix := if String.prefix "data:" base64Image then "" else "data:image/jpeg;base64," in
  srcPrefix +:+ base64Image.

(** [!box || !Array.isArray(box) || box.length !== 4] *)
Definition box_rejected (box : BoxArg) : bool :=
  match box with
  | BoxArray coords => negb (length coords =? 4)%nat
  | _ => true
  end.

(** The body of [img.onload], inside its [try]. *)
Definition onload_body (env : Browser) (w h : nat) (coords : list Q)
    : M Event (option CroppedImage) :=
  match coords with
  | [ymin; xmin; ymax; xmax] =>
      if Qle_bool ymax ymin || Qle_bool xmax xmin then
        emit (ConsoleWarn "Invalid crop coordinates:") >>- ret None
      else
        let h := Q_of_nat h in
        let w := Q_of_nat w in
        let y1 := ((ymin / 1000) * h)%Q in
        let x1 := ((xmin / 1000) * w)%Q in
        let y2 := ((ymax / 1000) * h)%Q in
        let x2 := ((xmax / 1000) * w)%Q in
        let cropWidth := (x2 - x1)%Q in
        let cropHeight := (y2 - y1)%Q in
        let padX := (w * (1 # 100))%Q in
        let padY := (h * (1 # 100))%Q in
        let finalX := Qmax 0 (x1 - padX) in
        let finalY := Qmax 0 (y1 - padY) in
        let finalW := Qmin (w - finalX) (cropWidth + padX * 2) in
        let finalH := Qmin (h - finalY) (cropHeight + padY * 2) in
        if negb (context2d env) then ret None else
        match canvas_failure env with
        | Some e => throw e
        | None =>
            ret (Some (mkCropped finalX finalY finalW finalH
                         (canvas_dimension 300 finalW) (canvas_dimension 150 finalH)
                         "image/jpeg" (95 # 100)))
        end
  | _ => ret None
  end.

Definition cropImageFromBase64 (env : Browser) (base64Image : string) (box : BoxArg)
    : M Event (option CroppedImage) :=
  if box_rejected box then ret None else
  let coords := match box with BoxArray coords => coords | _ => [] end in
  emit (ImageLoad (image_src base64Image)) >>-
  match decode env (image_src base64Image) with
  | Some (w, h) =>
      try_catch (onload_body env w h coords)
        (λ e, emit (ConsoleError "Cropping error:") >>- ret None)
  | None =>
      emit (ConsoleError "Failed to load image for cropping:") >>- ret None
  end.

(** [pixel = normalized / 1000 * dimension] *)
Definition to_pixels (normalized : Q) (dimension : nat) : Q :=
  ((normalized / 1000) * Q_of_nat dimension)%Q.

End ImageUtils.

(** ** Numbers that need not be finite

    The crop selector divides by the displayed size of the canvas, a
    run-time value that can be zero, so its coordinates are modelled with
    the values a JavaScript division can give beside the finite ones.
    Finite values are exact rationals; the sign of a zero is not
    modelled, a zero divisor counts as [+0]. *)

Module JsNumber.

Inductive num :=
  | Fin (q : Q)
  | PosInf
  | NegInf
  | NaN.

Definition Qltb (a b : Q) : bool := negb (Qle_bool b a).

Definition neg (a : num) : num :=
  match a with
  | Fin q => Fin (- q)
  | PosInf => NegInf
  | NegInf => PosInf
  | NaN => NaN
  end.

(** An infinity multiplied by a finite value of the given sign. *)
Definition signed (q : Q) (inf : num) : num :=
  match (q ?= 0)%Q with
  | Gt => inf
  | Lt => neg inf
  | Eq => NaN
  end.

(** [a - b] *)
Definition sub (a b : num) : num :=
  match a, b with
  | Fin x, Fin y => Fin (x - y)
  | NaN, _ | _, NaN => NaN
  | PosInf, PosInf | NegInf, NegInf => NaN
  | PosInf, _ | _, NegInf => PosInf
  | NegInf, _ | _, PosInf => NegInf
  end.

(** [a * b] *)
Definition mul (a b : num) : num :=
  match a, b with
  | Fin x, Fin y => Fin (x * y)
  | NaN, _ | _, NaN => NaN
  | Fin x, inf | inf, Fin x => signed x inf
  | PosInf, PosInf | NegInf, NegInf => PosInf
  | PosInf, NegInf | NegInf, PosInf => NegInf
  end.

(** [a / b] *)
Definition div (a b : num) : num :=
  match a, b with
  | Fin x, Fin y => if Qeq_bool y 0 then signed x PosInf else Fin (x / y)
  | NaN, _ | _, NaN => NaN
  | Fin _, _ => Fin 0
  | inf, Fin y => if Qltb y 0 then neg inf else inf
  | _, _ => NaN
  end.

(** [a < b] *)
Definition ltb (a b : num) : bool :=
  match a, b with
  | Fin x, Fin y => Qltb x y
  | NaN, _ | _, NaN => false
  | _, NegInf | PosInf, _ => false
  | NegInf, _ | _, PosInf => true
  end.

(** [Math.min(a, b)] *)
Definition min (a b : num) : num :=
  match a, b with
  | NaN, _ | _, NaN => NaN
  | _, _ => if ltb b a then b else a
  end.

(** [Math.abs(a)] *)
Definition abs (a : num) : num :=
  match a with
  | Fin q => Fin (Qabs q)
  | PosInf | NegInf => PosInf
  | NaN => NaN
  end.

(** The number is the finite value zero. *)
Definition is_zero (a : num) : Prop :=
  match a with
  | Fin q => (q == 0)%Q
  | _ => False
  end.

(** [a === b] *)
Definition eqb (a b : num) : bool :=
  match a, b with
  | Fin x, Fin y => Qeq_bool x y
  | PosInf, PosInf | NegInf, NegInf => true
  | _, _ => false
  end.

End JsNumber.

(** ** The interactive crop selector ([ImageCropModal.tsx]) *)

Module ImageCropModal.
Import JsNumber.

Record Point := mkPoint { x : num; y : num }.

(** [canvas.getBoundingClientRect()] *)
Record DOMRect := mkRect { left : Q; top : Q; width : Q; height : Q }.

(** The canvas element behind [canvasRef.current]: its native size and
    where it is displayed. *)
Record Canvas := mkCanvas { native_width : Q; native_height : Q; rect : DOMRect }.

Record MouseEvent := mkMouse { clientX : Q; clientY : Q }.

(** The component's state ([useState]). *)
Record State := mkState {
  pdfPages : list string;
  currentPage : nat;
  isSelecting : bool;
  startPos : Point;
  endPos : Point;
  isLoading : bool
}.

(** A rectangle in native pixels. *)
Record Rect := mkRectangle { rx : num; ry : num; rwidth : num; rheight : num }.

(** What a handler does to the outside: an [alert], or the crop given to
    [onCropComplete], described by the page and the rectangle copied. *)
Inductive Effect :=
  | Alert (msg : string)
  | CropComplete (page : string) (region : Rect) (mime : string).

(** The browser behind [handleCropConfirm]: whether a page image loads, and
    whether a 2d context is given. *)
Record Browser := mkBrowser { loads : string → bool; context2d : bool }.

Definition origin : Point := mkPoint (Fin 0) (Fin 0).

(** Pointer coordinates rescaled to the canvas' native pixels. *)
Definition getMousePos (canvasRef : option Canvas) (e : MouseEvent) : Point :=
  match canvasRef with
  | None => origin
  | Some canvas =>
      let rect := rect canvas in
      let scaleX := div (Fin (native_width canvas)) (Fin (width rect)) in
      let scaleY := div (Fin (native_height canvas)) (Fin (height rect)) in
      mkPoint (mul (sub (Fin (clientX e)) (Fin (left rect))) scaleX)
              (mul (sub (Fin (clientY e)) (Fin (top rect))) scaleY)
  end.

Definition setStartPos (p : Point) (st : State) : State :=
  mkState (pdfPages st) (currentPage st) (isSelecting st) p (endPos st) (isLoading st).
Definition setEndPos (p : Point) (st : State) : State :=
  mkState (pdfPages st) (currentPage st) (isSelecting st) (startPos st) p (isLoading st).
Definition setIsSelecting (b : bool) (st : State) : State :=
  mkState (pdfPages st) (currentPage st) b (startPos st) (endPos st) (isLoading st).
Definition setCurrentPage (n : nat) (st : State) : State :=
  mkState (pdfPages st) n (isSelecting st) (startPos st) (endPos st) (isLoading st).

Definition handleMouseDown (canvasRef : option Canvas) (e : MouseEvent) (st : State) : State :=
  let p := getMousePos canvasRef e in
  setIsSelecting true (setEndPos p (setStartPos p st)).

Definition handleMouseMove (canvasRef : option Canvas) (e : MouseEvent) (st : State) : State :=
  if negb (isSelecting st) then st else setEndPos (getMousePos canvasRef e) st.

Definition handleMouseUp (st : State) : State := setIsSelecting false st.

(** The page selector's [onChange]. *)
Definition handlePageChange (n : nat) (st : State) : State :=
  setEndPos origin (setStartPos origin (setCurrentPage n st)).

(** The rectangle of the two corners: [x = min], [y = min],
    [width = |dx|], [height = |dy|]. *)
Definition selection (st : State) : Rect :=
  mkRectangle
    (min (x (startPos st)) (x (endPos st)))
    (min (y (startPos st)) (y (endPos st)))
    (abs (sub (x (endPos st)) (x (startPos st))))
    (abs (sub (y (endPos st)) (y (startPos st)))).

(** [width < 10 || height < 10] *)
Definition too_small (r : Rect) : bool :=
  ltb (rwidth r) (Fin 10) || ltb (rheight r) (Fin 10).

(** The handler calls no state setter: the state it returns is the one it
    was given. *)
Definition handleCropConfirm (canvasRef : option Canvas) (env : Browser) (st : State)
    : State * list Effect :=
  match canvasRef with
  | None => (st, [])
  | Some _ =>
      let r := selection st in
      if too_small r then
        (st, [Alert "Selection too small. Please select a larger area."])
      else
        match pdfPages st !! currentPage st with
        | None => (st, [])
        | Some page =>
            if loads env page && context2d env
            then (st, [CropComplete page r "image/png"])
            else (st, [])
        end
  end.

(** The crops handed to [onCropComplete]: page and rectangle. *)
Definition crops (effects : list Effect) : list (string * Rect) :=
  omap (λ ef, match ef with
              | CropComplete page region _ => Some (page, region)
              | Alert _ => None
              end) effects.

(** The warnings shown to the user. *)
Definition alerts (effects : list Effect) : list string :=
  omap (λ ef, match ef with Alert msg => Some msg | CropComplete _ _ _ => None end) effects.

(** [disabled={startPos.x === endPos.x || startPos.y === endPos.y}] of the
    button that confirms. *)
Definition confirm_disabled (st : State) : bool :=
  eqb (x (startPos st)) (x (endPos st)) || eqb (y (startPos st)) (y (endPos st)).

(** The pointer moves over the canvas, event after event. *)
Definition moves (canvasRef : option Canvas) (events : list MouseEvent) (st : State) : State :=
  foldl (λ st e, handleMouseMove canvasRef e st) st events.

(** A drag: the pointer goes down at [e], moves, and is released. *)
Definition drag (canvasRef : option Canvas) (e : MouseEvent) (events : list MouseEvent)
    (st : State) : State :=
  handleMouseUp (moves canvasRef events (handleMouseDown canvasRef e st)).

End ImageCropModal.

(** ** Uploading the images of an export ([exportService.ts]) *)

Module ExportService.
Import Types.

(** [image && image.startsWith('data:')] *)
Definition is_data_url (image : option string) : bool :=
  match image with
  | Some s => String.prefix "data:" s
  | None => false
  end.

(** [q.options?.filter(opt => opt.image && opt.image.startsWith('data:')).length || 0] *)
Definition option_images (q : Question) : nat :=
  length (filter (λ opt, is_data_url (opt_image opt)) (options q)).

(** The [reduce] that counts the images before any upload starts. *)
Definition totalImages (questions : list Question) : nat :=
  foldl (λ count q, count + ((if is_data_url (image q) then 1 else 0) + option_images q))
    0 questions.

(** An upload in flight: the image of question [qIndex], or the image of
    its option [optIndex]. *)
Inductive Job :=
  | QuestionImage (qIndex : nat)
  | OptionImage (qIndex optIndex : nat).

(** [question.options.map(async (option, optIndex) => ...)]: every option
    with a data URL starts its upload, in order, before any is awaited. *)
Fixpoint option_jobs (qIndex optIndex : nat) (opts : list Option) : list Job :=
  match opts with
  | [] => []
  | opt :: opts' =>
      (if is_data_url (opt_image opt) then [OptionImage qIndex optIndex] else [])
      ++ option_jobs qIndex (S optIndex) opts'
  end.

(** [questions.map(async (question, qIndex) => ...)] up to the first
    [await] of each question: the upload of its image, or, when it has
    none, the uploads of its options. *)
Fixpoint first_jobs (qIndex : nat) (questions : list Question) : list Job :=
  match questions with
  | [] => []
  | q :: questions' =>
      (if is_data_url (image q) then [QuestionImage qIndex] else option_jobs qIndex 0 (options q))
      ++ first_jobs (S qIndex) questions'
  end.

(** How an upload ends: [uploadImageToFirebase] resolves, or the conversion
    to a blob or the upload throws. *)
Inductive Outcome := Uploaded | Failed.

(** The state of one call: the counter, the calls of [onProgress] so far
    ([current], [total]), the uploads in flight, and whether the promise of
    the call is already rejected. *)
Record Run := mkRun {
  uploadCount : nat;
  progress : list (nat * nat);
  inflight : list Job;
  rejected : bool
}.

(** What resumes after an upload: the options of a question start their
    uploads once the image of the question is stored. *)
Definition resumed (questions : list Question) (job : Job) : list Job :=
  match job with
  | QuestionImage qIndex =>
      match questions !! qIndex with
      | Some q => option_jobs qIndex 0 (options q)
      | None => []
      end
  | OptionImage _ _ => []
  end.

(** The event loop settles the upload at position [pick] of those in
    flight.  On success the code after the [await] runs without
    interruption: [uploadCount++; if (onProgress) onProgress(uploadCount,
    totalImages)].  On failure the exception leaves the [async] function,
    the other uploads stay in flight. *)
Definition settle (questions : list Question) (onProgress : bool) (total : nat)
    (st : Run) (step : nat * Outcome) : Run :=
  match inflight st !! step.1 with
  | None => st
  | Some job =>
      let others := delete step.1 (inflight st) in
      match step.2 with
      | Failed => mkRun (uploadCount st) (progress st) others true
      | Uploaded =>
          let count := S (uploadCount st) in
          mkRun count
            (progress st ++ (if onProgress then [(count, total)] else []))
            (others ++ resumed questions job)
            (rejected st)
      end
  end.

(** A call of the export, run under a schedule: the order in which the
    uploads in flight are settled, and how each ends.  The questions the
    call resolves to are not modelled, only whether it is rejected. *)
Definition uploadImagesToFirebaseAndCreateJSON (questions : list Question)
    (onProgress : bool) (schedule : list (nat * Outcome)) : Run :=
  let totalImages := totalImages questions in
  foldl (settle questions onProgress totalImages)
    (mkRun 0 [] (first_jobs 0 questions) false) schedule.

(** The images of one question: its own and those of its options. *)
Definition images_of (q : Question) : nat :=
  (if is_data_url (image q) then 1 else 0) + option_images q.

(** The calls of [onProgress] an upload in flight still leads to when
    nothing fails: its own, and one for each upload it resumes. *)
Definition weight (questions : list Question) (job : Job) : nat :=
  S (length (resumed questions job)).

(** The calls of [onProgress] still to come when nothing fails. *)
Definition pending (questions : list Question) (jobs : list Job) : nat :=
  sum_list_with (weight questions) jobs.

(** The calls of [onProgress] that count up to [n] out of [total]. *)
Definition counting (n total : nat) : list (nat * nat) := (λ k, (k, total)) <$> seq 1 n.

(** The schedule that settles the oldest upload in flight, [n] times, each
    with success. *)
Definition in_order (n : nat) : list (nat * Outcome) := replicate n (0, Uploaded).

(** The uploads a schedule settles, in order, each with how it ended. *)
Fixpoint settlements (questions : list Question) (onProgress : bool) (total : nat)
    (st : Run) (schedule : list (nat * Outcome)) : list (Job * Outcome) :=
  match schedule with
  | [] => []
  | step :: schedule' =>
      match inflight st !! step.1 with
      | Some job => [(job, step.2)]
      | None => []
      end
      ++ settlements questions onProgress total
           (settle questions onProgress total st step) schedule'
  end.

(** The image of a job is a data URL of the questions. *)
Definition uploads_an_image (questions : list Question) (job : Job) : Prop :=
  match job with
  | QuestionImage qIndex =>
      ∃ question, questions !! qIndex = Some question
        ∧ is_data_url (image question) = true
  | OptionImage qIndex optIndex =>
      ∃ question opt, questions !! qIndex = Some question
        ∧ options question !! optIndex = Some opt
        ∧ is_data_url (opt_image opt) = true
  end.

(** The uploads of a run so far keep to the order of the export: none is
    made twice, each is of an image of the questions, the image of an
    option of a question with an image of its own is uploaded only once
    that image is stored, and it has not started while that image is in
    flight. *)
Definition orderly (questions : list Question) (past : list (Job * Outcome))
    (jobs : list Job) : Prop :=
  NoDup (past.*1 ++ jobs)
  ∧ Forall (uploads_an_image questions) (past.*1 ++ jobs)
  ∧ (∀ qIndex optIndex question,
       OptionImage qIndex optIndex ∈ past.*1 ++ jobs →
       questions !! qIndex = Some question → is_data_url (image question) = true →
       (QuestionImage qIndex, Uploaded) ∈ past)
  ∧ (∀ qIndex optIndex,
       QuestionImage qIndex ∈ jobs → OptionImage qIndex optIndex ∉ past.*1 ++ jobs).

(** *** File names, blobs and the archive *)

(** What one call of [generateImageFilename] reads from the outside:
    [Date.now()] and [Math.random().toString(36).substring(2, 8)]. *)
Record Entropy := mkEntropy { timestamp : nat; random : string }.

Definition generateImageFilename (prefix : string) (index : nat) (subIndex : option nat)
    (now : Entropy) : string :=
  let suffix := match subIndex with Some k => "_" +:+ pretty k | None => "" end in
  prefix +:+ "_" +:+ pretty index +:+ suffix +:+ "_" +:+ pretty (timestamp now)
  +:+ "_" +:+ random now +:+ ".png".

(** The name the export gives to the image of a job. *)
Definition job_filename (job : Job) (now : Entropy) : string :=
  match job with
  | QuestionImage qIndex => generateImageFilename "question" qIndex None now
  | OptionImage qIndex optIndex => generateImageFilename "option" qIndex (Some optIndex) now
  end.

Record Blob := mkBlob { blob_bytes : string; blob_type : string }.

(** [(.*?);] at the start of [s]: the code units up to the first [;],
    none of them a line terminator. *)
Fixpoint until_semicolon (s : string) : option string :=
  match s with
  | EmptyString => None
  | String c s' =>
      if bool_decide (c = ";"%char) then Some EmptyString
      else if JsString.is_line_terminator c then None
      else String c <$> until_semicolon s'
  end.

(** [header.match(/:(.*?);/)?.[1]]: the group of the leftmost match. *)
Fixpoint match_content_type (header : string) : option string :=
  match header with
  | EmptyString => None
  | String c header' =>
      if bool_decide (c = ":"%char) then
        match until_semicolon header' with
        | Some group => Some group
        | None => match_content_type header'
        end
      else match_content_type header'
  end.

(** [new Blob(parts, { type })] keeps a normalised type: a type with a
    code unit outside U+0020..U+007E becomes the empty type, and any other
    type is put in ASCII lower case. *)
Definition in_type_range (c : Ascii.ascii) : bool :=
  (32 <=? nat_of_ascii c) && (nat_of_ascii c <=? 126).

Definition is_ascii_upper (c : Ascii.ascii) : bool :=
  (65 <=? nat_of_ascii c) && (nat_of_ascii c <=? 90).

Definition to_ascii_lower (c : Ascii.ascii) : Ascii.ascii :=
  if is_ascii_upper c then ascii_of_nat (nat_of_ascii c + 32) else c.

Fixpoint all_in_type_range (s : string) : bool :=
  match s with
  | EmptyString => true
  | String c s' => in_type_range c && all_in_type_range s'
  end.

Fixpoint ascii_lowercase (s : string) : string :=
  match s with
  | EmptyString => EmptyString
  | String c s' => String (to_ascii_lower c) (ascii_lowercase s')
  end.

Definition normalized_type (type : string) : string :=
  if all_in_type_range type then ascii_lowercase type else "".

(** A type that the constructor keeps as it is written: code units of
    U+0020..U+007E, none of them an upper-case letter. *)
Fixpoint kept_as_written (s : string) : bool :=
  match s with
  | EmptyString => true
  | String c s' => in_type_range c && negb (is_ascii_upper c) && kept_as_written s'
  end.

(** The data-URL images of a question: its own, then those of its
    options. *)
Definition data_url_images (question : Question) : list string :=
  filter (λ data, String.prefix "data:" data)
    (option_list (image question) ++ omap opt_image (options question)).

Section Archive.

(** [atob], given [parts[1]]: [None] is [undefined]. *)
Variable atob : option string → Js.Error + string.

(** What the [k]-th call of [generateImageFilename] reads. *)
Variable entropy : nat → Entropy.

(** Whether [zip.folder('images')] gives a folder, and the exception of
    [zip.generateAsync], if any. *)
Variable folder : bool.
Variable generateAsync : option Js.Error.

Definition base64ToBlob (base64 : string) : Js.Error + Blob :=
  let parts := JsString.split "," base64 in
  let contentType :=
    match parts !! 0 ≫= match_content_type with
    | Some group => if String.eqb group "" then "image/png" else group
    | None => "image/png"
    end in
  match atob (parts !! 1) with
  | inl e => inl e
  | inr byteString => inr (mkBlob byteString (normalized_type contentType))
  end.

(** The folder [images] of the archive, and the number of file names
    generated so far. *)
Record Folder := mkFolder { files : gmap string Blob; generated : nat }.

(** A step of the export: it may throw, and it may add to the folder. *)
Definition Step (A : Type) : Type := Folder → Js.Error + (A * Folder).

Definition step_ret {A} (a : A) : Step A := λ fd, inr (a, fd).

Definition step_bind {A B} (m : Step A) (k : A → Step B) : Step B :=
  λ fd, match m fd with
        | inl e => inl e
        | inr (a, fd') => k a fd'
        end.

(** [const filename = generateImageFilename(...); const blob =
    base64ToBlob(image); imagesFolder.file(filename, blob)], and the path
    written to the copy. *)
Definition add_file (job : Job) (image : string) : Step string :=
  λ fd,
    let filename := job_filename job (entropy (generated fd)) in
    match base64ToBlob image with
    | inl e => inl e
    | inr blob =>
        inr ("images/" +:+ filename,
             mkFolder (<[filename := blob]> (files fd)) (S (generated fd)))
    end.

(** The image of a copy: the path of the file when the image is a data
    URL, the image itself otherwise. *)
Definition export_image (job : Job) (image : option string) : Step (option string) :=
  match image with
  | Some data =>
      if String.prefix "data:" data
      then step_bind (add_file job data) (λ path, step_ret (Some path))
      else step_ret image
  | None => step_ret image
  end.

(** [question.options.map((option, optIndex) => ...)] *)
Fixpoint export_options (qIndex optIndex : nat) (opts : list Option) : Step (list Option) :=
  match opts with
  | [] => step_ret []
  | opt :: opts' =>
      step_bind (export_image (OptionImage qIndex optIndex) (opt_image opt)) (λ image,
      step_bind (export_options qIndex (S optIndex) opts') (λ copies,
      step_ret (mkOption (opt_text opt) (opt_isCorrect opt) image
                  (opt_hasDiagram opt) (opt_boundingBox opt) :: copies)))
  end.

Definition export_question (qIndex : nat) (question : Question) : Step Question :=
  step_bind (export_image (QuestionImage qIndex) (image question)) (λ image,
  step_bind (match options question with
             | [] => step_ret []
             | _ => export_options qIndex 0 (options question)
             end) (λ opts,
  step_ret (mkQuestion (text question) (type question) opts (subject question)
              (board question) (standard question) (chapter question) (topic question)
              (section question) (marks question) (difficulty question)
              (correctAnswerText question) (numericalAnswer question) (source question)
              (isActive question) (isSelected question) (isValid question)
              image (hasImage question) (boundingBox question)))).

(** [questions.map((question, qIndex) => ...)] *)
Fixpoint export_questions (qIndex : nat) (questions : list Question) : Step (list Question) :=
  match questions with
  | [] => step_ret []
  | question :: questions' =>
      step_bind (export_question qIndex question) (λ questionCopy,
      step_bind (export_questions (S qIndex) questions') (λ copies,
      step_ret (questionCopy :: copies)))
  end.

(** The archive [createExportZip] resolves to, described by what it holds:
    the files of the folder [images], and the questions serialised as
    [questions.json]. *)
Record Zip := mkZip { zip_images : gmap string Blob; questions_json : list Question }.

Definition createExportZip (questions : list Question) (sourceName : string)
    : Js.Error + Zip :=
  if negb folder then inl (Js.mkError "Failed to create images folder in ZIP") else
  match export_questions 0 questions (mkFolder ∅ 0) with
  | inl e => inl e
  | inr (exportData, fd) =>
      match generateAsync with
      | Some e => inl e
      | None => inr (mkZip (files fd) exportData)
      end
  end.

(** The image of a copy stands for the image of the original in the
    archive: a data URL became the path of a file that holds the decoded
    image, anything else is kept. *)
Definition archived (images : gmap string Blob) (original copy : option string) : Prop :=
  match original with
  | Some data =>
      if String.prefix "data:" data
      then ∃ filename blob, copy = Some ("images/" +:+ filename)
             ∧ images !! filename = Some blob ∧ base64ToBlob data = inr blob
      else copy = original
  | None => copy = None
  end.

Definition option_archived (images : gmap string Blob) (opt optionCopy : Option) : Prop :=
  archived images (opt_image opt) (opt_image optionCopy)
  ∧ opt_text optionCopy = opt_text opt ∧ opt_isCorrect optionCopy = opt_isCorrect opt
  ∧ opt_hasDiagram optionCopy = opt_hasDiagram opt
  ∧ opt_boundingBox optionCopy = opt_boundingBox opt.

Definition question_archived (images : gmap string Blob) (question questionCopy : Question)
    : Prop :=
  archived images (image question) (image questionCopy)
  ∧ Forall2 (option_archived images) (options question) (options questionCopy)
  ∧ text questionCopy = text question ∧ type questionCopy = type question
  ∧ isSelected questionCopy = isSelected question
  ∧ hasImage questionCopy = hasImage question.

End Archive.

(** *** The order of the export *)

(** The place of a job in the order of the export. *)
Definition slot (job : Job) : nat * nat :=
  match job with
  | QuestionImage qIndex => (qIndex, 0)
  | OptionImage qIndex optIndex => (qIndex, S optIndex)
  end.

Definition earlier (s c : nat * nat) : Prop := s.1 < c.1 ∨ (s.1 = c.1 ∧ s.2 < c.2).

(** Every file of the folder was named for a job before the cursor. *)
Definition named_before (fd : Folder) (c : nat * nat) : Prop :=
  ∀ name, is_Some (files fd !! name) →
    ∃ job now, name = job_filename job now ∧ earlier (slot job) c.

(** What a step that resolves has done to the folder. *)
Definition grows (fd fd' : Folder) (n : nat) (c' : nat * nat) : Prop :=
  named_before fd' c' ∧ files fd ⊆ files fd' ∧ size (files fd') = size (files fd) + n.

End ExportService.

(** ** Editing the options of a question ([QuestionCard.tsx]) *)

Module QuestionCard.
Import Types.

(** Option objects live in a store: the handler copies the array of
    options but not the objects, and then writes to them. *)
Definition loc := positive.
Abbreviation Store := (gmap loc Option).

(** [field] and [value] of [handleOptionChange]. *)
Inductive Change :=
  | SetText (value : string)
  | SetIsCorrect (value : bool)
  | SetImage (value : option string)
  | SetHasDiagram (value : bool)
  | SetBoundingBox (value : list Q).

(** [{ ...undefined }] *)
Definition empty_object : Option := mkOption None None None None None.

(** [{ ...o, [field]: value }] *)
Definition assign (o : Option) (c : Change) : Option :=
  match c with
  | SetText v => mkOption (Some v) (opt_isCorrect o) (opt_image o) (opt_hasDiagram o) (opt_boundingBox o)
  | SetIsCorrect v => mkOption (opt_text o) (Some v) (opt_image o) (opt_hasDiagram o) (opt_boundingBox o)
  | SetImage v => mkOption (opt_text o) (opt_isCorrect o) v (opt_hasDiagram o) (opt_boundingBox o)
  | SetHasDiagram v => mkOption (opt_text o) (opt_isCorrect o) (opt_image o) (Some v) (opt_boundingBox o)
  | SetBoundingBox v => mkOption (opt_text o) (opt_isCorrect o) (opt_image o) (opt_hasDiagram o) (Some v)
  end.

(** [o.isCorrect = false] *)
Definition clear_correct (o : Option) : Option :=
  mkOption (opt_text o) (Some false) (opt_image o) (opt_hasDiagram o) (opt_boundingBox o).

(** [arr[i] = v] on an array whose slots are [Some] element or [None] for
    a hole: past the end the array grows, and the slots in between are
    holes. *)
Definition array_set {A} (arr : list (option A)) (i : nat) (v : A) : list (option A) :=
  if decide (i < length arr) then <[i := Some v]> arr
  else arr ++ replicate (i - length arr) None ++ [Some v].

(** [newOptions.forEach((o, i) => { if (i !== optIndex) o.isCorrect = false; })]:
    holes are skipped. *)
Fixpoint clear_others (optIndex i : nat) (arr : list (option loc)) (store : Store) : Store :=
  match arr with
  | [] => store
  | slot :: arr' =>
      let store' :=
        match slot with
        | Some l => if decide (i = optIndex) then store else alter clear_correct l store
        | None => store
        end in
      clear_others optIndex (S i) arr' store'
  end.

(** [field === 'isCorrect' && value === true && question.type === 'mcq'] *)
Definition clears (c : Change) (t : QuestionType) : bool :=
  match c, t with
  | SetIsCorrect true, mcq => true
  | _, _ => false
  end.

(** [{ ...question, options: newOptions }] *)
Definition with_options {A B} (question : QuestionOf A) (newOptions : list B) : QuestionOf B :=
  mkQuestion (text question) (type question) newOptions (subject question) (board question)
    (standard question) (chapter question) (topic question) (section question)
    (marks question) (difficulty question) (correctAnswerText question)
    (numericalAnswer question) (source question) (isActive question) (isSelected question)
    (isValid question) (image question) (hasImage question) (boundingBox question).

(** The handler: the store after it, and the question it hands to
    [onUpdate]. *)
Definition handleOptionChange (store : Store) (question : QuestionOf loc)
    (optIndex : nat) (c : Change) : Store * QuestionOf (option loc) :=
  let newOptions := Some <$> options question in
  let old := default empty_object (options question !! optIndex ≫= (store !!.)) in
  let l := fresh (dom store) in
  let store := <[l := assign old c]> store in
  let newOptions := array_set newOptions optIndex l in
  let store := if clears c (type question) then clear_others optIndex 0 newOptions store
               else store in
  (store, with_options question newOptions).

(** The option in a slot is marked correct. *)
Definition marked_correct (store : Store) (slot : option loc) : bool :=
  match slot ≫= (store !!.) with
  | Some o => bool_decide (opt_isCorrect o = Some true)
  | None => false
  end.

(** *** Formulas in a text ([MathDisplay]) *)

(** [.*?\$] behind an opening [$]: the code units up to the next [$],
    none of them a line terminator. *)
Fixpoint closing (s : string) : option string :=
  match s with
  | EmptyString => None
  | String c s' =>
      if bool_decide (c = "$"%char) then Some EmptyString
      else if JsString.is_line_terminator c then None
      else String c <$> closing s'
  end.

(** [text.split(/(\$.*?\$)/g)]: the text is cut at every match, found
    from left to right, and the match itself is kept as a part of its own;
    [skip] counts the code units of a match still to pass. *)
Fixpoint split_formulas_go (skip : nat) (s : string) : list string :=
  match s with
  | EmptyString => [EmptyString]
  | String c s' =>
      match skip with
      | S k => split_formulas_go k s'
      | O =>
          match (if bool_decide (c = "$"%char) then closing s' else None) with
          | Some body =>
              EmptyString :: String "$" (body +:+ "$")
              :: split_formulas_go (S (String.length body)) s'
          | None =>
              match split_formulas_go 0 s' with
              | part :: parts => String c part :: parts
              | [] => [String c EmptyString]
              end
          end
      end
  end.

Definition split_formulas (text : string) : list string := split_formulas_go 0 text.

(** [part.endsWith('$')] *)
Fixpoint endsWith_dollar (part : string) : bool :=
  match part with
  | EmptyString => false
  | String c EmptyString => bool_decide (c = "$"%char)
  | String _ part' => endsWith_dollar part'
  end.

(** [part.slice(0, -1)] and [part.slice(1, -1)] *)
Fixpoint without_last (part : string) : string :=
  match part with
  | EmptyString => EmptyString
  | String _ EmptyString => EmptyString
  | String c part' => String c (without_last part')
  end.

Definition slice_1_m1 (part : string) : string :=
  match part with
  | EmptyString => EmptyString
  | String _ part' => without_last part'
  end.

(** What is appended to the container: the [span] that [katex.render]
    filled for a formula, or a text node. *)
Inductive Node :=
  | Formula (tex : string)
  | TextNode (data : string).

Section MathDisplay.

(** Whether [katex.render] throws on a formula. *)
Variable katex_throws : string → bool.

Definition render_part (part : string) : Node :=
  if String.prefix "$" part && endsWith_dollar part then
    let formula := slice_1_m1 part in
    if katex_throws formula then TextNode part else Formula formula
  else TextNode part.

(** The children of the container after the effect has run, when the
    container is mounted. *)
Definition MathDisplay (text : string) : list Node :=
  render_part <$> split_formulas text.

End MathDisplay.

(** The source text a node stands for. *)
Definition shown (n : Node) : string :=
  match n with
  | Formula tex => String "$" (tex +:+ "$")
  | TextNode data => data
  end.

(** A formula as the pattern matches it: between two [$], no [$] and no
    line terminator. *)
Definition is_formula (part : string) : Prop :=
  ∃ body, part = String "$" (body +:+ "$")
    ∧ JsString.occurs "$" body = false ∧ JsString.has_line_terminator body = false.

(** Parts that are, in turn, a text and a formula, and end with a text. *)
Inductive interleaved : list string → Prop :=
  | interleaved_text text : interleaved [text]
  | interleaved_formula text formula parts :
      is_formula formula → interleaved parts → interleaved (text :: formula :: parts).

End QuestionCard.

(** ** The oracle client ([processBatch] of [geminiService.ts]) *)

Module OracleClient.
Import Types Js.

(** A question as the remote service answers it, with the fields of the
    response schema, over the representation [O] of its [options].  The
    text, [board], [standard], the diagram flag and the box may be
    missing; the other fields, which are only copied, are taken to be
    there, as the cast [as Question] asserts. *)
Record RawQuestionOf (O : Type) := mkRaw {
  raw_text : option string;
  raw_type : QuestionType;
  raw_options : O;
  raw_numericalAnswer : option string;
  raw_subject : Subject;
  raw_standard : option Standard;
  raw_board : option Board;
  raw_chapter : string;
  raw_topic : string;
  raw_marks : Q;
  raw_difficulty : Difficulty;
  raw_correctAnswerText : string;
  raw_hasDiagram : option bool;
  raw_boundingBox : option (list Q)
}.

Arguments mkRaw {O}.
Arguments raw_text {O}.
Arguments raw_type {O}.
Arguments raw_options {O}.
Arguments raw_numericalAnswer {O}.
Arguments raw_subject {O}.
Arguments raw_standard {O}.
Arguments raw_board {O}.
Arguments raw_chapter {O}.
Arguments raw_topic {O}.
Arguments raw_marks {O}.
Arguments raw_difficulty {O}.
Arguments raw_correctAnswerText {O}.
Arguments raw_hasDiagram {O}.
Arguments raw_boundingBox {O}.

(** A question whose [options] are as the schema wants them: left out, or
    an array of options. *)
Abbreviation RawQuestion := (RawQuestionOf (option (list Option))).

(** The [options] of a question as [JSON.parse] may give them. *)
Inductive RawOptions :=
  | OptionsMissing                                (* left out, or a falsy value *)
  | OptionsNoArray                                (* a truthy value that is no array *)
  | OptionsArray (opts : list (option Option)).   (* an array; [None] is [null] *)

(** An element of [parsed.questions]; [None] is [null]. *)
Abbreviation Item := (option (RawQuestionOf RawOptions)).

(** [parsed.questions] as [JSON.parse] may give it.  (A text there would
    be iterated character by character; it is not part of the model.) *)
Inductive Questions :=
  | QuestionsMissing                              (* left out, or a falsy value *)
  | QuestionsNoArray                              (* a truthy value that cannot be iterated *)
  | QuestionsArray (items : list Item).

(** A call of [cropImageFromBase64]. *)
Inductive Event := CropCall (base64Image : string) (box : list Q).

Section Client.
Context {PDFPageImage : Type}.

(** [page.inlineData.data], when the page has [inlineData]. *)
Variable inlineData : PDFPageImage → option string.

(** [model.generateContent(...)] followed by [response.response.text()]:
    the text of the answer, or what the call throws.  The page number only
    tells the calls of one run apart. *)
Variable generateContent : list (@GeminiService.Part PDFPageImage) → option nat → Error + string.

(** [JSON.parse] and the reading of [parsed.questions]: what the object
    parsed has there, or the exception. *)
Variable JSON_parse : string → Error + Questions.

Variable browser : ImageUtils.Browser.

(** The encoding of what the cropper drew ([canvas.toDataURL]). *)
Variable toDataURL : ImageUtils.CroppedImage → string.

(** [typeof p !== 'string' && 'inlineData' in p] *)
Definition has_inlineData (p : @GeminiService.Part PDFPageImage) : bool :=
  match p with
  | GeminiService.PagePart page => bool_decide (is_Some (inlineData page))
  | GeminiService.TextPart _ => false
  end.

Definition isMultimodal (parts : list (@GeminiService.Part PDFPageImage)) : bool :=
  existsb has_inlineData parts.

(** [isMultimodal ? parts[0].inlineData.data : null]; reading [data] of a
    first part without [inlineData] throws. *)
Definition currentImageBase64 (parts : list (@GeminiService.Part PDFPageImage))
    : Error + option string :=
  if isMultimodal parts then
    match parts with
    | GeminiService.PagePart page :: _ =>
        match inlineData page with
        | Some data => inr (Some data)
        | None => inl (mkError "Cannot read properties of undefined (reading 'data')")
        end
    | _ => inl (mkError "Cannot read properties of undefined (reading 'data')")
    end
  else inr None.

(** [hasDiagram && boundingBox && isMultimodal && currentImageBase64]: the
    image and the box to crop, when all four are truthy. *)
Definition crop_request (hasDiagram : option bool) (boundingBox : option (list Q))
    (multimodal : bool) (image : option string) : option (string * list Q) :=
  match hasDiagram, boundingBox, image with
  | Some true, Some box, Some data =>
      if multimodal && negb (String.eqb data "") then Some (data, box) else None
  | _, _, _ => None
  end.

(** What [await cropImageFromBase64(...)] gives for a request: the data
    URL or [null], or the exception. *)
Definition cropped (request : option (string * list Q)) : Error + option string :=
  match request with
  | None => inr None
  | Some (data, box) =>
      match result (ImageUtils.cropImageFromBase64 browser data (ImageUtils.BoxArray box)) with
      | inr img => inr (toDataURL <$> img)
      | inl e => inl e
      end
  end.

Definition announce (request : option (string * list Q)) : list Event :=
  match request with
  | Some (data, box) => [CropCall data box]
  | None => []
  end.

(** The first exception of a list of outcomes, or all the values. *)
Fixpoint all_settled {A} (outcomes : list (Error + A)) : Error + list A :=
  match outcomes with
  | [] => inr []
  | inl e :: _ => inl e
  | inr a :: rest =>
      match all_settled rest with
      | inl e => inl e
      | inr values => inr (a :: values)
      end
  end.

(** One call of the callback of [(q.options || []).map(async opt => ...)]:
    reading [hasDiagram] of [null] throws. *)
Definition option_with_crop (multimodal : bool) (image : option string)
    (opt : option Option) : M Event Option :=
  match opt with
  | None => throw (mkError "Cannot read properties of null (reading 'hasDiagram')")
  | Some opt =>
      let request := crop_request (opt_hasDiagram opt) (opt_boundingBox opt) multimodal image in
      optImage <- (announce request, cropped request);;
      ret (mkOption (opt_text opt) (opt_isCorrect opt) optImage
             (opt_hasDiagram opt) (opt_boundingBox opt))
  end.

(** [await Promise.all((q.options || []).map(async opt => ...))]: a value
    that is no array has no [map]; on an array every callback is started,
    in the order of the options, before any is awaited, so every crop is
    called even when a callback throws. *)
Definition optionsWithCrops (multimodal : bool) (image : option string)
    (options : RawOptions) : M Event (list Option) :=
  match options with
  | OptionsMissing => ret []
  | OptionsNoArray => throw (mkError "(q.options || []).map is not a function")
  | OptionsArray opts =>
      let started := option_with_crop multimodal image <$> opts in
      (started ≫= trace, all_settled (result <$> started))
  end.

(** One turn of [for (const q of (parsed.questions || []))]: reading
    [hasDiagram] of [null] throws. *)
Definition process_question (sourceName : string) (multimodal : bool)
    (image : option string) (item : Item) : M Event Question :=
  match item with
  | None => throw (mkError "Cannot read properties of null (reading 'hasDiagram')")
  | Some q =>
      let request := crop_request (raw_hasDiagram q) (raw_boundingBox q) multimodal image in
      mainImage <- (announce request, cropped request);;
      opts <- optionsWithCrops multimodal image (raw_options q);;
      ret (mkQuestion (raw_text q) (raw_type q) opts (raw_subject q)
             (default JEE (raw_board q)) (Some (default Std11th (raw_standard q)))
             (raw_chapter q) (raw_topic q)
             (match raw_type q with numerical => Numerical | _ => Objective end)
             (raw_marks q) (raw_difficulty q) (raw_correctAnswerText q)
             (raw_numericalAnswer q) sourceName true true (Some true)
             mainImage
             (Some (match mainImage with Some url => negb (String.eqb url "") | None => false end))
             (raw_boundingBox q))
  end.

Fixpoint process_questions (sourceName : string) (multimodal : bool)
    (image : option string) (items : list Item) : M Event (list Question) :=
  match items with
  | [] => ret []
  | item :: items' =>
      question <- process_question sourceName multimodal image item;;
      processed <- process_questions sourceName multimodal image items';;
      ret (question :: processed)
  end.

(** The loop over [parsed.questions || []]. *)
Definition process_parsed (sourceName : string) (multimodal : bool)
    (image : option string) (parsed : Questions) : M Event (list Question) :=
  match parsed with
  | QuestionsMissing => ret []
  | QuestionsNoArray => throw (mkError "(parsed.questions || []) is not iterable")
  | QuestionsArray items => process_questions sourceName multimodal image items
  end.

(** [processBatch]; its [catch (error) { throw error; }] rethrows what it
    caught. *)
Definition processBatch (parts : list (@GeminiService.Part PDFPageImage))
    (sourceName : string) (pageNumber : option nat) : M Event (list Question) :=
  image <- ([], currentImageBase64 parts);;
  responseText <- ([], generateContent parts pageNumber);;
  parsed <- ([], if String.eqb responseText "" then inr (QuestionsArray [])
                 else JSON_parse responseText);;
  process_parsed sourceName (isMultimodal parts) image parsed.

(** What the reconciler sees of the client: what it returns or throws. *)
Definition client (parts : list (@GeminiService.Part PDFPageImage))
    (sourceName : string) (pageNumber : option nat) : Error + list Question :=
  result (processBatch parts sourceName pageNumber).

(** The crops of a run of the reconciler with this client: those of its
    batches, in order. *)
Definition crops_of (sourceName : string) (tr : list (@GeminiService.Event PDFPageImage))
    : list Event :=
  GeminiService.batches tr ≫= (λ call, trace (processBatch call.1 sourceName call.2)).

(** A question, and its options, that carry no image. *)
Definition without_images (q : Question) : Prop :=
  image q = None ∧ hasImage q = Some false
  ∧ Forall (λ opt, opt_image opt = None) (options q).

(** An option of the result is the option [opt] of the answer, but for
    its image. *)
Definition option_kept (opt : Option) (o : Option) : Prop :=
  opt_text o = opt_text opt ∧ opt_isCorrect o = opt_isCorrect opt
  ∧ opt_hasDiagram o = opt_hasDiagram opt ∧ opt_boundingBox o = opt_boundingBox opt.

(** The options of a question that can be mapped over: none where they
    are left out; there are none to map where the value is no array or
    holds a [null]. *)
Definition options_of (options : RawOptions) : option (list Option) :=
  match options with
  | OptionsMissing => Some []
  | OptionsNoArray => None
  | OptionsArray opts => mapM id opts
  end.

(** A question of the result is the question [r] of the answer: what the
    service said is kept, what it left out is filled in, and the question
    is stamped as selected, active, valid and coming from [sourceName]. *)
Definition question_kept (sourceName : string) (r : RawQuestionOf RawOptions) (q : Question)
    : Prop :=
  text q = raw_text r ∧ type q = raw_type r
  ∧ (∃ opts, options_of (raw_options r) = Some opts ∧ Forall2 option_kept opts (options q))
  ∧ subject q = raw_subject r ∧ chapter q = raw_chapter r ∧ topic q = raw_topic r
  ∧ marks q = raw_marks r ∧ difficulty q = raw_difficulty r
  ∧ correctAnswerText q = raw_correctAnswerText r
  ∧ numericalAnswer q = raw_numericalAnswer r
  ∧ boundingBox q = raw_boundingBox r
  ∧ board q = default JEE (raw_board r)
  ∧ standard q = Some (default Std11th (raw_standard r))
  ∧ (section q = Numerical ↔ type q = numerical)
  ∧ source q = sourceName ∧ isActive q = true ∧ isSelected q = true
  ∧ isValid q = Some true
  ∧ (hasImage q = Some true ↔ ∃ url, image q = Some url ∧ url ≠ "").

Definition item_kept (sourceName : string) (item : Item) (q : Question) : Prop :=
  ∃ r, item = Some r ∧ question_kept sourceName r q.

End Client.

(** The shape the client takes for granted: every question is an object,
    and its [options], where it has any, are an array of objects. *)
Definition well_shaped_item (item : Item) : Prop :=
  ∃ r opts, item = Some r ∧ options_of (raw_options r) = Some opts.

#[global] Instance well_shaped_item_dec item : Decision (well_shaped_item item).
Proof.
  destruct item as [r|]; [|right; by intros (? & ? & ? & _)].
  destruct (options_of (raw_options r)) as [opts|] eqn:Hopts.
  - left. by exists r, opts.
  - right. intros (r' & opts & [= <-] & Hsome). congruence.
Defined.

Definition items_of (parsed : Questions) : list Item :=
  match parsed with
  | QuestionsArray items => items
  | _ => []
  end.

Definition well_shaped (parsed : Questions) : Prop :=
  parsed ≠ QuestionsNoArray ∧ Forall well_shaped_item (items_of parsed).

End OracleClient.

(** ** Parsing the text of a document ([geminiService.ts], text only) *)

Module GeminiTextService.
Import Types Js.

(** What the parser does to the outside: a line given to [log], or the
    call of the remote service. *)
Inductive Event :=
  | Logged (entry : LogEntry)
  | Generate (textContent : string).

(** The JSON inside the answer: what lies between the first fence
    [```json] (or, when there is none, the first fence [```]) and the next
    fence, trimmed; the whole answer when it has no fence.  Reading
    [split(...)[1]] of a text without the separator would throw. *)
Definition piece (pieces : list string) (i : nat) : Error + string :=
  match pieces !! i with
  | Some s => inr s
  | None => inl (mkError "Cannot read properties of undefined (reading 'split')")
  end.

Definition between_fences (fence text : string) : Error + string :=
  match piece (JsString.split fence text) 1 with
  | inl e => inl e
  | inr after =>
      match piece (JsString.split "```" after) 0 with
      | inl e => inl e
      | inr inside => inr (JsString.trim inside)
      end
  end.

Definition extract_json (text : string) : Error + string :=
  if JsString.includes "```json" text then between_fences "```json" text
  else if JsString.includes "```" text then between_fences "```" text
  else inr text.

(** One question of the answer, completed. *)
Definition to_question (sourceName : string) (q : OracleClient.RawQuestion) : Question :=
  mkQuestion (OracleClient.raw_text q) (OracleClient.raw_type q)
    (default [] (OracleClient.raw_options q)) (OracleClient.raw_subject q)
    (default JEE (OracleClient.raw_board q))
    (Some (default Std12th (OracleClient.raw_standard q)))
    (OracleClient.raw_chapter q) (OracleClient.raw_topic q)
    (match OracleClient.raw_type q with numerical => Numerical | _ => Objective end)
    (OracleClient.raw_marks q) (OracleClient.raw_difficulty q)
    (OracleClient.raw_correctAnswerText q) (OracleClient.raw_numericalAnswer q)
    sourceName true true (Some true) None (Some false) (OracleClient.raw_boundingBox q).

Section Parser.

(** [import.meta.env.VITE_GEMINI_API_KEY] *)
Variable VITE_GEMINI_API_KEY : option string.

(** [model.generateContent(prompt)] and [response.text()]: the prompt is
    a fixed text around [textContent]. *)
Variable generateContent : string → Error + string.

(** [JSON.parse] and the reading of [parsed.questions]. *)
Variable JSON_parse : string → Error + option (list OracleClient.RawQuestion).

Definition log (msg : string) (lvl : LogLevel) : M Event unit :=
  emit (Logged (mkLog msg lvl)).

Definition parseQuestionsWithGemini (textContent sourceName : string)
    : M Event (list Question) :=
  if negb (GeminiService.truthy VITE_GEMINI_API_KEY)
  then throw (mkError "Gemini API Key is missing.") else
  log "Processing text with Gemini..." info >>-
  try_catch
    (emit (Generate textContent) >>-
     text <- ([], generateContent textContent);;
     jsonText <- ([], extract_json text);;
     parsed <- ([], JSON_parse jsonText);;
     let questions := to_question sourceName <$> default [] parsed in
     log ("Extracted " +:+ pretty (length questions) +:+ " questions") info >>-
     ret questions)
    (λ error,
       log ("Gemini API Error: " +:+ err_message error) Js.error >>-
       throw (mkError ("Failed to process with Gemini: " +:+ err_message error))).

End Parser.

(** The calls of the service in a trace, and the lines logged. *)
Definition calls (tr : list Event) : list string :=
  omap (λ ev, match ev with Generate textContent => Some textContent | Logged _ => None end) tr.

Definition logged (tr : list Event) : list LogEntry :=
  omap (λ ev, match ev with Logged entry => Some entry | Generate _ => None end) tr.

End GeminiTextService.

(** ** Reading a PDF ([pdfService.ts]) *)

Module PdfService.

(** [base64Full.split(',')[1]] of [convertPDFToImages]: the data of a
    page, without the header of the data URL. *)
Definition base64Data (base64Full : string) : option string :=
  JsString.split "," base64Full !! 1.

End PdfService.

(** ** The application ([App.tsx]) *)

Module App.
Import Types.

(** [[^/.]+$] at the start of [s]: one code unit or more up to the end,
    none of them a slash or a dot. *)
Fixpoint is_extension (s : string) : bool :=
  match s with
  | EmptyString => false
  | String c s' =>
      negb (bool_decide (c = "/"%char) || bool_decide (c = "."%char))
      && match s' with
         | EmptyString => true
         | String _ _ => is_extension s'
         end
  end.

(** [sourceName.replace(/\.[^/.]+$/, "")]: the leftmost match is cut. *)
Fixpoint remove_extension (sourceName : string) : string :=
  match sourceName with
  | EmptyString => EmptyString
  | String c s' =>
      if bool_decide (c = "."%char) && is_extension s' then EmptyString
      else String c (remove_extension s')
  end.

(** The name of the archive that [handleDownloadJSON] downloads. *)
Definition export_filename (sourceName : string) : string :=
  remove_extension sourceName +:+ "_JEE_Export.zip".

(** *** Adding an image to a question

    The function a card hands to [onRequestImageCrop] calls
    [handleFieldChange('image', croppedImage)]: it closes over the props
    of the card, [index] and [question], and, through [onUpdate], over
    the [questions] of the render that made the card. *)
Record Callback := mkCallback {
  cb_index : nat;
  cb_question : Question;
  cb_questions : list Question
}.

(** The state of the application, as far as the crop of an image goes;
    [sourceFile] tells whether a PDF is held. *)
Record State := mkState {
  questions : list Question;
  sourceFile : bool;
  showCropModal : bool;
  cropCallback : option Callback
}.

Inductive Effect := Alert (msg : string).

(** [{ ...question, image: value }] *)
Definition with_image (question : Question) (value : option string) : Question :=
  mkQuestion (text question) (type question) (options question) (subject question)
    (board question) (standard question) (chapter question) (topic question)
    (section question) (marks question) (difficulty question)
    (correctAnswerText question) (numericalAnswer question) (source question)
    (isActive question) (isSelected question) (isValid question)
    value (hasImage question) (boundingBox question).

(** [onUpdate] of the render with [questions]:
    [const next = [...questions]; next[i] = updated; setQuestions(next)],
    for the index of a card. *)
Definition onUpdate (questions : list Question) (i : nat) (updated : Question)
    (st : State) : State :=
  mkState (<[i := updated]> questions) (sourceFile st) (showCropModal st) (cropCallback st).

Definition handleRequestImageCrop (callback : Callback) (st : State) : State :=
  mkState (questions st) (sourceFile st) true (Some callback).

(** [handleAddQuestionImage] of the card at [index]; there is a card for
    each question of the state. *)
Definition handleAddQuestionImage (index : nat) (st : State) : State * list Effect :=
  match questions st !! index with
  | None => (st, [])
  | Some question =>
      if sourceFile st
      then (handleRequestImageCrop (mkCallback index question (questions st)) st, [])
      else (st, [Alert "PDF file not available for cropping"])
  end.

(** Calling the function of a card with the cropped image. *)
Definition call (callback : Callback) (croppedImage : string) (st : State) : State :=
  onUpdate (cb_questions callback) (cb_index callback)
    (with_image (cb_question callback) (Some croppedImage)) st.

(** [handleCropComplete] is a function of a render: the [cropCallback] it
    reads is the one of the state that was [render]ed, while its setters
    act on the state of the moment it is called. *)
Definition handleCropComplete (render : State) (croppedImage : string) (st : State) : State :=
  let st' := match cropCallback render with
             | Some callback => call callback croppedImage st
             | None => st
             end in
  mkState (questions st') (sourceFile st') false None.

(** [onClose] of the modal. *)
Definition onClose (st : State) : State :=
  mkState (questions st) (sourceFile st) false None.

(** [showCropModal && sourceFile]: the modal is rendered. *)
Definition modal_rendered (st : State) : bool := showCropModal st && sourceFile st.

End App.

(** ** Concrete inputs

    Small inputs on which the results below are instantiated. *)

Module Samples.
Import Types.

Definition question_with {O} (t : string) (ty : QuestionType) (img : option string)
    (opts : list O) : QuestionOf O :=
  mkQuestion (Some t) ty opts Physics JEE (Some Std12th) "Optics" "Lenses" Objective 4 medium
    "" None "paper.pdf" true true (Some true) img (Some false) None.

Definition option_with (img : option string) (correct : bool) : Option :=
  mkOption (Some "an answer") (Some correct) img None None.

(** An oracle client over pages that are plain numbers: the window that
    starts at page 2 fails, every other window returns a question of its
    own and one that every window sees. *)
Definition oracle (parts : list (@GeminiService.Part nat)) (sourceName : string)
    (pageNumber : option nat) : Js.Error + list Question :=
  match pageNumber with
  | Some 2 => inl (Js.mkError "malformed JSON")
  | Some n => inr [question_with ("Question of page " +:+ pretty n) mcq None [];
                   question_with "A question that spans pages" numerical None []]
  | None => inr []
  end.

(** Two stems that agree on their first 50 characters and differ behind
    them, and one that leaves them at the fiftieth. *)
Definition lens_at_30_cm : string :=
  "A thin convex lens of focal length 20 cm forms an image of an object placed 30 cm in front of it.".

Definition lens_at_60_cm : string :=
  "A thin convex lens of focal length 20 cm forms an image of a candle that stands 60 cm away from it.".

Definition lens_any : string :=
  "A thin convex lens of focal length 20 cm forms any image on the far side.".

(** An oracle client whose second window repeats the first 50 characters
    of a stem of the first. *)
Definition lens_oracle (parts : list (@GeminiService.Part nat)) (sourceName : string)
    (pageNumber : option nat) : Js.Error + list Question :=
  match pageNumber with
  | Some 1 => inr [question_with lens_at_30_cm mcq None []; question_with lens_any mcq None []]
  | Some 2 => inr [question_with lens_at_60_cm mcq None []]
  | _ => inr []
  end.

(** A question as the remote service may write it: with no text. *)
Definition textless : Question :=
  mkQuestion None mcq [] Physics JEE (Some Std11th) "Optics" "Lenses" Objective 4 medium
    "" None "paper.pdf" true true (Some true) None (Some false) None.

(** An oracle client that never throws: its first window hands back a
    question without text, its second a well-formed one. *)
Definition textless_oracle (parts : list (@GeminiService.Part nat)) (sourceName : string)
    (pageNumber : option nat) : Js.Error + list Question :=
  match pageNumber with
  | Some 1 => inr [textless]
  | Some 2 => inr [question_with "State the lens formula." mcq None []]
  | _ => inr []
  end.

(** A browser that decodes every source to a raster of 1000 by 2000
    pixels and whose canvas works. *)
Definition browser : ImageUtils.Browser :=
  ImageUtils.mkBrowser (λ _, Some (1000, 2000)) true None.

(** A browser that decodes every source to a raster of 10 by 10 pixels
    and whose canvas works. *)
Definition thumbnail_browser : ImageUtils.Browser :=
  ImageUtils.mkBrowser (λ _, Some (10, 10)) true None.

(** A canvas of 1200 by 1600 native pixels, displayed at 600 by 400. *)
Definition canvas : ImageCropModal.Canvas :=
  ImageCropModal.mkCanvas 1200 1600 (ImageCropModal.mkRect 10 20 600 400).

(** The same canvas with no width on the screen. *)
Definition collapsed_canvas : ImageCropModal.Canvas :=
  ImageCropModal.mkCanvas 1200 1600 (ImageCropModal.mkRect 10 20 0 400).

(** A selection of 5 by 3 pixels, made before the canvas went away. *)
Definition small_selection : ImageCropModal.State :=
  ImageCropModal.mkState ["page 1"; "page 2"] 0 false
    (ImageCropModal.mkPoint (JsNumber.Fin 100) (JsNumber.Fin 100))
    (ImageCropModal.mkPoint (JsNumber.Fin 105) (JsNumber.Fin 103)) true.

Definition page_browser : ImageCropModal.Browser :=
  ImageCropModal.mkBrowser (λ _, true) true.

(** An [atob] that throws on [undefined], as on every text that is no
    base64, and gives the payload back undecoded. *)
Definition atob (data : option string) : Js.Error + string :=
  match data with
  | Some payload => inr payload
  | None => inl (Js.mkError "The string to be decoded is not correctly encoded.")
  end.

(** Two questions with four data-URL images between them. *)
Definition export_questions : list Question :=
  [question_with "Q1" mcq (Some "data:image/png;base64,AAAA")
     [option_with (Some "data:image/png;base64,BBBB") true;
      option_with None false;
      option_with (Some "data:image/png;base64,CCCC") false];
   question_with "Q2" mcq None
     [option_with (Some "data:image/png;base64,DDDD") true;
      option_with (Some "https://example.org/e.png") false]].

(** One question with one image. *)
Definition one_image : list Question :=
  [question_with "Q" numerical (Some "data:image/png;base64,AAAA") []].

(** A store of three option objects, two of them marked correct, and the
    [mcq] question that refers to them. *)
Definition store : gmap positive Option :=
  <[1%positive := option_with None true]>
    (<[2%positive := option_with None true]>
       (<[3%positive := option_with None false]> ∅)).

Definition card_question : QuestionOf positive :=
  question_with "Q" mcq None [1%positive; 2%positive; 3%positive].

(** An oracle client over pages that are plain numbers, each with an
    image of its own.  The service answers every call with a text that
    parses to two questions: the first has a diagram and an option with a
    diagram, the second has neither and leaves board and standard out. *)
Definition inlineData (page : nat) : option string := Some ("image of page " +:+ pretty page).

Definition generateContent (parts : list (@GeminiService.Part nat)) (pageNumber : option nat)
    : Js.Error + string :=
  inr "{ ... }".

Definition answer : list OracleClient.Item :=
  [Some (OracleClient.mkRaw (Some "Find the focal length.") mcq
     (OracleClient.OptionsArray
        [Some (mkOption (Some "10 cm") (Some true) None None None);
         Some (mkOption (Some "as drawn") (Some false) None (Some true)
                 (Some [600; 100; 700; 300]%Q))])
     None Physics (Some Std12th) (Some NEET) "Optics" "Lenses" 4 medium "10 cm"
     (Some true) (Some [100; 100; 400; 900]%Q));
   Some (OracleClient.mkRaw (Some "Compute the work done.") numerical
     OracleClient.OptionsMissing (Some "42")
     Physics None None "Mechanics" "Work" 4 easy "42" (Some false) None)].

Definition JSON_parse (responseText : string) : Js.Error + OracleClient.Questions :=
  inr (OracleClient.QuestionsArray answer).

(** An answer whose second question is [null]. *)
Definition JSON_parse_null (responseText : string) : Js.Error + OracleClient.Questions :=
  inr (OracleClient.QuestionsArray (take 1 answer ++ [None])).

Definition toDataURL (img : ImageUtils.CroppedImage) : string :=
  "data:image/jpeg;base64,crop".

End Samples.

(** * Results *)

Section ReconcilerFacts.
Import Types Js GeminiService.
Context {PDFPageImage : Type}.
Implicit Types (key : option string) (pages : list PDFPageImage) (sourceName : string).
Implicit Types (processBatch : list (@Part PDFPageImage) → string → option nat → Error + list Question).

(** The merge, where every text is a string: nothing throws, and a
    candidate is pushed when no question before it has its prefix. *)
Local Abbreviation merge_texts :=
  (foldl (λ (acc : list Question) (q : Question),
            if decide (stem_prefix 50 q ∈ stem_prefix 50 <$> acc) then acc else acc ++ [q])).

Lemma slice_length {A} (l : list A) i j : length (slice i j l) = (j - i) `min` (length l - i).
Proof. unfold slice. by rewrite length_take, length_drop. Qed.

Lemma window_step_unfold processBatch pages sourceName i acc :
  i < length pages →
  window_step processBatch pages sourceName i acc
  = (window_events pages i (window_outcome processBatch pages sourceName i acc).2,
     inr ((window_outcome processBatch pages sourceName i acc).1,
          if decide (length pages ≤ i + WINDOW_SIZE) then Break else Continue)).
Proof.
  intros Hi. unfold window_step.
  destruct (decide (length (slice i (i + WINDOW_SIZE) pages) = 0)) as [Hz|_].
  { rewrite slice_length in Hz. unfold WINDOW_SIZE in Hz. lia. }
  unfold window_outcome, window_events, window_call, try_window, callProcessBatch, failure_line.
  cbn [fst snd].
  destruct (processBatch _ _ _) as [e|qs]; cbn.
  - by destruct (decide _).
  - destruct (merge_window acc qs) as [acc' [e|]]; cbn; by destruct (decide _).
Qed.

Lemma window_loop_unfold processBatch pages sourceName n i acc :
  i + n = length pages → 1 ≤ n →
  for_each (seq i n) (window_step processBatch pages sourceName) acc
  = ((windows_run processBatch pages sourceName (seq i (1 `max` (n - 1))) acc).1,
     inr (windows_run processBatch pages sourceName (seq i (1 `max` (n - 1))) acc).2).
Proof.
  revert i acc. induction n as [|n IH]; intros i acc Hlen Hn; [lia|].
  cbn [seq for_each]. rewrite window_step_unfold by lia.
  destruct (decide (length pages ≤ i + WINDOW_SIZE)) as [Hlast|Hmore].
  - assert (1 `max` (S n - 1) = 1) as -> by (unfold WINDOW_SIZE in *; lia).
    cbn. by rewrite !app_nil_r.
  - assert (1 `max` (S n - 1) = S (1 `max` (n - 1))) as -> by (unfold WINDOW_SIZE in *; lia).
    cbn [seq windows_run fst snd]. unfold bind at 1.
    rewrite IH by (unfold WINDOW_SIZE in *; lia). done.
Qed.

Lemma spec_windows_length N :
  length (spec_windows N) = match N with 0 => 0 | S _ => 1 `max` (N - 1) end.
Proof.
  unfold spec_windows. case_decide; subst; [done|].
  rewrite length_fmap, length_seq. destruct N; lia.
Qed.

(** The run on an array of pages, in closed form. *)
Lemma reconciler_unfold key processBatch pages sourceName :
  truthy key = true →
  parseQuestionsWithGemini key processBatch (inr pages) sourceName
  = ((windows_run processBatch pages sourceName
        (seq 0 (length (spec_windows (length pages)))) []).1,
     inr (windows_run processBatch pages sourceName
            (seq 0 (length (spec_windows (length pages)))) []).2).
Proof.
  intros Hkey. unfold parseQuestionsWithGemini. rewrite Hkey. cbn [negb].
  rewrite spec_windows_length. destruct (length pages) as [|n] eqn:Hn; [done|].
  rewrite <- Hn. apply window_loop_unfold; lia.
Qed.

Lemma batches_windows_run processBatch pages sourceName l acc :
  batches (windows_run processBatch pages sourceName l acc).1 = window_call pages <$> l.
Proof.
  revert acc. induction l as [|i l IH]; intros acc; [done|].
  cbn [windows_run fst]. unfold batches in *. rewrite omap_app, IH.
  unfold window_events. cbn. by destruct (window_outcome _ _ _ _ _).2.
Qed.

(** The calls of a run: one for each window, whatever the client answers. *)
Lemma reconciler_batches key processBatch pages sourceName :
  truthy key = true →
  batches (trace (parseQuestionsWithGemini key processBatch (inr pages) sourceName))
  = window_call pages <$> seq 0 (length (spec_windows (length pages))).
Proof.
  intros Hkey. rewrite reconciler_unfold by done. apply batches_windows_run.
Qed.

Lemma fingerprint_text q :
  is_Some (text q) → fingerprint q = inr (stem_prefix 50 q).
Proof. unfold fingerprint, stem_prefix, stem. by intros [t ->]. Qed.

Lemma find_duplicate_texts acc q :
  Forall (λ p, is_Some (text p)) acc → is_Some (text q) →
  if decide (stem_prefix 50 q ∈ stem_prefix 50 <$> acc)
  then ∃ p, find_duplicate acc q = inr (Some p)
  else find_duplicate acc q = inr None.
Proof.
  intros Hacc Hq. induction Hacc as [|p acc Hp Hacc IH].
  { rewrite decide_False by apply not_elem_of_nil. done. }
  cbn [find_duplicate]. rewrite !fingerprint_text by done.
  destruct (String.eqb_spec (stem_prefix 50 p) (stem_prefix 50 q)) as [Heq|Hne].
  - rewrite decide_True by (rewrite fmap_cons, Heq; apply list_elem_of_here). by eexists.
  - destruct (decide (stem_prefix 50 q ∈ stem_prefix 50 <$> acc)) as [Hin|Hin].
    + rewrite decide_True by (by apply list_elem_of_further). done.
    + rewrite decide_False; [done|]. rewrite fmap_cons, not_elem_of_cons. split; [congruence|done].
Qed.

Lemma merge_window_texts acc l :
  Forall (λ p, is_Some (text p)) acc → Forall (λ p, is_Some (text p)) l →
  merge_window acc l = (merge_texts acc l, None)
  ∧ Forall (λ p, is_Some (text p)) (merge_texts acc l).
Proof.
  intros Hacc Hl. revert acc Hacc. induction Hl as [|q l Hq Hl IH]; intros acc Hacc; [done|].
  cbn [merge_window foldl].
  pose proof (find_duplicate_texts acc q Hacc Hq) as Hfind.
  destruct (decide (stem_prefix 50 q ∈ stem_prefix 50 <$> acc)) as [Hin|Hin].
  - destruct Hfind as [p ->]. by apply IH.
  - rewrite Hfind. apply IH. apply Forall_app. split; [done|by constructor].
Qed.

Lemma merge_texts_first_occurrences l acc :
  merge_texts acc l
  = acc ++ filter (λ x, stem_prefix 50 x ∉ stem_prefix 50 <$> acc) (first_occurrences 50 l).
Proof.
  revert acc. induction l as [|q l IH]; intros acc.
  - cbn. by rewrite app_nil_r.
  - cbn [foldl first_occurrences].
    destruct (decide (stem_prefix 50 q ∈ stem_prefix 50 <$> acc)) as [Hin|Hin].
    + rewrite IH. f_equal.
      rewrite filter_cons_False by (intros Hn; by apply Hn).
      rewrite list_filter_filter. apply list_filter_iff. intros x. split; [|tauto].
      intros Hx. split; [done|]. intros Heq. apply Hx. by rewrite Heq.
    + rewrite IH.
      rewrite filter_cons_True by done. rewrite <- app_assoc. cbn. do 2 f_equal.
      rewrite list_filter_filter. apply list_filter_iff. intros x.
      rewrite fmap_app, not_elem_of_app. cbn. rewrite list_elem_of_singleton. tauto.
Qed.

Lemma merge_texts_nil l : merge_texts [] l = first_occurrences 50 l.
Proof.
  rewrite merge_texts_first_occurrences. cbn.
  induction (first_occurrences 50 l) as [|x k IH]; [done|].
  rewrite filter_cons_True by apply not_elem_of_nil. by rewrite IH.
Qed.

Lemma foldl_merge_bind {A} (f : A → list Question) l acc :
  foldl (λ a j, merge_texts a (f j)) acc l = merge_texts acc (l ≫= f).
Proof.
  revert acc. induction l as [|j l IH]; intros acc; [done|].
  rewrite bind_cons, foldl_app. apply IH.
Qed.

(** The windows of a run whose candidates all have a text: a window fails
    only where its call throws, and the merges are those of [merge_texts]. *)
Lemma windows_run_texts processBatch pages sourceName l acc :
  Forall (λ p, is_Some (text p)) acc →
  Forall (λ p, is_Some (text p)) (l ≫= (λ i, returned_by processBatch sourceName (window_call pages i))) →
  windows_run processBatch pages sourceName l acc
  = (l ≫= (λ i, window_events pages i
                  (thrown (processBatch (window_call pages i).1 sourceName (window_call pages i).2))),
     foldl (λ a j, merge_texts a (returned_by processBatch sourceName (window_call pages j))) acc l).
Proof.
  revert acc. induction l as [|i l IH]; intros acc Hacc Hl; [done|].
  rewrite bind_cons in Hl. apply Forall_app in Hl as [Hi Hl].
  cbn [windows_run foldl]. rewrite bind_cons.
  unfold window_outcome, returned_by in *.
  destruct (processBatch (window_call pages i).1 sourceName (window_call pages i).2) as [e|qs].
  - cbn [fst snd thrown foldl]. by rewrite IH.
  - destruct (merge_window_texts acc qs Hacc Hi) as [-> Hall].
    cbn [fst snd thrown]. by rewrite IH.
Qed.

(** A run whose candidates all have a text, in closed form. *)
Lemma reconciler_texts key processBatch pages sourceName :
  truthy key = true →
  let out := parseQuestionsWithGemini key processBatch (inr pages) sourceName in
  Forall (λ q, is_Some (text q)) (candidates processBatch sourceName (trace out)) →
  out = (seq 0 (length (spec_windows (length pages)))
           ≫= (λ i, window_events pages i
                      (thrown (processBatch (window_call pages i).1 sourceName
                                 (window_call pages i).2))),
         inr (first_occurrences 50 (candidates processBatch sourceName (trace out)))).
Proof.
  intros Hkey out Htexts. unfold candidates in *. subst out.
  rewrite reconciler_batches in * by done. rewrite list_fmap_bind in *.
  rewrite reconciler_unfold by done.
  rewrite windows_run_texts by done. cbn [fst snd].
  by rewrite foldl_merge_bind, merge_texts_nil.
Qed.

Lemma first_occurrences_sublist l : first_occurrences 50 l `sublist_of` l.
Proof.
  induction l as [|q l IH]; cbn; [done|].
  apply sublist_skip. etrans; [apply sublist_filter|done].
Qed.

Lemma first_occurrences_prefixes l x :
  stem_prefix 50 x ∈ stem_prefix 50 <$> first_occurrences 50 l
  ↔ stem_prefix 50 x ∈ stem_prefix 50 <$> l.
Proof.
  induction l as [|q l IH]; cbn; [done|].
  rewrite !elem_of_cons, <- IH. rewrite !list_elem_of_fmap.
  split.
  - intros [?|(y & Hy & Hin)]; [by left|]. apply list_elem_of_filter in Hin as [_ Hin]. right. eauto.
  - intros [?|(y & Hy & Hin)]; [by left|].
    destruct (decide (stem_prefix 50 x = stem_prefix 50 q)) as [|Hne]; [by left|].
    right. exists y. split; [done|]. apply list_elem_of_filter. split; [congruence|done].
Qed.

Lemma first_occurrences_NoDup l : NoDup (stem_prefix 50 <$> first_occurrences 50 l).
Proof.
  induction l as [|q l IH]; cbn; [constructor|].
  constructor.
  - rewrite list_elem_of_fmap. intros (y & Hy & Hin).
    apply list_elem_of_filter in Hin as [Hne _]. congruence.
  - apply (sublist_NoDup _ (stem_prefix 50 <$> first_occurrences 50 l)); [exact IH|].
    apply fmap_sublist, sublist_filter.
Qed.

Lemma first_occurrences_head pre q post :
  stem_prefix 50 q ∉ stem_prefix 50 <$> pre → q ∈ first_occurrences 50 (pre ++ q :: post).
Proof.
  induction pre as [|p pre IH]; cbn; intros Hq.
  - apply list_elem_of_here.
  - apply not_elem_of_cons in Hq as [Hne Hq]. apply list_elem_of_further.
    apply list_elem_of_filter. split; [done|]. by apply IH.
Qed.

Lemma first_occurrences_origin l r :
  r ∈ first_occurrences 50 l →
  ∃ pre post, l = pre ++ r :: post ∧ stem_prefix 50 r ∉ stem_prefix 50 <$> pre.
Proof.
  induction l as [|q l IH]; cbn; [by intros ?%elem_of_nil|].
  intros [->|Hin]%elem_of_cons.
  - exists [], l. split; [done|]. apply not_elem_of_nil.
  - apply list_elem_of_filter in Hin as [Hne Hin].
    destruct (IH Hin) as (pre & post & -> & Hpre).
    exists (q :: pre), post. split; [done|]. cbn. apply not_elem_of_cons. split; [congruence|done].
Qed.

Lemma window_pages_spec pages :
  window_pages <$> (window_call pages <$> seq 0 (length (spec_windows (length pages))))
  = spec_windows (length pages).
Proof.
  rewrite spec_windows_length. unfold spec_windows.
  destruct (decide (length pages = 1)) as [H1|Hne].
  - rewrite H1. cbn [length seq fmap list_fmap Nat.max Nat.sub]. unfold window_pages, window_call.
    cbn [fst snd]. rewrite length_fmap, slice_length, H1. done.
  - rewrite <- list_fmap_compose.
    assert (match length pages with 0 => 0 | S _ => 1 `max` (length pages - 1) end
            = length pages - 1) as -> by (destruct (length pages); lia).
    rewrite <- (fmap_S_seq 0), <- list_fmap_compose.
    apply list_fmap_ext. intros i x [-> Hi]%lookup_seq.
    unfold compose, window_pages, window_call. cbn [fst snd].
    rewrite length_fmap, slice_length. unfold WINDOW_SIZE.
    replace ((0 + i + 2 - (0 + i)) `min` (length pages - (0 + i))) with 2 by lia.
    cbn [seq]. repeat f_equal; lia.
Qed.

Lemma spec_windows_cover N k :
  1 ≤ k ≤ N → ∃ w, w ∈ spec_windows N ∧ k ∈ w.
Proof.
  intros Hk. unfold spec_windows. case_decide.
  - exists [1]. split; [apply list_elem_of_here|]. replace k with 1 by lia. apply list_elem_of_here.
  - destruct (decide (k < N)).
    + exists [k; k + 1]. split; [|apply list_elem_of_here].
      apply list_elem_of_fmap. exists k. split; [done|]. apply elem_of_seq. lia.
    + exists [k - 1; k - 1 + 1]. split.
      * apply list_elem_of_fmap. exists (k - 1). split; [done|]. apply elem_of_seq. lia.
      * replace (k - 1 + 1) with k by lia. apply list_elem_of_further, list_elem_of_here.
Qed.

Lemma filter_none {A} (P : A → Prop) `{!∀ x, Decision (P x)} (l : list A) :
  (∀ x, x ∈ l → ¬ P x) → filter P l = [].
Proof.
  induction l as [|x l IH]; intros Hall; [done|].
  rewrite filter_cons_False by (apply Hall, list_elem_of_here).
  apply IH. intros y Hy. by apply Hall, list_elem_of_further.
Qed.

Lemma spec_windows_adjacent N k :
  1 ≤ k < N → length (filter (λ w, k ∈ w ∧ S k ∈ w) (spec_windows N)) = 1.
Proof.
  intros Hk. unfold spec_windows. case_decide; [lia|].
  replace (N - 1) with ((k - 1) + S (N - 1 - k)) by lia.
  rewrite seq_app, fmap_app, filter_app. cbn [seq fmap list_fmap].
  replace (1 + (k - 1)) with k by lia.
  rewrite filter_cons_True.
  2:{ split; [apply list_elem_of_here|].
      replace (k + 1) with (S k) by lia. apply list_elem_of_further, list_elem_of_here. }
  rewrite !filter_none; [done| |].
  - intros w (j & -> & Hj%elem_of_seq)%list_elem_of_fmap [Hin _].
    rewrite !elem_of_cons, elem_of_nil in Hin. lia.
  - intros w (j & -> & Hj%elem_of_seq)%list_elem_of_fmap [_ Hin].
    rewrite !elem_of_cons, elem_of_nil in Hin. lia.
Qed.

(** C1.  Given an array of [N] pages (and a configured API key), the
    reconciler submits to the oracle exactly the windows
    [[1,2],[2,3],...,[N-1,N]], in that order, or [[1]] alone when [N = 1]:
    the i-th call carries the pages of the i-th window and nothing else is
    submitted; every page 1..N is in some window, and every pair of
    adjacent pages is together in exactly one window. *)
Theorem windows_are_adjacent_pairs key processBatch pages sourceName :
  truthy key = true →
  let calls := batches (trace (parseQuestionsWithGemini key processBatch (inr pages) sourceName)) in
  calls = window_call pages <$> seq 0 (length (spec_windows (length pages)))
  ∧ window_pages <$> calls = spec_windows (length pages)
  ∧ (∀ k, 1 ≤ k ≤ length pages → ∃ c, c ∈ calls ∧ k ∈ window_pages c)
  ∧ (∀ k, 1 ≤ k < length pages →
       length (filter (λ w, k ∈ w ∧ S k ∈ w) (window_pages <$> calls)) = 1).
Proof.
  intros Hkey calls.
  assert (Hcalls : calls = window_call pages <$> seq 0 (length (spec_windows (length pages)))).
  { subst calls. by apply reconciler_batches. }
  assert (Hspec : window_pages <$> calls = spec_windows (length pages)).
  { rewrite Hcalls. apply window_pages_spec. }
  split_and!; [done|done| |].
  - intros k Hk. destruct (spec_windows_cover _ _ Hk) as (w & Hw & Hkw).
    rewrite <- Hspec in Hw. apply list_elem_of_fmap in Hw as (c & -> & Hc). eauto.
  - intros k Hk. rewrite Hspec. by apply spec_windows_adjacent.
Qed.


Lemma skipping_failures_returned processBatch sourceName call :
  returned_by (skipping_failures processBatch) sourceName call
  = returned_by processBatch sourceName call.
Proof. unfold returned_by, skipping_failures. by destruct (processBatch _ _ _). Qed.


End ReconcilerFacts.

Lemma windows_are_adjacent_pairs_witness :
  GeminiService.truthy (Some "key") = true
  ∧ GeminiService.batches
      (Js.trace (GeminiService.parseQuestionsWithGemini (Some "key") Samples.oracle
                   (inr [10; 20; 30]) "paper.pdf"))
    = [([GeminiService.PagePart 10; GeminiService.PagePart 20], Some 1);
       ([GeminiService.PagePart 20; GeminiService.PagePart 30], Some 2)].
Proof.
  split; [reflexivity|].
  exact (proj1 (windows_are_adjacent_pairs (Some "key") Samples.oracle [10; 20; 30]
                  "paper.pdf" eq_refl)).
Defined.





Section CropperFacts.
Import Js ImageUtils.
Implicit Types (env : Browser) (base64Image : string) (box : BoxArg).

Lemma malformed_test ymin xmin ymax xmax :
  Qle_bool ymax ymin || Qle_bool xmax xmin = true ↔ (ymax <= ymin ∨ xmax <= xmin)%Q.
Proof. rewrite orb_true_iff, !Qle_bool_iff. done. Qed.

(** Whatever the browser does, [onload] inside its [try] resolves. *)
Lemma onload_caught env w h coords :
  ∃ v, result (try_catch (onload_body env w h coords)
                 (λ e, emit (ConsoleError "Cropping error:") >>- ret None)) = inr v.
Proof.
  unfold onload_body.
  destruct coords as [|ymin [|xmin [|ymax [|xmax [|? ?]]]]]; try (by eexists).
  destruct (Qle_bool ymax ymin || Qle_bool xmax xmin); [by eexists|].
  destruct (context2d env); [|by eexists].
  destruct (canvas_failure env); by eexists.
Qed.

(** C3.  On a box with [ymin >= ymax] or [xmin >= xmax], and on a source
    that fails to decode whatever the box, the cropper resolves to [null];
    and on every input and in every browser it resolves: its promise is
    never rejected. *)
Theorem crop_absent_and_never_rejected env base64Image :
  (∀ ymin xmin ymax xmax, (ymax <= ymin ∨ xmax <= xmin)%Q →
     result (cropImageFromBase64 env base64Image (BoxArray [ymin; xmin; ymax; xmax])) = inr None)
  ∧ (∀ box, decode env (image_src base64Image) = None →
       result (cropImageFromBase64 env base64Image box) = inr None)
  ∧ (∀ box, ∃ v, result (cropImageFromBase64 env base64Image box) = inr v).
Proof.
  split_and!.
  - intros ymin xmin ymax xmax Hbad%malformed_test.
    unfold cropImageFromBase64. cbn [box_rejected length Nat.eqb negb].
    destruct (decode env _) as [[w h]|]; [|done].
    unfold onload_body. rewrite Hbad. done.
  - intros box Hdec. unfold cropImageFromBase64.
    destruct (box_rejected box); [done|]. rewrite Hdec. done.
  - intros box. unfold cropImageFromBase64.
    destruct (box_rejected box); [by eexists|].
    destruct (decode env _) as [[w h]|]; [|by eexists].
    destruct (onload_caught env w h (match box with BoxArray coords => coords | _ => [] end))
      as [v Hv].
    exists v. revert Hv. unfold result, bind, emit.
    destruct (try_catch _ _) as [tr r]. done.
Qed.

(** C9.  A box that is [null], [undefined], no array, or an array whose
    length is not 4 makes the cropper resolve to [null] at once: nothing is
    loaded, nothing is written to the console. *)
Theorem crop_rejects_ill_formed_box env base64Image box :
  match box with BoxArray coords => length coords ≠ 4 | _ => True end →
  cropImageFromBase64 env base64Image box = ([], inr None).
Proof.
  intros Hbox. unfold cropImageFromBase64.
  assert (box_rejected box = true) as ->; [|done].
  destruct box as [| | |coords]; try done. cbn.
  apply negb_true_iff, Nat.eqb_neq. done.
Qed.

End CropperFacts.


Lemma crop_absent_and_never_rejected_witness :
  (300 <= 300 ∨ 400 <= 200)%Q
  ∧ Js.result (ImageUtils.cropImageFromBase64 Samples.browser "AAAA"
                 (ImageUtils.BoxArray [300; 200; 300; 400]%Q)) = inr None.
Proof.
  assert (H : (300 <= 300 ∨ 400 <= 200)%Q) by (left; apply Qle_refl).
  split; [exact H|].
  exact (proj1 (crop_absent_and_never_rejected Samples.browser "AAAA") _ _ _ _ H).
Defined.

Lemma crop_rejects_ill_formed_box_witness :
  length [300; 200; 300]%Q ≠ 4
  ∧ ImageUtils.cropImageFromBase64 Samples.browser "AAAA"
      (ImageUtils.BoxArray [300; 200; 300]%Q) = ([], inr None).
Proof.
  assert (H : length [300; 200; 300]%Q ≠ 4) by (cbn; lia).
  split; [exact H|].
  exact (crop_rejects_ill_formed_box Samples.browser "AAAA"
           (ImageUtils.BoxArray [300; 200; 300]%Q) H).
Defined.

(** C4.  On a raster of 10 by 10 pixels the box [0, 0, 950, 950] is 9.5
    pixels wide and high; with the padding the region to copy is 9.7
    pixels wide and high, and the canvas, whose size is a whole number of
    pixels, is 9 by 9: the image the cropper resolves to is narrower and
    lower than the unpadded box. *)
Theorem crop_is_smaller_than_the_box :
  let w := (ImageUtils.to_pixels 950 10 - ImageUtils.to_pixels 0 10)%Q in
  ∃ img,
    Js.result (ImageUtils.cropImageFromBase64 Samples.thumbnail_browser "AAAA"
                 (ImageUtils.BoxArray [0; 0; 950; 950]%Q)) = inr (Some img)
    ∧ (w == 95 # 10)%Q
    ∧ (ImageUtils.source_width img == 97 # 10)%Q ∧ (ImageUtils.source_height img == 97 # 10)%Q
    ∧ ImageUtils.canvas_width img = 9%Z ∧ ImageUtils.canvas_height img = 9%Z
    ∧ (inject_Z (ImageUtils.canvas_width img) < w)%Q
    ∧ (inject_Z (ImageUtils.canvas_height img) < w)%Q.
Proof. eexists. split; [reflexivity|]. by vm_compute. Qed.

Section SelectorFacts.
Import JsNumber ImageCropModal.

(** C6, as the code has it.  Confirming a selection whose rectangle is
    less than 10 pixels wide or high performs no crop and leaves the state,
    so both corners, as it was; with the canvas mounted the warning is
    shown, and without a canvas the handler returns at once and shows
    nothing. *)
Theorem small_selection_is_rejected (canvasRef : option Canvas) env st :
  ltb (rwidth (selection st)) (Fin 10) = true ∨ ltb (rheight (selection st)) (Fin 10) = true →
  let out := handleCropConfirm canvasRef env st in
  out.1 = st ∧ startPos out.1 = startPos st ∧ endPos out.1 = endPos st
  ∧ crops out.2 = []
  ∧ (is_Some canvasRef → alerts out.2 = ["Selection too small. Please select a larger area."])
  ∧ (canvasRef = None → out.2 = []).
Proof.
  intros Hsmall. apply orb_true_iff in Hsmall. fold (too_small (selection st)) in Hsmall.
  unfold handleCropConfirm. destruct canvasRef as [c|]; cbn zeta.
  - rewrite Hsmall. cbn. done.
  - cbn. split_and!; try done.
Qed.

(** C7.  On a canvas displayed with a non-zero size, whatever its native
    size and so whatever the scale on each axis, a pointer event at the
    top left corner of the displayed canvas is mapped to the native pixel
    (0, 0). *)
Theorem top_left_maps_to_origin (canvas : Canvas) :
  (¬ width (rect canvas) == 0)%Q → (¬ height (rect canvas) == 0)%Q →
  let p := getMousePos (Some canvas)
             (mkMouse (left (rect canvas)) (top (rect canvas))) in
  is_zero (x p) ∧ is_zero (y p).
Proof.
  intros Hw Hh. cbn [getMousePos x y clientX clientY]. unfold div.
  destruct (Qeq_bool (width (rect canvas)) 0) eqn:Ew.
  { exfalso. apply Hw. by apply Qeq_bool_eq. }
  destruct (Qeq_bool (height (rect canvas)) 0) eqn:Eh.
  { exfalso. apply Hh. by apply Qeq_bool_eq. }
  cbn. split; ring.
Qed.

(** Why the displayed size must not be zero: on a canvas with no width on
    the screen the same event has no [x] at all. *)
Example top_left_of_collapsed_canvas :
  x (getMousePos (Some Samples.collapsed_canvas) (mkMouse 10 20)) = NaN.
Proof. reflexivity. Qed.
End SelectorFacts.

(** C6 as stated fails without a canvas: a selection of 5 by 3 pixels is
    confirmed, and no warning is shown. *)
Lemma small_selection_without_canvas_is_silent :
  JsNumber.ltb (ImageCropModal.rwidth (ImageCropModal.selection Samples.small_selection))
    (JsNumber.Fin 10) = true
  ∧ ImageCropModal.alerts
      (ImageCropModal.handleCropConfirm None Samples.page_browser Samples.small_selection).2
    = [].
Proof. split; reflexivity. Qed.

Lemma small_selection_is_rejected_witness :
  (JsNumber.ltb (ImageCropModal.rwidth (ImageCropModal.selection Samples.small_selection))
     (JsNumber.Fin 10) = true
   ∨ JsNumber.ltb (ImageCropModal.rheight (ImageCropModal.selection Samples.small_selection))
       (JsNumber.Fin 10) = true)
  ∧ ImageCropModal.alerts
      (ImageCropModal.handleCropConfirm (Some Samples.canvas) Samples.page_browser
         Samples.small_selection).2
    = ["Selection too small. Please select a larger area."].
Proof.
  assert (H : JsNumber.ltb (ImageCropModal.rwidth (ImageCropModal.selection Samples.small_selection))
                (JsNumber.Fin 10) = true
              ∨ JsNumber.ltb (ImageCropModal.rheight (ImageCropModal.selection Samples.small_selection))
                  (JsNumber.Fin 10) = true)
    by (left; reflexivity).
  split; [exact H|].
  destruct (small_selection_is_rejected (Some Samples.canvas) Samples.page_browser
              Samples.small_selection H) as (_ & _ & _ & _ & Halert & _).
  apply Halert. exists Samples.canvas. reflexivity.
Defined.

Lemma top_left_maps_to_origin_witness :
  (¬ ImageCropModal.width (ImageCropModal.rect Samples.canvas) == 0)%Q
  ∧ (¬ ImageCropModal.height (ImageCropModal.rect Samples.canvas) == 0)%Q
  ∧ JsNumber.is_zero (ImageCropModal.x (ImageCropModal.getMousePos (Some Samples.canvas)
                                          (ImageCropModal.mkMouse 10 20)))
  ∧ JsNumber.is_zero (ImageCropModal.y (ImageCropModal.getMousePos (Some Samples.canvas)
                                          (ImageCropModal.mkMouse 10 20))).
Proof.
  assert (Hw : (¬ ImageCropModal.width (ImageCropModal.rect Samples.canvas) == 0)%Q)
    by (intros ?; discriminate).
  assert (Hh : (¬ ImageCropModal.height (ImageCropModal.rect Samples.canvas) == 0)%Q)
    by (intros ?; discriminate).
  split; [exact Hw|]. split; [exact Hh|].
  exact (top_left_maps_to_origin Samples.canvas Hw Hh).
Defined.

Section ExportFacts.
Import Types ExportService.
Implicit Types (questions : list Question) (st : Run) (jobs : list Job).

Lemma totalImages_sum questions : totalImages questions = sum_list_with images_of questions.
Proof.
  unfold totalImages.
  assert (∀ a, foldl (λ count q, count + ((if is_data_url (image q) then 1 else 0) + option_images q))
                 a questions = a + sum_list_with images_of questions) as ->; [|done].
  induction questions as [|q qs IH]; intros a; cbn; [lia|].
  rewrite IH. unfold images_of. lia.
Qed.

Lemma option_jobs_length qIndex optIndex opts :
  length (option_jobs qIndex optIndex opts)
  = length (filter (λ opt, is_data_url (opt_image opt)) opts).
Proof.
  revert optIndex. induction opts as [|opt opts IH]; intros optIndex; [done|].
  cbn [option_jobs]. rewrite length_app, IH.
  destruct (is_data_url (opt_image opt)) eqn:Hd.
  - rewrite filter_cons_True by (by apply Is_true_true). done.
  - rewrite filter_cons_False by (by apply Is_true_false). done.
Qed.

Lemma option_jobs_pending questions qIndex optIndex opts :
  pending questions (option_jobs qIndex optIndex opts)
  = length (option_jobs qIndex optIndex opts).
Proof.
  revert optIndex. induction opts as [|opt opts IH]; intros optIndex; cbn; [done|].
  unfold pending in *. rewrite sum_list_with_app, length_app, IH.
  by destruct (is_data_url (opt_image opt)).
Qed.

Lemma first_jobs_pending questions before rest :
  questions = before ++ rest →
  pending questions (first_jobs (length before) rest) = sum_list_with images_of rest.
Proof.
  revert before. induction rest as [|q rest IH]; intros before Hq; [done|].
  cbn [first_jobs sum_list_with]. unfold pending in *. rewrite sum_list_with_app.
  specialize (IH (before ++ [q])). rewrite length_app in IH. cbn in IH.
  replace (length before + 1) with (S (length before)) in IH by lia.
  rewrite IH by (by rewrite <- app_assoc).
  f_equal. unfold images_of, option_images.
  destruct (is_data_url (image q)).
  - cbn. unfold weight, resumed.
    rewrite Hq, list_lookup_middle by done. rewrite option_jobs_length. lia.
  - fold (pending questions (option_jobs (length before) 0 (options q))).
    rewrite option_jobs_pending, option_jobs_length. done.
Qed.

Lemma pending_pick questions jobs i job :
  jobs !! i = Some job →
  pending questions jobs = weight questions job + pending questions (delete i jobs).
Proof.
  intros Hi. rewrite <- (take_drop_middle jobs i job Hi) at 1.
  rewrite delete_take_drop. unfold pending. rewrite !sum_list_with_app. cbn. lia.
Qed.

Lemma pending_resumed questions job :
  pending questions (resumed questions job) = length (resumed questions job).
Proof.
  destruct job as [qIndex|qIndex optIndex]; cbn; [|done].
  destruct (questions !! qIndex); [|done]. apply option_jobs_pending.
Qed.

Lemma counting_S n total : counting (S n) total = counting n total ++ [(S n, total)].
Proof. unfold counting. rewrite seq_S, fmap_app. done. Qed.

(** One step of the event loop keeps the calls of the callback in step
    with the counter, and never lets more calls be pending than remain. *)
Lemma settle_invariant questions total st step :
  progress st = counting (uploadCount st) total →
  let st' := settle questions true total st step in
  progress st' = counting (uploadCount st') total
  ∧ uploadCount st' + pending questions (inflight st')
    ≤ uploadCount st + pending questions (inflight st)
  ∧ (step.2 = Uploaded →
     uploadCount st' + pending questions (inflight st')
     = uploadCount st + pending questions (inflight st)).
Proof.
  intros Hprog. unfold settle. destruct (inflight st !! step.1) as [job|] eqn:Hjob; [|done].
  rewrite (pending_pick _ _ _ _ Hjob). unfold weight.
  destruct (step.2); cbn [uploadCount progress inflight].
  - rewrite counting_S, Hprog. unfold pending. rewrite sum_list_with_app.
    fold (pending questions (resumed questions job)). rewrite pending_resumed.
    fold (pending questions (delete step.1 (inflight st))). split_and!; [done|lia|lia].
  - split_and!; [done|lia|done].
Qed.

Lemma schedule_invariant questions total schedule st :
  progress st = counting (uploadCount st) total →
  let st' := foldl (settle questions true total) st schedule in
  progress st' = counting (uploadCount st') total
  ∧ uploadCount st' + pending questions (inflight st')
    ≤ uploadCount st + pending questions (inflight st)
  ∧ (Forall (λ step, step.2 = Uploaded) schedule →
     uploadCount st' + pending questions (inflight st')
     = uploadCount st + pending questions (inflight st)).
Proof.
  revert st. induction schedule as [|step schedule IH]; intros st Hprog; cbn; [done|].
  destruct (settle_invariant questions total st step Hprog) as (Hp & Hle & Heq).
  destruct (IH _ Hp) as (Hp' & Hle' & Heq'). cbn in Hp', Hle', Heq'.
  split_and!; [done|lia|].
  intros [Hstep Hrest]%Forall_cons. specialize (Heq Hstep). specialize (Heq' Hrest). lia.
Qed.

Lemma pending_zero questions jobs : pending questions jobs = 0 → jobs = [].
Proof. destruct jobs as [|job jobs]; [done|]. unfold pending, weight. cbn. lia. Qed.

Lemma in_order_completes questions total n st :
  pending questions (inflight st) = n →
  inflight (foldl (settle questions true total) st (in_order n)) = [].
Proof.
  revert st. induction n as [|n IH]; intros st Hn; cbn.
  - by apply (pending_zero questions).
  - apply IH. unfold settle. cbn [fst snd].
    destruct (inflight st) as [|job jobs] eqn:Hjobs; [done|]. cbn.
    unfold pending in *. rewrite sum_list_with_app. cbn [sum_list_with] in Hn.
    fold (pending questions (resumed questions job)). rewrite pending_resumed.
    unfold weight at 1 in Hn. lia.
Qed.

(** C8, as the code has it.  Under every schedule of the uploads, whether
    they succeed or fail, the k-th call of the callback has [current = k]
    and [total = T], the number of data-URL images counted up front, and
    there are at most [T] calls.  When every upload succeeds and none is
    left in flight there are exactly [T] calls, with [current] going from 1
    to [T]; settling the uploads one after the other is such a run. *)
Theorem progress_counts_uploads questions schedule :
  let T := totalImages questions in
  let st := uploadImagesToFirebaseAndCreateJSON questions true schedule in
  progress st = counting (uploadCount st) T
  ∧ uploadCount st ≤ T
  ∧ (Forall (λ step, step.2 = Uploaded) schedule → inflight st = [] →
     progress st = counting T T)
  ∧ (let st' := uploadImagesToFirebaseAndCreateJSON questions true (in_order T) in
     inflight st' = [] ∧ progress st' = counting T T).
Proof.
  intros T st.
  assert (Hstart : pending questions (first_jobs 0 questions) = T).
  { subst T. rewrite totalImages_sum. by apply (first_jobs_pending questions []). }
  assert (Hrun : ∀ schedule',
    let st' := uploadImagesToFirebaseAndCreateJSON questions true schedule' in
    progress st' = counting (uploadCount st') T
    ∧ uploadCount st' + pending questions (inflight st') ≤ T
    ∧ (Forall (λ step, step.2 = Uploaded) schedule' →
       uploadCount st' + pending questions (inflight st') = T)).
  { intros schedule'. unfold uploadImagesToFirebaseAndCreateJSON. fold T.
    destruct (schedule_invariant questions T schedule'
                (mkRun 0 [] (first_jobs 0 questions) false) eq_refl) as (Hp & Hle & Heq).
    cbn [uploadCount inflight Nat.add] in Hle, Heq. rewrite Hstart in Hle, Heq. done. }
  destruct (Hrun schedule) as (Hp & Hle & Heq). fold st in Hp, Hle, Heq.
  split_and!; [done|lia| |].
  - intros Hall Hdone. specialize (Heq Hall). rewrite Hdone in Heq. cbn in Heq.
    rewrite Hp. f_equal. lia.
  - destruct (Hrun (in_order T)) as (Hp' & _ & Heq').
    assert (Hdone : inflight (uploadImagesToFirebaseAndCreateJSON questions true (in_order T)) = []).
    { unfold uploadImagesToFirebaseAndCreateJSON. fold T. by apply in_order_completes. }
    split; [done|]. rewrite Hp'. f_equal.
    rewrite Hdone in Heq'. cbn in Heq'. symmetry. rewrite <- Heq' at 1; [lia|].
    unfold in_order. by apply Forall_replicate.
Qed.
End ExportFacts.

(** C8 as stated fails when an upload fails: one image is counted, its
    upload fails, the run is over and the callback was never called. *)
Lemma failed_upload_reports_no_progress :
  ExportService.totalImages Samples.one_image = 1
  ∧ ExportService.inflight
      (ExportService.uploadImagesToFirebaseAndCreateJSON Samples.one_image true
         [(0, ExportService.Failed)]) = []
  ∧ ExportService.progress
      (ExportService.uploadImagesToFirebaseAndCreateJSON Samples.one_image true
         [(0, ExportService.Failed)]) = [].
Proof. repeat split. Qed.

Lemma progress_counts_uploads_witness :
  Forall (λ step, step.2 = ExportService.Uploaded)
    [(1, ExportService.Uploaded); (0, ExportService.Uploaded);
     (1, ExportService.Uploaded); (0, ExportService.Uploaded)]
  ∧ ExportService.progress
      (ExportService.uploadImagesToFirebaseAndCreateJSON Samples.export_questions true
         [(1, ExportService.Uploaded); (0, ExportService.Uploaded);
          (1, ExportService.Uploaded); (0, ExportService.Uploaded)])
    = [(1, 4); (2, 4); (3, 4); (4, 4)].
Proof.
  assert (H : Forall (λ step : nat * ExportService.Outcome, step.2 = ExportService.Uploaded)
                [(1, ExportService.Uploaded); (0, ExportService.Uploaded);
                 (1, ExportService.Uploaded); (0, ExportService.Uploaded)])
    by (repeat constructor).
  split; [exact H|].
  exact (proj1 (proj2 (proj2 (progress_counts_uploads Samples.export_questions _))) H eq_refl).
Defined.

Section QuestionCardFacts.
Import Types QuestionCard.
Implicit Types (store : Store) (arr : list (option loc)) (l : loc).

(** The [forEach] leaves an object as it was, or clears its mark. *)
Lemma clear_others_either optIndex arr i store l :
  clear_others optIndex i arr store !! l = store !! l
  ∨ clear_others optIndex i arr store !! l = clear_correct <$> store !! l.
Proof.
  revert i store. induction arr as [|slot arr IH]; intros i store; [by left|].
  cbn [clear_others].
  destruct slot as [l'|]; [destruct (decide (i = optIndex))|]; try apply IH.
  destruct (IH (S i) (alter clear_correct l' store)) as [->| ->];
    (destruct (decide (l' = l)) as [->|Hl];
     [rewrite lookup_alter_eq; right; by destruct (store !! l)
     |rewrite lookup_alter_ne by done; by eauto]).
Qed.

(** An object that stands in no slot other than [optIndex] is left as it
    was. *)
Lemma clear_others_untouched optIndex arr i store l :
  (∀ j, arr !! j = Some (Some l) → i + j = optIndex) →
  clear_others optIndex i arr store !! l = store !! l.
Proof.
  revert i store. induction arr as [|slot arr IH]; intros i store Hnot; [done|].
  cbn [clear_others].
  assert (Hrest : ∀ j, arr !! j = Some (Some l) → S i + j = optIndex).
  { intros j Hj. specialize (Hnot (S j) Hj). lia. }
  rewrite IH by done.
  destruct slot as [l'|]; [|done]. case_decide; [done|].
  destruct (decide (l' = l)) as [->|Hl].
  - specialize (Hnot 0 eq_refl). lia.
  - by rewrite lookup_alter_ne.
Qed.

(** An object that stands in a slot other than [optIndex] has its mark
    cleared. *)
Lemma clear_others_touched optIndex arr i store l j :
  arr !! j = Some (Some l) → i + j ≠ optIndex →
  clear_others optIndex i arr store !! l = clear_correct <$> store !! l.
Proof.
  revert i j store. induction arr as [|slot arr IH]; intros i j store Hj Hne; [done|].
  cbn [clear_others].
  destruct j as [|j].
  - cbn in Hj. injection Hj as ->. rewrite decide_False by lia.
    destruct (clear_others_either optIndex arr (S i) (alter clear_correct l store) l) as [->| ->];
      rewrite lookup_alter_eq; by destruct (store !! l).
  - cbn in Hj. rewrite (IH (S i) j) by (done || lia).
    destruct slot as [l'|]; [|done]. case_decide; [done|].
    destruct (decide (l' = l)) as [->|Hl].
    + rewrite lookup_alter_eq. by destruct (store !! l).
    + by rewrite lookup_alter_ne.
Qed.

Lemma array_set_lookup {A} (arr : list (option A)) i v :
  array_set arr i v !! i = Some (Some v).
Proof.
  unfold array_set. case_decide.
  - by apply list_lookup_insert_eq.
  - rewrite lookup_app_r by lia. rewrite lookup_app_r by (rewrite length_replicate; lia).
    rewrite length_replicate. by replace (i - length arr - (i - length arr)) with 0 by lia.
Qed.

Lemma array_set_lookup_ne {A} (arr : list (option A)) i j v x :
  j ≠ i → array_set arr i v !! j = Some (Some x) → arr !! j = Some (Some x).
Proof.
  intros Hne. unfold array_set. case_decide.
  - by rewrite list_lookup_insert_ne.
  - intros Hj. destruct (decide (j < length arr)).
    + by rewrite lookup_app_l in Hj.
    + rewrite lookup_app_r in Hj by lia.
      destruct (decide (j - length arr < i - length arr)).
      * rewrite lookup_app_l in Hj by (rewrite length_replicate; lia).
        apply lookup_replicate in Hj as [? _]. done.
      * rewrite lookup_app_r in Hj by (rewrite length_replicate; lia).
        rewrite length_replicate in Hj.
        destruct (j - length arr - (i - length arr)) as [|k] eqn:Hk; [lia|]. done.
Qed.

Lemma array_set_length {A} (arr : list (option A)) i v :
  i < length arr → length (array_set arr i v) = length arr.
Proof. intros. unfold array_set. rewrite decide_True by done. apply length_insert. Qed.

(** When every slot but one fails a test, at most one slot passes. *)
Lemma filter_at_most_one {A} (P : A → bool) (arr : list A) (i : nat) :
  (∀ j x, j ≠ i → arr !! j = Some x → P x = false) →
  length (filter P arr) ≤ 1.
Proof.
  revert i. induction arr as [|x arr IH]; intros i Hall; [cbn; lia|].
  destruct i as [|i].
  - assert (filter P arr = []) as Hnil.
    { clear IH. induction arr as [|y arr IH]; [done|].
      rewrite filter_cons_False.
      - apply IH. intros [|j] z Hj Hz; [done|]. apply (Hall (S (S j)) z); [lia|done].
      - apply Is_true_false. apply (Hall 1); [lia|done]. }
    destruct (P x) eqn:Hx.
    + rewrite filter_cons_True by (by apply Is_true_true). rewrite Hnil. cbn. lia.
    + rewrite filter_cons_False by (by apply Is_true_false). rewrite Hnil. cbn. lia.
  - rewrite filter_cons_False by (apply Is_true_false; by apply (Hall 0)).
    apply (IH i). intros j y Hj Hy. apply (Hall (S j)); [lia|done].
Qed.
Lemma fresh_not_allocated store o : store !! fresh (dom store) = Some o → False.
Proof.
  intros Ho. apply (is_fresh (dom store)). apply elem_of_dom. by eexists.
Qed.

(** C10.  Setting [isCorrect] to [true] on an option of an [mcq] question
    clears the mark of every other option of the question, so at most one
    option is marked correct afterwards, the chosen one; on an [msq] or
    [numerical] question no option object is written to: the mark of every
    other option stays as it was. *)
Theorem mcq_keeps_a_single_correct_option store (question : QuestionOf loc) optIndex :
  let out := handleOptionChange store question optIndex (SetIsCorrect true) in
  (type question = mcq →
     (∀ j l o, j ≠ optIndex → options out.2 !! j = Some (Some l) → out.1 !! l = Some o →
        opt_isCorrect o = Some false)
     ∧ length (filter (marked_correct out.1) (options out.2)) ≤ 1
     ∧ (optIndex < length (options question) →
        Forall (λ l, is_Some (store !! l)) (options question) →
        length (options out.2) = length (options question)
        ∧ marked_correct out.1 <$> options out.2 !! optIndex = Some true))
  ∧ (type question ≠ mcq →
     (∀ l o, store !! l = Some o → out.1 !! l = Some o)
     ∧ (∀ j l, j ≠ optIndex → options question !! j = Some l →
          options out.2 !! j = Some (Some l))).
Proof.
  intros out. subst out. split.
  - intros Hmcq. unfold handleOptionChange. rewrite Hmcq. cbn [clears fst snd with_options options].
    set (l0 := fresh (dom store)).
    set (old := default empty_object (options question !! optIndex ≫= (store !!.))).
    set (arr := array_set (Some <$> options question) optIndex l0).
    set (store1 := <[l0 := assign old (SetIsCorrect true)]> store).
    assert (Hothers : ∀ j l o, j ≠ optIndex → arr !! j = Some (Some l) →
              clear_others optIndex 0 arr store1 !! l = Some o → opt_isCorrect o = Some false).
    { intros j l o Hj Hl Ho. rewrite (clear_others_touched _ _ _ _ _ j) in Ho by (done || lia).
      destruct (store1 !! l); [|done]. by injection Ho as <-. }
    split_and!; [done| |].
    + apply (filter_at_most_one _ _ optIndex). intros j [l|] Hj Hl; [|done].
      unfold marked_correct. cbn.
      destruct (clear_others optIndex 0 arr store1 !! l) as [o|] eqn:Ho; [|done].
      rewrite (Hothers j l o Hj Hl Ho). done.
    + intros Hrange Halloc. split.
      * subst arr. rewrite array_set_length by (by rewrite length_fmap). by rewrite length_fmap.
      * subst arr. rewrite array_set_lookup. cbn. f_equal. unfold marked_correct. cbn.
        rewrite clear_others_untouched.
        -- subst store1. by rewrite lookup_insert_eq.
        -- intros j Hj. destruct (decide (j = optIndex)) as [|Hne]; [done|]. exfalso.
           apply array_set_lookup_ne in Hj; [|done].
           apply list_lookup_fmap_Some in Hj as (l & [= <-] & Hl).
           rewrite Forall_lookup in Halloc. destruct (Halloc j _ Hl) as [o Ho].
           by apply (fresh_not_allocated store o).
  - intros Hty. unfold handleOptionChange.
    assert (clears (SetIsCorrect true) (type question) = false) as ->.
    { by destruct (type question). }
    cbn [fst snd with_options options]. split.
    + intros l o Ho. rewrite lookup_insert_ne; [done|].
      intros <-. by apply (fresh_not_allocated store o).
    + intros j l Hj Hl. unfold array_set. case_decide as Hlen.
      * rewrite list_lookup_insert_ne by done. by rewrite list_lookup_fmap, Hl.
      * rewrite lookup_app_l by (rewrite length_fmap; by eapply lookup_lt_Some).
        by rewrite list_lookup_fmap, Hl.
Qed.
End QuestionCardFacts.

Lemma mcq_keeps_a_single_correct_option_witness :
  Types.type Samples.card_question = Types.mcq
  ∧ length (filter
              (QuestionCard.marked_correct
                 (QuestionCard.handleOptionChange Samples.store Samples.card_question 2
                    (QuestionCard.SetIsCorrect true)).1)
              (Types.options
                 (QuestionCard.handleOptionChange Samples.store Samples.card_question 2
                    (QuestionCard.SetIsCorrect true)).2)) ≤ 1.
Proof.
  split; [reflexivity|].
  exact (proj1 (proj2 (proj1 (mcq_keeps_a_single_correct_option Samples.store
                                Samples.card_question 2) eq_refl))).
Defined.


Section SelectorLifecycle.
Import JsNumber ImageCropModal.
Implicit Types (canvasRef : option Canvas) (st : State) (e : MouseEvent).

Lemma last_cons_any {A} (l : list A) a d d' : List.last (a :: l) d = List.last (a :: l) d'.
Proof. revert a. induction l as [|b l IH]; intros a; [done|]. apply (IH b). Qed.

Lemma last_cons_default {A} (l : list A) a d : List.last (a :: l) d = List.last l a.
Proof. destruct l as [|b l]; [done|]. apply (last_cons_any l b). Qed.

Lemma moves_while_selecting canvasRef events st :
  isSelecting st = true →
  isSelecting (moves canvasRef events st) = true
  ∧ startPos (moves canvasRef events st) = startPos st
  ∧ endPos (moves canvasRef events st)
    = List.last (getMousePos canvasRef <$> events) (endPos st)
  ∧ pdfPages (moves canvasRef events st) = pdfPages st
  ∧ currentPage (moves canvasRef events st) = currentPage st
  ∧ isLoading (moves canvasRef events st) = isLoading st.
Proof.
  revert st. induction events as [|e events IH]; intros st Hsel; [done|].
  assert (Hstep : moves canvasRef (e :: events) st
                  = moves canvasRef events (setEndPos (getMousePos canvasRef e) st)).
  { unfold moves. cbn [foldl]. unfold handleMouseMove at 2. by rewrite Hsel. }
  rewrite Hstep.
  destruct (IH (setEndPos (getMousePos canvasRef e) st) Hsel) as (H1 & H2 & H3 & H4 & H5 & H6).
  split_and!; [done|done| |done|done|done].
  rewrite H3. cbn [endPos setEndPos]. rewrite fmap_cons. by rewrite last_cons_default.
Qed.

Lemma moves_while_idle canvasRef events st :
  isSelecting st = false → moves canvasRef events st = st.
Proof.
  intros Hidle. induction events as [|e events IH]; [done|].
  unfold moves in *. cbn [foldl]. unfold handleMouseMove at 2. by rewrite Hidle.
Qed.

Lemma last_fmap_default {A B} (f : A → B) (l : list A) (a : A) :
  List.last (f <$> l) (f a) = f (List.last l a).
Proof.
  revert a. induction l as [|b l IH]; intros a; [done|].
  rewrite fmap_cons, !last_cons_default. apply IH.
Qed.

(** The corners a drag leaves in the state. *)
Lemma drag_corners canvasRef e events st :
  startPos (drag canvasRef e events st) = getMousePos canvasRef e
  ∧ endPos (drag canvasRef e events st) = getMousePos canvasRef (List.last events e)
  ∧ pdfPages (drag canvasRef e events st) = pdfPages st
  ∧ currentPage (drag canvasRef e events st) = currentPage st.
Proof.
  unfold drag.
  destruct (moves_while_selecting canvasRef events (handleMouseDown canvasRef e st) eq_refl)
    as (H1 & H2 & H3 & H4 & H5 & H6).
  cbn [handleMouseUp setIsSelecting startPos endPos pdfPages currentPage].
  split_and!; [done| |done|done].
  rewrite H3. cbn [handleMouseDown setIsSelecting setEndPos endPos].
  apply last_fmap_default.
Qed.

(** X1.  A drag stores the point where the pointer went down as one
    corner and the point of the last move (the same point when the pointer
    did not move) as the other, ends the selecting mode, and touches nothing
    else; moves after the release are ignored. *)
Theorem drag_stores_both_corners canvasRef e events later st :
  startPos (drag canvasRef e events st) = getMousePos canvasRef e
  ∧ endPos (drag canvasRef e events st) = getMousePos canvasRef (List.last events e)
  ∧ isSelecting (drag canvasRef e events st) = false
  ∧ pdfPages (drag canvasRef e events st) = pdfPages st
  ∧ currentPage (drag canvasRef e events st) = currentPage st
  ∧ isLoading (drag canvasRef e events st) = isLoading st
  ∧ moves canvasRef later (drag canvasRef e events st) = drag canvasRef e events st.
Proof.
  destruct (drag_corners canvasRef e events st) as (Hs & He & Hp & Hc).
  split_and!; try done.
  - unfold drag.
    destruct (moves_while_selecting canvasRef events (handleMouseDown canvasRef e st) eq_refl)
      as (_ & _ & _ & _ & _ & H6).
    cbn [handleMouseUp setIsSelecting isLoading]. by rewrite H6.
  - by apply moves_while_idle.
Qed.

Lemma getMousePos_finite (canvas : Canvas) e :
  (¬ width (rect canvas) == 0)%Q → (¬ height (rect canvas) == 0)%Q →
  getMousePos (Some canvas) e
  = mkPoint (Fin ((clientX e - left (rect canvas))
                  * (native_width canvas / width (rect canvas))))
            (Fin ((clientY e - top (rect canvas))
                  * (native_height canvas / height (rect canvas)))).
Proof.
  intros Hw Hh. unfold getMousePos, div.
  destruct (Qeq_bool (width (rect canvas)) 0) eqn:Ew.
  { exfalso. apply Hw. by apply Qeq_bool_eq. }
  destruct (Qeq_bool (height (rect canvas)) 0) eqn:Eh.
  { exfalso. apply Hh. by apply Qeq_bool_eq. }
  done.
Qed.

(** X2.  On a canvas displayed with a positive size the pointer is mapped
    to a finite point, and the mapping keeps the order along both axes: a
    pointer at or right of the left edge of the display is mapped at or
    right of the left edge of the raster, a pointer at or below the top
    edge at or below the top edge, and of two pointers the one further
    right (further down) is never mapped further left (further up). *)
Theorem pointer_order_is_kept (canvas : Canvas) e e' :
  (0 < width (rect canvas))%Q → (0 < height (rect canvas))%Q →
  (0 <= native_width canvas)%Q → (0 <= native_height canvas)%Q →
  ∃ px py px' py',
    getMousePos (Some canvas) e = mkPoint (Fin px) (Fin py)
    ∧ getMousePos (Some canvas) e' = mkPoint (Fin px') (Fin py')
    ∧ (left (rect canvas) <= clientX e → 0 <= px)%Q
    ∧ (top (rect canvas) <= clientY e → 0 <= py)%Q
    ∧ (clientX e <= clientX e' → px <= px')%Q
    ∧ (clientY e <= clientY e' → py <= py')%Q.
Proof.
  intros Hw Hh Hnw Hnh.
  rewrite !getMousePos_finite by (intros H0; rewrite H0 in *; by apply (Qlt_irrefl 0)).
  eexists _, _, _, _. split; [done|]. split; [done|].
  assert (Hscale : ∀ d n : Q, (0 < d → 0 <= n → 0 <= n / d)%Q).
  { intros d n Hd Hn. apply Qle_shift_div_l; lra. }
  pose proof (Hscale _ _ Hw Hnw) as Hsx. pose proof (Hscale _ _ Hh Hnh) as Hsy.
  split_and!.
  - intros Hx. apply Qmult_le_0_compat; [lra|done].
  - intros Hy. apply Qmult_le_0_compat; [lra|done].
  - intros Hx. apply Qmult_le_compat_r; [lra|done].
  - intros Hy. apply Qmult_le_compat_r; [lra|done].
Qed.

Lemma Qltb_spec a b : Qltb a b = true ↔ (a < b)%Q.
Proof.
  unfold Qltb. rewrite negb_true_iff, <- not_true_iff_false, Qle_bool_iff.
  split; [apply Qnot_le_lt | apply Qlt_not_le].
Qed.

Lemma min_finite a c : ∃ m, min (Fin a) (Fin c) = Fin m ∧ (m == Qmin a c)%Q.
Proof.
  unfold min, ltb. destruct (Qltb c a) eqn:Hlt.
  - exists c. split; [done|]. apply Qltb_spec in Hlt. symmetry. apply Q.min_r. lra.
  - exists a. split; [done|]. symmetry. apply Q.min_l.
    apply Qnot_lt_le. intros Hca%Qltb_spec. congruence.
Qed.

Lemma Qabs_zero_iff (q : Q) : (Qabs q == 0 ↔ q == 0)%Q.
Proof.
  split; [|by intros ->].
  intros Hz. destruct (Qlt_le_dec q 0) as [Hneg|Hpos].
  - rewrite Qabs_neg in Hz by lra. lra.
  - rewrite Qabs_pos in Hz by lra. done.
Qed.

Lemma selection_finite st a b c d :
  startPos st = mkPoint (Fin a) (Fin b) → endPos st = mkPoint (Fin c) (Fin d) →
  ∃ sx sy, selection st = mkRectangle (Fin sx) (Fin sy) (Fin (Qabs (c - a))) (Fin (Qabs (d - b)))
    ∧ (sx == Qmin a c)%Q ∧ (sy == Qmin b d)%Q.
Proof.
  intros Hs He. unfold selection. rewrite Hs, He. cbn [x y].
  destruct (min_finite a c) as (mx & -> & Hmx). destruct (min_finite b d) as (my & -> & Hmy).
  by exists mx, my.
Qed.

(** X3.  When both corners are finite the selection does not depend on
    the way the pointer was dragged: it starts at the smaller of the two
    coordinates along each axis, its width and its height are not
    negative and are zero exactly where the corners agree along the axis,
    and it is too small exactly when its width or its height is below
    10. *)
Theorem selection_starts_at_the_smaller_corner st a b c d :
  startPos st = mkPoint (Fin a) (Fin b) → endPos st = mkPoint (Fin c) (Fin d) →
  ∃ sx sy sw sh, selection st = mkRectangle (Fin sx) (Fin sy) (Fin sw) (Fin sh)
    ∧ (sx == Qmin a c ∧ 0 <= sw ∧ (sw == 0 ↔ a == c))%Q
    ∧ (sy == Qmin b d ∧ 0 <= sh ∧ (sh == 0 ↔ b == d))%Q
    ∧ (too_small (selection st) = true ↔ (sw < 10 ∨ sh < 10)%Q).
Proof.
  intros Hs He.
  destruct (selection_finite st a b c d Hs He) as (mx & my & Hsel & Hmx & Hmy).
  exists mx, my, (Qabs (c - a)), (Qabs (d - b)). split; [done|].
  split; [|split].
  - split; [done|]. split; [apply Qabs_nonneg|]. rewrite Qabs_zero_iff. split; intros H; lra.
  - split; [done|]. split; [apply Qabs_nonneg|]. rewrite Qabs_zero_iff. split; intros H; lra.
  - rewrite Hsel. unfold too_small. cbn [rwidth rheight ltb].
    by rewrite orb_true_iff, !Qltb_spec.
Qed.

Lemma degenerate_is_too_small st env (canvas : Canvas) q r :
  startPos st = mkPoint (Fin q) (Fin r) → endPos st = mkPoint (Fin q) (Fin r) →
  confirm_disabled st = true
  ∧ handleCropConfirm (Some canvas) env st
    = (st, [Alert "Selection too small. Please select a larger area."]).
Proof.
  intros Hs He. split.
  - unfold confirm_disabled. rewrite Hs, He. cbn [x y eqb].
    rewrite (proj2 (Qeq_bool_iff q q)) by reflexivity. done.
  - unfold handleCropConfirm, too_small, selection. rewrite Hs, He.
    cbn [x y rwidth rheight sub abs ltb].
    assert (Qltb (Qabs (q - q)) 10 = true) as ->; [|done].
    apply Qltb_spec. assert (Hz : (q - q == 0)%Q) by ring. rewrite Hz. done.
Qed.

(** X4.  A click without a drag, and a change of page, leave nothing to
    crop: the button that confirms is disabled, and if the handler runs
    all the same it shows the warning and crops nothing.  For the click the
    canvas is displayed with a width and a height that are not zero. *)
Theorem click_or_page_change_selects_nothing (canvas : Canvas) env e n st :
  (¬ width (rect canvas) == 0)%Q → (¬ height (rect canvas) == 0)%Q →
  (confirm_disabled (handlePageChange n st) = true
   ∧ handleCropConfirm (Some canvas) env (handlePageChange n st)
     = (handlePageChange n st, [Alert "Selection too small. Please select a larger area."]))
  ∧ (confirm_disabled (drag (Some canvas) e [] st) = true
     ∧ handleCropConfirm (Some canvas) env (drag (Some canvas) e [] st)
       = (drag (Some canvas) e [] st,
          [Alert "Selection too small. Please select a larger area."])).
Proof.
  intros Hw Hh. split.
  - by apply (degenerate_is_too_small _ _ _ 0 0).
  - destruct (drag_corners (Some canvas) e [] st) as (Hs & He & _).
    cbn [List.last] in He. rewrite (getMousePos_finite canvas e Hw Hh) in Hs, He.
    by eapply degenerate_is_too_small.
Qed.

End SelectorLifecycle.

Lemma pointer_order_is_kept_witness :
  ∃ px px',
    ImageCropModal.x (ImageCropModal.getMousePos (Some Samples.canvas)
                        (ImageCropModal.mkMouse 310 220)) = JsNumber.Fin px
    ∧ ImageCropModal.x (ImageCropModal.getMousePos (Some Samples.canvas)
                          (ImageCropModal.mkMouse 610 220)) = JsNumber.Fin px'
    ∧ (0 <= px)%Q ∧ (px <= px')%Q.
Proof.
  destruct (pointer_order_is_kept Samples.canvas (ImageCropModal.mkMouse 310 220)
              (ImageCropModal.mkMouse 610 220))
    as (px & py & px' & py' & Hpos & Hpos' & Hx & _ & Hxx & _); try done.
  exists px, px'. rewrite Hpos, Hpos'. split; [done|]. split; [done|].
  split; [apply Hx | apply Hxx]; discriminate.
Defined.

Lemma selection_starts_at_the_smaller_corner_witness :
  ∃ sx sy sw sh,
    ImageCropModal.selection Samples.small_selection
    = ImageCropModal.mkRectangle (JsNumber.Fin sx) (JsNumber.Fin sy) (JsNumber.Fin sw)
        (JsNumber.Fin sh)
    ∧ (sx == 100)%Q ∧ (sy == 100)%Q
    ∧ ImageCropModal.too_small (ImageCropModal.selection Samples.small_selection) = true.
Proof.
  destruct (selection_starts_at_the_smaller_corner Samples.small_selection 100 100 105 103
              eq_refl eq_refl)
    as (sx & sy & sw & sh & Hsel & (Hx & _) & (Hy & _) & _).
  exists sx, sy, sw, sh. split; [exact Hsel|]. split; [exact Hx|]. split; [exact Hy|].
  reflexivity.
Defined.

Lemma click_or_page_change_selects_nothing_witness :
  ImageCropModal.confirm_disabled
    (ImageCropModal.drag (Some Samples.canvas) (ImageCropModal.mkMouse 300 200) []
       Samples.small_selection) = true.
Proof.
  apply (click_or_page_change_selects_nothing Samples.canvas Samples.page_browser
           (ImageCropModal.mkMouse 300 200) 0 Samples.small_selection);
    intros ?; discriminate.
Defined.

Section MonadFacts.
Import Js.
Context {E : Type}.

Lemma trace_bind {A B} (m : M E A) (k : A → M E B) :
  trace (bind m k)
  = trace m ++ match result m with inr a => trace (k a) | inl _ => [] end.
Proof.
  destruct m as [tr [e|a]]; cbn; [by rewrite app_nil_r|]. by destruct (k a).
Qed.

Lemma result_bind {A B} (m : M E A) (k : A → M E B) :
  result (bind m k) = match result m with inr a => result (k a) | inl e => inl e end.
Proof. destruct m as [tr [e|a]]; cbn; [done|]. by destruct (k a). Qed.

End MonadFacts.

Section OracleClientFacts.
Import Types Js OracleClient.
Context {PDFPageImage : Type}.
Variable inlineData : PDFPageImage → option string.
Variable generateContent : list (@GeminiService.Part PDFPageImage) → option nat → Error + string.
Variable JSON_parse : string → Error + Questions.
Variable browser : ImageUtils.Browser.
Variable toDataURL : ImageUtils.CroppedImage → string.

Local Abbreviation processBatch := (processBatch inlineData generateContent JSON_parse browser toDataURL).
Local Abbreviation cropped := (cropped browser toDataURL).
Local Abbreviation process_question := (process_question browser toDataURL).
Local Abbreviation process_questions := (process_questions browser toDataURL).
Local Abbreviation optionsWithCrops := (optionsWithCrops browser toDataURL).
Local Abbreviation option_with_crop := (option_with_crop browser toDataURL).

Lemma crop_resolves d box :
  ∃ v, result (ImageUtils.cropImageFromBase64 browser d box) = inr v.
Proof.
  unfold ImageUtils.cropImageFromBase64.
  destruct (ImageUtils.box_rejected box); [by eexists|].
  destruct (ImageUtils.decode browser _) as [[w h]|]; [|by eexists].
  destruct (onload_caught browser w h
              (match box with ImageUtils.BoxArray coords => coords | _ => [] end)) as [v Hv].
  exists v. revert Hv. unfold result, bind, emit.
  destruct (try_catch _ _) as [tr r]. done.
Qed.

Lemma cropped_resolves request : ∃ v, cropped request = inr v.
Proof.
  destruct request as [[d box]|]; [|by eexists]. unfold OracleClient.cropped.
  destruct (crop_resolves d (ImageUtils.BoxArray box)) as [v ->]. by eexists.
Qed.

Lemma crop_request_image hasDiagram boundingBox multimodal image d box :
  crop_request hasDiagram boundingBox multimodal image = Some (d, box) →
  multimodal = true ∧ image = Some d ∧ d ≠ "" ∧ hasDiagram = Some true ∧ boundingBox = Some box.
Proof.
  unfold crop_request. destruct hasDiagram as [[]|]; try done.
  destruct boundingBox as [b|]; try done. destruct image as [d'|]; try done.
  destruct multimodal; try done. cbn [andb].
  destruct (String.eqb d' "") eqn:Hd; try done. cbn [negb].
  intros [= -> ->]. apply String.eqb_neq in Hd. done.
Qed.

Lemma crop_request_none hasDiagram boundingBox multimodal image :
  multimodal = false ∨ image = None →
  crop_request hasDiagram boundingBox multimodal image = None.
Proof.
  destruct (crop_request _ _ _ _) as [[d box]|] eqn:Hreq; [|done].
  apply crop_request_image in Hreq as (-> & -> & _). intros [|]; done.
Qed.


(** A crop that is awaited: the call it leaves in the trace is made with
    the image of the batch, and it gives an image or [null]. *)
Lemma awaited_crop hasDiagram boundingBox multimodal image :
  let request := crop_request hasDiagram boundingBox multimodal image in
  (∀ d box, CropCall d box ∈ announce request → multimodal = true ∧ image = Some d ∧ d ≠ "")
  ∧ (multimodal = false ∨ image = None → announce request = [])
  ∧ ∃ v, cropped request = inr v ∧ (multimodal = false ∨ image = None → v = None).
Proof.
  intros request. subst request. split_and!.
  - intros d box Hev.
    destruct (crop_request _ _ _ _) as [[d' box']|] eqn:Hreq; [|by apply elem_of_nil in Hev].
    apply list_elem_of_singleton in Hev as [= <- <-].
    by apply crop_request_image in Hreq as (? & ? & ? & _).
  - intros Hno. by rewrite crop_request_none.
  - destruct (cropped_resolves (crop_request hasDiagram boundingBox multimodal image)) as [v Hv].
    exists v. split; [done|]. intros Hno. rewrite crop_request_none in Hv by done.
    cbn in Hv. congruence.
Qed.

(** One option: [null] throws; an object is kept, and may get an image. *)
Lemma option_with_crop_spec multimodal image opt :
  (∀ d box, CropCall d box ∈ trace (option_with_crop multimodal image opt) →
     multimodal = true ∧ image = Some d ∧ d ≠ "")
  ∧ (multimodal = false ∨ image = None → trace (option_with_crop multimodal image opt) = [])
  ∧ match opt with
    | None => ∃ e, result (option_with_crop multimodal image opt) = inl e
    | Some o =>
        ∃ o', result (option_with_crop multimodal image opt) = inr o'
          ∧ option_kept o o'
          ∧ (multimodal = false ∨ image = None → opt_image o' = None)
    end.
Proof.
  destruct opt as [o|]; cbn [OracleClient.option_with_crop].
  2:{ split_and!; [by intros ? ? ?%elem_of_nil|done|by eexists]. }
  destruct (awaited_crop (opt_hasDiagram o) (opt_boundingBox o) multimodal image)
    as (Hfrom & Hquiet & v & Hv & Hnone).
  cbv zeta in *. rewrite trace_bind, result_bind. unfold trace at 1 3, result at 1 2 3.
  cbn [fst snd]. rewrite Hv. cbn. rewrite app_nil_r. split_and!; [done|done|].
  eexists. split; [done|]. split; [done|]. cbn. exact Hnone.
Qed.

(** One option list. *)
Lemma optionsWithCrops_spec multimodal image options :
  (∀ d box, CropCall d box ∈ trace (optionsWithCrops multimodal image options) →
     multimodal = true ∧ image = Some d ∧ d ≠ "")
  ∧ (multimodal = false ∨ image = None → trace (optionsWithCrops multimodal image options) = [])
  ∧ match options_of options with
    | None => ∃ e, result (optionsWithCrops multimodal image options) = inl e
    | Some opts =>
        ∃ opts', result (optionsWithCrops multimodal image options) = inr opts'
          ∧ Forall2 option_kept opts opts'
          ∧ (multimodal = false ∨ image = None → Forall (λ o, opt_image o = None) opts')
    end.
Proof.
  destruct options as [| |opts]; cbn [OracleClient.optionsWithCrops options_of].
  - split_and!; [by intros ? ? ?%elem_of_nil|done|]. exists []. by split_and!.
  - split_and!; [by intros ? ? ?%elem_of_nil|done|by eexists].
  - change (trace (?a, ?b)) with a. change (result (?a, ?b)) with b.
    induction opts as [|opt opts (Hfrom & Hquiet & IH)].
    { split_and!; [by intros ? ? ?%elem_of_nil|done|]. exists []. by split_and!. }
    destruct (option_with_crop_spec multimodal image opt) as (Hf & Hq & Hopt).
    rewrite !fmap_cons, bind_cons. split_and!.
    + intros d box [Hev|Hev]%elem_of_app; [by apply (Hf d box)|by apply (Hfrom d box)].
    + intros Hno. by rewrite (Hq Hno), (Hquiet Hno).
    + cbn [mapM all_settled]. destruct opt as [o|].
      2:{ destruct Hopt as [e ->]. by eexists. }
      destruct Hopt as (o' & -> & Hkept & Hnone). cbn [id mbind option_bind].
      destruct (mapM id opts) as [os|].
      * destruct IH as (opts' & -> & Hall & Hnones). cbn.
        exists (o' :: opts'). split; [done|]. split; [by constructor|].
        intros Hno. constructor; [by apply Hnone|by apply Hnones].
      * destruct IH as [e ->]. cbn. by eexists.
Qed.

(** The shape of an item decides whether its turn of the loop throws. *)
Lemma process_question_spec sourceName multimodal image item :
  (∀ d box, CropCall d box ∈ trace (process_question sourceName multimodal image item) →
     multimodal = true ∧ image = Some d ∧ d ≠ "")
  ∧ (multimodal = false ∨ image = None →
     trace (process_question sourceName multimodal image item) = [])
  ∧ (well_shaped_item item →
     ∃ q', result (process_question sourceName multimodal image item) = inr q'
       ∧ item_kept sourceName item q'
       ∧ (multimodal = false ∨ image = None → without_images q'))
  ∧ (¬ well_shaped_item item →
     ∃ e, result (process_question sourceName multimodal image item) = inl e).
Proof.
  destruct item as [q|]; cbn [OracleClient.process_question].
  2:{ split_and!; [by intros ? ? ?%elem_of_nil|done| |by eexists].
      by intros (? & ? & ? & _). }
  destruct (awaited_crop (raw_hasDiagram q) (raw_boundingBox q) multimodal image)
    as (Hfrom & Hquiet & mainImage & HmainImage & HnoMain).
  destruct (optionsWithCrops_spec multimodal image (raw_options q)) as (Hf & Hq & Hopts).
  cbv zeta in *. rewrite !trace_bind, !result_bind.
  change (trace (?a, ?b)) with a. change (result (?a, ?b)) with b.
  rewrite HmainImage. rewrite !trace_bind, !result_bind.
  destruct (options_of (raw_options q)) as [opts|] eqn:Hshape.
  - destruct Hopts as (opts' & Hres & Hkept & Hnone). rewrite Hres.
    change (trace (ret ?a)) with (@nil Event). change (result (ret ?a)) with (@inr Error _ a).
    rewrite app_nil_r. split_and!.
    + intros d box [Hev|Hev]%elem_of_app; [by apply (Hfrom d box)|by apply (Hf d box)].
    + intros Hno. by rewrite (Hquiet Hno), (Hq Hno).
    + intros _. eexists. split; [done|]. split.
      * exists q. split; [done|]. unfold question_kept. cbn.
        split_and!; try done.
        -- by exists opts.
        -- destruct (raw_type q); done.
        -- destruct mainImage as [url|]; [|split; [done|by intros (? & ? & _)]].
           destruct (String.eqb url "") eqn:Hu; cbn [negb].
           ++ apply String.eqb_eq in Hu as ->. split; [done|]. by intros (? & [= <-] & ?).
           ++ apply String.eqb_neq in Hu. split; [|done]. intros _. by exists url.
      * intros Hno. unfold without_images. cbn. rewrite (HnoMain Hno).
        split_and!; [done|done|by apply Hnone].
    + intros Hill. exfalso. apply Hill. by exists q, opts.
  - destruct Hopts as [e Hres]. rewrite Hres. rewrite app_nil_r. split_and!.
    + intros d box [Hev|Hev]%elem_of_app; [by apply (Hfrom d box)|by apply (Hf d box)].
    + intros Hno. by rewrite (Hquiet Hno), (Hq Hno).
    + intros (r' & opts & [= <-] & Hsome). congruence.
    + intros _. by eexists.
Qed.

Lemma process_questions_spec sourceName multimodal image items :
  (∀ d box, CropCall d box ∈ trace (process_questions sourceName multimodal image items) →
     multimodal = true ∧ image = Some d ∧ d ≠ "")
  ∧ (multimodal = false ∨ image = None →
     trace (process_questions sourceName multimodal image items) = [])
  ∧ (Forall well_shaped_item items →
     ∃ qs', result (process_questions sourceName multimodal image items) = inr qs'
       ∧ Forall2 (item_kept sourceName) items qs')
  ∧ (¬ Forall well_shaped_item items →
     ∃ e, result (process_questions sourceName multimodal image items) = inl e)
  ∧ (∀ qs', result (process_questions sourceName multimodal image items) = inr qs' →
       multimodal = false ∨ image = None → Forall without_images qs').
Proof.
  induction items as [|item items (Hfrom & Hquiet & Hgood & Hbad & Hnone)].
  { split_and!; try done.
    - by intros ? ? ?%elem_of_nil.
    - intros _. by exists [].
    - intros Hn. exfalso. apply Hn. constructor.
    - intros ? [= <-] _. constructor. }
  destruct (process_question_spec sourceName multimodal image item) as (Hf & Hq & Hg & Hb).
  cbn [OracleClient.process_questions]. rewrite !trace_bind, !result_bind.
  split_and!.
  - intros d box [Hev|Hev]%elem_of_app; [by apply (Hf d box)|].
    destruct (result (process_question _ _ _ _)); [by apply elem_of_nil in Hev|].
    rewrite trace_bind in Hev. apply elem_of_app in Hev as [Hev|Hev]; [by apply (Hfrom d box)|].
    destruct (result (process_questions _ _ _ _)); by apply elem_of_nil in Hev.
  - intros Hno. rewrite (Hq Hno). destruct (result (process_question _ _ _ _)); [done|].
    rewrite trace_bind, (Hquiet Hno). by destruct (result (process_questions _ _ _ _)).
  - intros [Hitem Hitems]%Forall_cons.
    destruct (Hg Hitem) as (q' & -> & Hk & _). rewrite result_bind.
    destruct (Hgood Hitems) as (qs' & -> & Hks).
    exists (q' :: qs'). split; [done|]. by constructor.
  - intros Hill. destruct (decide (well_shaped_item item)) as [Hitem|Hitem].
    + destruct (Hg Hitem) as (q' & -> & _). rewrite result_bind.
      destruct Hbad as [e ->]; [|by eexists].
      intros Hitems. apply Hill. by constructor.
    + destruct (Hb Hitem) as [e ->]. by eexists.
  - intros qs'' Hres Hno.
    destruct (decide (well_shaped_item item)) as [Hitem|Hitem].
    2:{ destruct (Hb Hitem) as [e He]. rewrite He in Hres. done. }
    destruct (Hg Hitem) as (q' & He & _ & Hq'). rewrite He, result_bind in Hres.
    destruct (result (process_questions _ _ _ _)) as [e|qs']; [done|].
    injection Hres as <-. constructor; [by apply Hq'|by apply Hnone].
Qed.

Lemma process_parsed_spec sourceName multimodal image parsed :
  (∀ d box, CropCall d box ∈ trace (process_parsed browser toDataURL sourceName multimodal image parsed) →
     multimodal = true ∧ image = Some d ∧ d ≠ "")
  ∧ (multimodal = false ∨ image = None →
     trace (process_parsed browser toDataURL sourceName multimodal image parsed) = [])
  ∧ (well_shaped parsed →
     ∃ qs', result (process_parsed browser toDataURL sourceName multimodal image parsed) = inr qs'
       ∧ Forall2 (item_kept sourceName) (items_of parsed) qs')
  ∧ (¬ well_shaped parsed →
     ∃ e, result (process_parsed browser toDataURL sourceName multimodal image parsed) = inl e)
  ∧ (∀ qs', result (process_parsed browser toDataURL sourceName multimodal image parsed) = inr qs' →
       multimodal = false ∨ image = None → Forall without_images qs').
Proof.
  destruct parsed as [| |items]; cbn [process_parsed].
  - split_and!; [by intros ? ? ?%elem_of_nil|done| | |].
    + intros _. by exists [].
    + intros Hn. exfalso. apply Hn. by split.
    + intros ? [= <-] _. constructor.
  - split_and!; [by intros ? ? ?%elem_of_nil|done| | |done].
    + by intros [? _].
    + intros _. by eexists.
  - destruct (process_questions_spec sourceName multimodal image items)
      as (Hfrom & Hquiet & Hgood & Hbad & Hnone).
    split_and!; [done|done| | |done].
    + intros [_ Hitems]. by apply Hgood.
    + intros Hill. apply Hbad. intros Hitems. apply Hill. by split.
Qed.

Lemma currentImageBase64_text parts :
  isMultimodal inlineData parts = false → currentImageBase64 inlineData parts = inr None.
Proof. unfold currentImageBase64. by intros ->. Qed.

Lemma currentImageBase64_first parts d :
  currentImageBase64 inlineData parts = inr (Some d) →
  ∃ page rest, parts = GeminiService.PagePart page :: rest ∧ inlineData page = Some d.
Proof.
  unfold currentImageBase64. destruct (isMultimodal inlineData parts); [|done].
  destruct parts as [|[t|page] rest]; try done.
  destruct (inlineData page) as [d'|] eqn:Hd; [|done]. intros [= ->]. by exists page, rest.
Qed.

(** The three stages of a batch before the questions are processed. *)
Lemma processBatch_unfold parts sourceName pageNumber :
  processBatch parts sourceName pageNumber
  = match currentImageBase64 inlineData parts with
    | inl e => ([], inl e)
    | inr image =>
        match generateContent parts pageNumber with
        | inl e => ([], inl e)
        | inr responseText =>
            match (if String.eqb responseText "" then inr (QuestionsArray [])
                   else JSON_parse responseText) with
            | inl e => ([], inl e)
            | inr parsed =>
                process_parsed browser toDataURL sourceName (isMultimodal inlineData parts)
                  image parsed
            end
        end
    end.
Proof.
  unfold OracleClient.processBatch, bind.
  destruct (currentImageBase64 inlineData parts) as [e|image]; [done|].
  destruct (generateContent parts pageNumber) as [e|responseText]; [done|].
  destruct (if String.eqb responseText "" then _ else _) as [e|parsed]; [done|].
  by destruct (process_parsed _ _ _ _ _ _).
Qed.

(** X6.  A batch without a page image (the text of a document, or pages
    that carry no [inlineData]) never calls the cropper, and every question
    it returns is without images, whatever the service flagged. *)
Theorem text_batches_never_crop parts sourceName pageNumber :
  isMultimodal inlineData parts = false →
  trace (processBatch parts sourceName pageNumber) = []
  ∧ ∀ qs, result (processBatch parts sourceName pageNumber) = inr qs →
          Forall without_images qs.
Proof.
  intros Htext. rewrite processBatch_unfold, currentImageBase64_text by done.
  destruct (generateContent parts pageNumber) as [e|responseText]; [done|].
  destruct (if String.eqb responseText "" then _ else _) as [e|parsed]; [done|].
  rewrite Htext.
  destruct (process_parsed_spec sourceName false None parsed)
    as (_ & Hquiet & _ & _ & Hnone).
  split; [apply Hquiet; by left|].
  intros qs Hqs. apply (Hnone qs Hqs). by left.
Qed.

(** X7.  Once the service has answered and the answer parses to
    questions of the shape the client takes for granted (every question an
    object, its options left out or an array of objects), the batch
    returns: every question of the answer arrives, in the order of the
    answer, with its text, its options and its classification, completed
    by the defaults and the stamps; whatever happens to a crop costs at
    most the image. *)
Theorem batch_keeps_the_answer parts sourceName pageNumber image responseText parsed :
  currentImageBase64 inlineData parts = inr image →
  generateContent parts pageNumber = inr responseText →
  responseText ≠ "" →
  JSON_parse responseText = inr parsed →
  well_shaped parsed →
  ∃ qs, result (processBatch parts sourceName pageNumber) = inr qs
    ∧ Forall2 (item_kept sourceName) (items_of parsed) qs.
Proof.
  intros Himage Hresponse Hnonempty Hparsed Hshape.
  rewrite processBatch_unfold, Himage, Hresponse.
  apply String.eqb_neq in Hnonempty. rewrite Hnonempty, Hparsed.
  destruct (process_parsed_spec sourceName (isMultimodal inlineData parts) image parsed)
    as (_ & _ & Hgood & _). by apply Hgood.
Qed.

(** X8.  A batch throws in four cases and in no other.  In three of them
    it throws before any crop, and what was thrown to it: the first part
    has no image although a later one has, the call of the service throws,
    or the answer does not parse.  In the fourth the answer parses to
    questions that are not of the shape the client takes for granted (a
    value that cannot be iterated, a question that is [null], options that
    are no array or hold a [null]); crops may then have been made.  An
    empty answer is no failure: it gives no question. *)
Theorem batch_throws_in_four_cases parts sourceName pageNumber :
  ((∃ e, result (processBatch parts sourceName pageNumber) = inl e) ↔
     (∃ e, currentImageBase64 inlineData parts = inl e)
     ∨ (∃ image e, currentImageBase64 inlineData parts = inr image
          ∧ generateContent parts pageNumber = inl e)
     ∨ (∃ image responseText e, currentImageBase64 inlineData parts = inr image
          ∧ generateContent parts pageNumber = inr responseText
          ∧ responseText ≠ "" ∧ JSON_parse responseText = inl e)
     ∨ (∃ image responseText parsed, currentImageBase64 inlineData parts = inr image
          ∧ generateContent parts pageNumber = inr responseText
          ∧ responseText ≠ "" ∧ JSON_parse responseText = inr parsed
          ∧ ¬ well_shaped parsed))
  ∧ (∀ e, currentImageBase64 inlineData parts = inl e
          ∨ (∃ image, currentImageBase64 inlineData parts = inr image
               ∧ generateContent parts pageNumber = inl e)
          ∨ (∃ image responseText, currentImageBase64 inlineData parts = inr image
               ∧ generateContent parts pageNumber = inr responseText
               ∧ responseText ≠ "" ∧ JSON_parse responseText = inl e) →
          processBatch parts sourceName pageNumber = ([], inl e))
  ∧ (∀ image, currentImageBase64 inlineData parts = inr image →
       generateContent parts pageNumber = inr "" →
       processBatch parts sourceName pageNumber = ([], inr [])).
Proof.
  rewrite processBatch_unfold.
  destruct (currentImageBase64 inlineData parts) as [e0|image].
  { split_and!; [|by intros e [[= ->]|[(? & ? & _)|(? & ? & ? & _)]]|done].
    split; [intros _; left; by eexists|]. intros _. by eexists. }
  destruct (generateContent parts pageNumber) as [e1|responseText].
  { split_and!; [| |done].
    - split; [intros _; right; left; by eexists _, _|]. intros _. by eexists.
    - intros e [|[(? & _ & [= ->])|(? & ? & _ & ? & _)]]; done. }
  destruct (String.eqb responseText "") eqn:Hempty.
  { apply String.eqb_eq in Hempty as ->. cbn [process_parsed OracleClient.process_questions].
    split_and!; [| |done].
    - split; [by intros [? ?]|].
      intros [[? ?]|[(? & ? & _ & ?)|[(? & ? & ? & _ & [= <-] & ? & _)
                                      |(? & ? & ? & _ & [= <-] & ? & _)]]]; done.
    - intros e [|[(? & _ & ?)|(? & ? & _ & [= <-] & ? & _)]]; done. }
  apply String.eqb_neq in Hempty.
  destruct (JSON_parse responseText) as [e2|parsed] eqn:Hparse.
  { split_and!; [| |by intros ? _ [= ->]].
    - split; [|intros _; by eexists].
      intros _. right; right; left. by exists image, responseText, e2.
    - intros e [|[(? & _ & ?)|(? & ? & _ & [= <-] & _ & He)]]; try done.
      rewrite Hparse in He. by injection He as ->. }
  destruct (process_parsed_spec sourceName (isMultimodal inlineData parts) image parsed)
    as (_ & _ & Hgood & Hbad & _).
  split_and!.
  - split.
    + intros [e He]. do 3 right. exists image, responseText, parsed.
      split_and!; try done. intros Hshape. destruct (Hgood Hshape) as (qs & Hqs & _). congruence.
    + intros [[? ?]|[(? & ? & _ & ?)|[(? & ? & ? & _ & [= <-] & _ & He)
                                      |(? & ? & p & _ & [= <-] & _ & Hp & Hill)]]]; try done.
      { congruence. }
      rewrite Hparse in Hp. injection Hp as <-. by apply Hbad.
  - intros e [|[(? & _ & ?)|(? & ? & _ & [= <-] & _ & He)]]; try done. congruence.
  - by intros ? _ [= ->].
Qed.

Lemma crop_source parts sourceName pageNumber d box :
  CropCall d box ∈ trace (processBatch parts sourceName pageNumber) →
  ∃ page rest, parts = GeminiService.PagePart page :: rest
    ∧ inlineData page = Some d ∧ d ≠ "".
Proof.
  rewrite processBatch_unfold.
  destruct (currentImageBase64 inlineData parts) as [e0|image] eqn:Himage;
    [by intros ?%elem_of_nil|].
  destruct (generateContent parts pageNumber) as [e1|responseText];
    [by intros ?%elem_of_nil|].
  destruct (if String.eqb responseText "" then _ else _) as [e|parsed];
    [by intros ?%elem_of_nil|].
  destruct (process_parsed_spec sourceName (isMultimodal inlineData parts) image parsed)
    as (Hfrom & _).
  intros (_ & -> & Hd)%Hfrom.
  apply currentImageBase64_first in Himage as (page & rest & -> & Hpage).
  by exists page, rest.
Qed.

(** X9.  Every crop of a batch is cut from the image of its first part,
    which is a page with a non-empty image.  So the crops of the window
    that starts at index [i] of a document all come from the image of page
    [i], also for the boxes that lie on the second page of the window. *)
Theorem crops_come_from_the_first_page parts pages i sourceName pageNumber d box :
  (CropCall d box ∈ trace (processBatch parts sourceName pageNumber) →
   ∃ page rest, parts = GeminiService.PagePart page :: rest
     ∧ inlineData page = Some d ∧ d ≠ "")
  ∧ (CropCall d box
       ∈ trace (processBatch (GeminiService.window_call pages i).1 sourceName
                  (GeminiService.window_call pages i).2) →
     ∃ page, pages !! i = Some page ∧ inlineData page = Some d ∧ d ≠ "").
Proof.
  split; [apply crop_source|].
  intros (page & rest & Hparts & Hpage & Hd)%crop_source.
  exists page. split; [|done].
  unfold GeminiService.window_call, GeminiService.slice in Hparts. cbn [fst] in Hparts.
  destruct (drop i pages) as [|p ps] eqn:Hdrop.
  { rewrite take_nil in Hparts. done. }
  assert (Hi : pages !! i = Some p).
  { rewrite <- (Nat.add_0_r i), <- lookup_drop, Hdrop. done. }
  replace (i + GeminiService.WINDOW_SIZE - i) with 2 in Hparts
    by (unfold GeminiService.WINDOW_SIZE; lia).
  cbn in Hparts. destruct ps; injection Hparts as -> _; done.
Qed.

(** X10.  With this client, a document given as text makes exactly one
    batch, of the text alone and with no page number, and logs nothing;
    what the batch returns or throws is what the caller gets, so a failure
    is not skipped as a window's is; and the questions carry no image. *)
Theorem text_input_is_one_uncaught_batch key textContent sourceName :
  GeminiService.truthy key = true →
  GeminiService.parseQuestionsWithGemini key
    (client inlineData generateContent JSON_parse browser toDataURL)
    (inl textContent) sourceName
  = ([GeminiService.Batch [GeminiService.TextPart textContent] None],
     result (processBatch [GeminiService.TextPart textContent] sourceName None))
  ∧ ∀ qs,
      result (GeminiService.parseQuestionsWithGemini key
                (client inlineData generateContent JSON_parse browser toDataURL)
                (inl textContent) sourceName) = inr qs →
      Forall without_images qs.
Proof.
  intros Hkey.
  assert (Hrun : GeminiService.parseQuestionsWithGemini key
            (client inlineData generateContent JSON_parse browser toDataURL)
            (inl textContent) sourceName
          = ([GeminiService.Batch [GeminiService.TextPart textContent] None],
             result (processBatch [GeminiService.TextPart textContent] sourceName None))).
  { unfold GeminiService.parseQuestionsWithGemini. rewrite Hkey. cbn [negb].
    unfold GeminiService.callProcessBatch, bind, emit, client. done. }
  split; [done|]. rewrite Hrun. unfold result at 1. cbn [snd]. intros qs Hqs.
  rewrite processBatch_unfold in Hqs.
  rewrite currentImageBase64_text in Hqs by done.
  destruct (generateContent _ None) as [e|responseText]; [done|].
  destruct (if String.eqb responseText "" then _ else _) as [e|parsed]; [done|].
  destruct (process_parsed_spec sourceName false None parsed) as (_ & _ & _ & _ & Hnone).
  change (isMultimodal inlineData [GeminiService.TextPart textContent]) with false in Hqs.
  apply (Hnone qs Hqs). by left.
Qed.

End OracleClientFacts.

Lemma text_batches_never_crop_witness :
  Js.trace (OracleClient.processBatch Samples.inlineData Samples.generateContent
              Samples.JSON_parse Samples.browser Samples.toDataURL
              [GeminiService.TextPart "Find the focal length."] "paper.pdf" None) = [].
Proof.
  apply (text_batches_never_crop Samples.inlineData Samples.generateContent
           Samples.JSON_parse Samples.browser Samples.toDataURL
           [GeminiService.TextPart "Find the focal length."] "paper.pdf" None).
  reflexivity.
Defined.

Lemma batch_keeps_the_answer_witness :
  ∃ qs,
    Js.result (OracleClient.processBatch Samples.inlineData Samples.generateContent
                 Samples.JSON_parse Samples.browser Samples.toDataURL
                 [GeminiService.PagePart 1; GeminiService.PagePart 2] "paper.pdf" (Some 1))
    = inr qs
    ∧ Forall2 (OracleClient.item_kept "paper.pdf") Samples.answer qs.
Proof.
  apply (batch_keeps_the_answer Samples.inlineData Samples.generateContent
           Samples.JSON_parse Samples.browser Samples.toDataURL
           [GeminiService.PagePart 1; GeminiService.PagePart 2] "paper.pdf" (Some 1)
           (Some "image of page 1") "{ ... }" (OracleClient.QuestionsArray Samples.answer));
    [reflexivity|reflexivity|discriminate|reflexivity|].
  split; [discriminate|]. repeat constructor; eexists _, _; split; reflexivity.
Defined.

(** A question that is [null] behind one with a diagram: the batch crops
    for the first question and its option, and then throws. *)
Example null_question_throws_after_the_crops :
  OracleClient.processBatch Samples.inlineData Samples.generateContent
    Samples.JSON_parse_null Samples.browser Samples.toDataURL
    [GeminiService.PagePart 1; GeminiService.PagePart 2] "paper.pdf" (Some 1)
  = ([OracleClient.CropCall "image of page 1" [100; 100; 400; 900]%Q;
      OracleClient.CropCall "image of page 1" [600; 100; 700; 300]%Q],
     inl (Js.mkError "Cannot read properties of null (reading 'hasDiagram')")).
Proof. reflexivity. Qed.

Lemma crops_come_from_the_first_page_witness :
  ∃ page, [1; 2; 3] !! 1 = Some page
    ∧ Samples.inlineData page = Some "image of page 2" ∧ "image of page 2" ≠ "".
Proof.
  apply (crops_come_from_the_first_page Samples.inlineData Samples.generateContent
           Samples.JSON_parse Samples.browser Samples.toDataURL
           [] [1; 2; 3] 1 "paper.pdf" None "image of page 2" [100; 100; 400; 900]%Q).
  vm_compute. left.
Defined.

Lemma text_input_is_one_uncaught_batch_witness :
  GeminiService.batches
    (Js.trace (GeminiService.parseQuestionsWithGemini (Some "key")
                 (OracleClient.client Samples.inlineData Samples.generateContent
                    Samples.JSON_parse Samples.browser Samples.toDataURL)
                 (inl "Find the focal length.") "paper.pdf"))
  = [([GeminiService.TextPart "Find the focal length."], None)].
Proof.
  rewrite (proj1 (text_input_is_one_uncaught_batch Samples.inlineData Samples.generateContent
                    Samples.JSON_parse Samples.browser Samples.toDataURL
                    (Some "key") "Find the focal length." "paper.pdf" eq_refl)).
  reflexivity.
Defined.


Section LogServiceFacts.
Import Js LogService.
Context {LogListener : Type} `{EqDecision LogListener}.
Implicit Types (fn g : LogListener) (listeners : list LogListener).

Lemma indexOf_absent fn listeners : fn ∉ listeners → indexOf fn listeners = None.
Proof.
  intros Hnot. unfold indexOf.
  destruct (list_find _ listeners) as [[i g]|] eqn:Hfind; [|done].
  apply list_find_Some in Hfind as (Hi & -> & _).
  exfalso. apply Hnot. by eapply list_elem_of_lookup_2.
Qed.

Lemma indexOf_cons fn g listeners :
  indexOf fn (g :: listeners)
  = if decide (g = fn) then Some 0 else S <$> indexOf fn listeners.
Proof.
  unfold indexOf. cbn [list_find]. destruct (decide (g = fn)); [done|].
  by destruct (list_find _ listeners) as [[i h]|].
Qed.

Lemma unsubscribe_cons fn g listeners :
  unsubscribe fn (g :: listeners)
  = if decide (g = fn) then listeners else g :: unsubscribe fn listeners.
Proof.
  unfold unsubscribe. rewrite indexOf_cons. destruct (decide (g = fn)); [done|].
  by destruct (indexOf fn listeners).
Qed.

Lemma unsubscribe_absent fn listeners : fn ∉ listeners → unsubscribe fn listeners = listeners.
Proof. intros Hnot. unfold unsubscribe. by rewrite indexOf_absent. Qed.

Lemma unsubscribe_app fn listeners more :
  fn ∈ listeners → unsubscribe fn (listeners ++ more) = unsubscribe fn listeners ++ more.
Proof.
  induction listeners as [|g listeners IH]; [by intros ?%elem_of_nil|].
  intros Hin. rewrite <- app_comm_cons, !unsubscribe_cons.
  destruct (decide (g = fn)); [done|].
  apply elem_of_cons in Hin as [->|Hin]; [done|]. by rewrite <- app_comm_cons, IH.
Qed.

Lemma unsubscribe_fresh fn listeners :
  fn ∉ listeners → unsubscribe fn (listeners ++ [fn]) = listeners.
Proof.
  induction listeners as [|g listeners IH]; intros Hnot.
  { cbn. rewrite unsubscribe_cons. by rewrite decide_True. }
  apply not_elem_of_cons in Hnot as [Hne Hnot].
  rewrite <- app_comm_cons, unsubscribe_cons, decide_False by done. by rewrite IH.
Qed.

Lemma unsubscribe_present fn listeners :
  fn ∈ listeners → unsubscribe fn listeners ++ [fn] ≡ₚ listeners.
Proof.
  induction listeners as [|g listeners IH]; [by intros ?%elem_of_nil|].
  intros Hin. rewrite unsubscribe_cons. destruct (decide (g = fn)) as [->|Hne].
  - by rewrite <- Permutation_cons_append.
  - apply elem_of_cons in Hin as [->|Hin]; [done|].
    rewrite <- app_comm_cons. by rewrite IH.
Qed.

Lemma received_log g message lvl listeners :
  received g (log message lvl listeners)
  = omap (λ h, if decide (h = g) then Some (mkLog message (default info lvl)) else None)
      listeners.
Proof.
  unfold log, received. cbn [omap list_omap].
  induction listeners as [|h listeners IH]; [done|].
  cbn. destruct (decide (h = g)); by rewrite IH.
Qed.

(** X11.  Subscribing a listener and calling the function that comes back
    leaves the registry with the listeners it had: in the order it had
    when the listener was not registered before, and otherwise with the
    earliest registration of the listener removed and the new one kept at
    the end.  Calling it for a listener that is not registered changes
    nothing, and the other listeners receive what they received before. *)
Theorem unsubscribe_undoes_one_registration fn listeners :
  unsubscribe fn (addLogListener fn listeners) ≡ₚ listeners
  ∧ (fn ∉ listeners → unsubscribe fn (addLogListener fn listeners) = listeners)
  ∧ (fn ∈ listeners →
     unsubscribe fn (addLogListener fn listeners) = unsubscribe fn listeners ++ [fn])
  ∧ (fn ∉ listeners → unsubscribe fn listeners = listeners)
  ∧ (∀ g message lvl, g ≠ fn →
       received g (log message lvl (unsubscribe fn listeners))
       = received g (log message lvl listeners)).
Proof.
  unfold addLogListener. split_and!.
  - destruct (decide (fn ∈ listeners)) as [Hin|Hnot].
    + rewrite unsubscribe_app by done. by apply unsubscribe_present.
    + by rewrite unsubscribe_fresh.
  - apply unsubscribe_fresh.
  - intros Hin. by apply unsubscribe_app.
  - apply unsubscribe_absent.
  - intros g message lvl Hne. rewrite !received_log.
    induction listeners as [|h listeners IH]; [done|].
    rewrite unsubscribe_cons. destruct (decide (h = fn)) as [->|Hh].
    + cbn. by rewrite decide_False.
    + cbn. destruct (decide (h = g)); by rewrite IH.
Qed.

End LogServiceFacts.


Section FilenameFacts.
Import Types ExportService.

Lemma string_app_assoc (a b c : string) : (a +:+ b) +:+ c = a +:+ (b +:+ c).
Proof.
  induction a as [|x a IH]; [done|].
  change (String x ((a +:+ b) +:+ c) = String x (a +:+ (b +:+ c))). by rewrite IH.
Qed.

Lemma pretty_N_go_no_underscore x s :
  JsString.occurs "_" s = false → JsString.occurs "_" (pretty_N_go x s) = false.
Proof.
  revert s. induction (N.lt_wf_0 x) as [x _ IH]; intros s Hs.
  assert (x = 0 ∨ 0 < x)%N as [->|Hpos] by lia.
  - by rewrite pretty_N_go_0.
  - rewrite pretty_N_go_step by done. apply IH; [by apply N.div_lt|].
    cbn [JsString.occurs]. rewrite Hs, orb_false_r.
    unfold pretty_N_char. by repeat case_match.
Qed.

Lemma pretty_nat_no_underscore (n : nat) : JsString.occurs "_" (pretty n) = false.
Proof.
  unfold pretty, pretty_nat, pretty, pretty_N.
  case_decide; [done|]. by apply pretty_N_go_no_underscore.
Qed.

(** Two texts that agree and start with a run free of underscores, closed
    by an underscore, agree on the run and on the rest. *)
Lemma cut_at_underscore a b r r' :
  JsString.occurs "_" a = false → JsString.occurs "_" b = false →
  a +:+ String "_" r = b +:+ String "_" r' → a = b ∧ r = r'.
Proof.
  revert b. induction a as [|c a IH]; intros [|d b] Ha Hb Heq; cbn in *.
  - by injection Heq.
  - injection Heq as <- _. by rewrite bool_decide_eq_true_2 in Hb.
  - injection Heq as -> _. by rewrite bool_decide_eq_true_2 in Ha.
  - injection Heq as -> Heq.
    apply orb_false_iff in Ha as [_ Ha]. apply orb_false_iff in Hb as [_ Hb].
    destruct (IH b Ha Hb Heq) as [-> ->]. done.
Qed.

Lemma job_filename_inj job job' now now' :
  job_filename job now = job_filename job' now' → job = job'.
Proof.
  destruct job as [q|q o], job' as [q'|q' o'];
    unfold job_filename, generateImageFilename; cbn [String.app]; intros Heq;
    try discriminate.
  - injection Heq as Heq.
    apply cut_at_underscore in Heq as [Hq%(inj pretty) _];
      [by subst|apply pretty_nat_no_underscore..].
  - injection Heq as Heq. rewrite !string_app_assoc in Heq. cbn [String.app] in Heq.
    apply cut_at_underscore in Heq as [Hq%(inj pretty) Heq];
      [|apply pretty_nat_no_underscore..].
    apply cut_at_underscore in Heq as [Ho%(inj pretty) _];
      [by subst|apply pretty_nat_no_underscore..].
Qed.

(** X12.  The file names of an export never collide: the images of two
    different questions, of two different options, or of a question and an
    option, get different names whatever the clock and the random source
    give, even if they repeat. *)
Theorem export_filenames_never_collide job job' now now' :
  job ≠ job' → job_filename job now ≠ job_filename job' now'.
Proof. intros Hne Heq. apply Hne. by eapply job_filename_inj. Qed.

End FilenameFacts.

Lemma export_filenames_never_collide_witness :
  ExportService.job_filename (ExportService.QuestionImage 1)
    (ExportService.mkEntropy 1700 "k3x9qa")
  ≠ ExportService.job_filename (ExportService.OptionImage 1 0)
      (ExportService.mkEntropy 1700 "k3x9qa").
Proof. apply export_filenames_never_collide. discriminate. Defined.

Section ArchiveFacts.
Import Types ExportService.
Variable atob : option string → Js.Error + string.
Variable entropy : nat → Entropy.
Variable folder : bool.
Variable generateAsync : option Js.Error.

Local Abbreviation base64ToBlob := (base64ToBlob atob).
Local Abbreviation add_file := (add_file atob entropy).
Local Abbreviation export_image := (export_image atob entropy).
Local Abbreviation export_options := (export_options atob entropy).
Local Abbreviation export_question := (export_question atob entropy).
Local Abbreviation export_questions := (export_questions atob entropy).
Local Abbreviation archived := (archived atob).
Local Abbreviation option_archived := (option_archived atob).
Local Abbreviation question_archived := (question_archived atob).

Lemma earlier_mono s c c' :
  earlier s c → (c.1 < c'.1 ∨ (c.1 = c'.1 ∧ c.2 ≤ c'.2)) → earlier s c'.
Proof. unfold earlier. lia. Qed.

Lemma named_before_mono fd c c' :
  named_before fd c → (c.1 < c'.1 ∨ (c.1 = c'.1 ∧ c.2 ≤ c'.2)) → named_before fd c'.
Proof.
  intros Hfd Hc name Hname. destruct (Hfd name Hname) as (job & now & -> & Hs).
  exists job, now. split; [done|]. by eapply earlier_mono.
Qed.

Lemma archived_mono images images' original copy :
  images ⊆ images' → archived images original copy → archived images' original copy.
Proof.
  intros Hsub. unfold ExportService.archived. destruct original as [data|]; [|done].
  destruct (String.prefix "data:" data); [|done].
  intros (filename & blob & -> & Hfile & Hblob). exists filename, blob.
  split_and!; [done| |done]. by eapply lookup_weaken.
Qed.

Lemma option_archived_mono images images' opt optionCopy :
  images ⊆ images' → option_archived images opt optionCopy →
  option_archived images' opt optionCopy.
Proof. intros Hsub (H1 & H2). split; [by eapply archived_mono|done]. Qed.

Lemma question_archived_mono images images' question questionCopy :
  images ⊆ images' → question_archived images question questionCopy →
  question_archived images' question questionCopy.
Proof.
  intros Hsub (H1 & H2 & H3). split; [by eapply archived_mono|]. split; [|done].
  eapply Forall2_impl; [done|]. intros ??. by apply option_archived_mono.
Qed.

Lemma export_image_spec job image fd image' fd' :
  export_image job image fd = inr (image', fd') →
  named_before fd (slot job) →
  grows fd fd' (if is_data_url image then 1 else 0) ((slot job).1, S (slot job).2)
  ∧ archived (files fd') image image'.
Proof.
  intros Hrun Hfd. unfold ExportService.export_image in Hrun.
  assert (Hstay : grows fd fd 0 ((slot job).1, S (slot job).2)).
  { split; [|split; [done|lia]]. eapply named_before_mono; [done|]. right. cbn. lia. }
  destruct image as [data|]; cbn [is_data_url ExportService.archived];
    [|by injection Hrun as <- <-].
  destruct (String.prefix "data:" data) eqn:Hdata; [|by injection Hrun as <- <-].
  unfold step_bind, step_ret, ExportService.add_file in Hrun.
  destruct (base64ToBlob data) as [e|blob] eqn:Hblob; [done|].
  injection Hrun as <- <-. cbn [files].
  set (filename := job_filename job (entropy (generated fd))).
  assert (Hnew : files fd !! filename = None).
  { apply eq_None_not_Some. intros (job' & now' & Hname & Hearlier)%Hfd.
    apply job_filename_inj in Hname as <-. unfold earlier in Hearlier. lia. }
  split; [split; [|split]|].
  - intros name [blob' Hname]. cbn [files] in Hname.
    destruct (decide (name = filename)) as [->|Hne].
    + exists job, (entropy (generated fd)). split; [done|]. right. cbn. lia.
    + rewrite lookup_insert_ne in Hname by (intros ?; by apply Hne).
      destruct (Hfd name (mk_is_Some _ _ Hname)) as (job' & now' & -> & Hearlier).
      exists job', now'. split; [done|]. eapply earlier_mono; [done|]. right. cbn. lia.
  - cbn [files]. by apply insert_subseteq.
  - cbn [files]. rewrite map_size_insert_None by done. lia.
  - exists filename, blob. cbn [files]. split; [done|]. split; [|done]. by rewrite lookup_insert_eq.
Qed.

Lemma grows_trans fd fd' fd'' n m c' c'' :
  grows fd fd' n c' → grows fd' fd'' m c'' → grows fd fd'' (n + m) c''.
Proof.
  intros (_ & Hsub & Hsize) (Hnamed & Hsub' & Hsize').
  split; [done|]. split; [by etrans|lia].
Qed.

Lemma export_options_spec qIndex optIndex opts fd copies fd' :
  export_options qIndex optIndex opts fd = inr (copies, fd') →
  named_before fd (qIndex, S optIndex) →
  grows fd fd' (length (filter (λ opt, is_data_url (opt_image opt)) opts))
    (qIndex, S (optIndex + length opts))
  ∧ Forall2 (option_archived (files fd')) opts copies.
Proof.
  revert optIndex fd copies. induction opts as [|opt opts IH]; intros optIndex fd copies Hrun Hfd.
  { injection Hrun as <- <-. split; [|done].
    split; [|split; [done|cbn; lia]]. eapply named_before_mono; [done|]. right. cbn. lia. }
  cbn [ExportService.export_options] in Hrun. unfold step_bind at 1 in Hrun.
  destruct (export_image (OptionImage qIndex optIndex) (opt_image opt) fd)
    as [e|[image fd1]] eqn:Himage; [done|].
  apply export_image_spec in Himage as [Hgrow1 Harch]; [|done].
  unfold step_bind at 1 in Hrun.
  destruct (export_options qIndex (S optIndex) opts fd1) as [e|[copies' fd2]] eqn:Hrest; [done|].
  injection Hrun as <- <-.
  apply IH in Hrest as [Hgrow2 Hcopies]; [|by destruct Hgrow1].
  split.
  - pose proof (grows_trans _ _ _ _ _ _ _ Hgrow1 Hgrow2) as Hgrow.
    replace (qIndex, S (optIndex + length (opt :: opts)))
      with (qIndex, S (S optIndex + length opts)) by (cbn [length]; f_equal; lia).
    destruct (is_data_url (opt_image opt)) eqn:Hdata.
    + rewrite filter_cons_True by (by apply Is_true_true). exact Hgrow.
    + rewrite filter_cons_False by (by apply Is_true_false). exact Hgrow.
  - constructor; [|done]. split; [|done]. cbn [opt_image].
    eapply archived_mono; [|done]. by destruct Hgrow2 as (_ & ? & _).
Qed.

Lemma export_question_spec qIndex question fd questionCopy fd' :
  export_question qIndex question fd = inr (questionCopy, fd') →
  named_before fd (qIndex, 0) →
  grows fd fd' (images_of question) (S qIndex, 0)
  ∧ question_archived (files fd') question questionCopy.
Proof.
  intros Hrun Hfd. unfold ExportService.export_question in Hrun.
  unfold step_bind at 1 in Hrun.
  destruct (export_image (QuestionImage qIndex) (image question) fd)
    as [e|[image' fd1]] eqn:Himage; [done|].
  apply export_image_spec in Himage as [Hgrow1 Harch]; [|done].
  unfold step_bind at 1 in Hrun.
  assert (Hoptions : match options question with
                     | [] => step_ret []
                     | _ => ExportService.export_options atob entropy qIndex 0 (options question)
                     end = export_options qIndex 0 (options question))
    by (by destruct (options question)).
  rewrite Hoptions in Hrun. clear Hoptions.
  destruct (export_options qIndex 0 (options question) fd1) as [e|[opts fd2]] eqn:Hr; [done|].
  injection Hrun as <- <-.
  apply export_options_spec in Hr as [Hgrow2 Hopts]; [|by destruct Hgrow1].
  split.
  - destruct (grows_trans _ _ _ _ _ _ _ Hgrow1 Hgrow2) as (Hnamed & Hsub & Hsize).
    split; [|done].
    eapply named_before_mono; [done|]. left. cbn. lia.
  - split_and!; try done. cbn [image].
    eapply archived_mono; [|done]. by destruct Hgrow2 as (_ & ? & _).
Qed.

Lemma export_questions_spec qIndex questions fd copies fd' :
  export_questions qIndex questions fd = inr (copies, fd') →
  named_before fd (qIndex, 0) →
  grows fd fd' (sum_list_with images_of questions) (qIndex + length questions, 0)
  ∧ Forall2 (question_archived (files fd')) questions copies.
Proof.
  revert qIndex fd copies.
  induction questions as [|question questions IH]; intros qIndex fd copies Hrun Hfd.
  { injection Hrun as <- <-. split; [|done].
    split; [|split; [done|cbn; lia]]. eapply named_before_mono; [done|]. right. cbn. lia. }
  cbn [ExportService.export_questions] in Hrun. unfold step_bind at 1 in Hrun.
  destruct (export_question qIndex question fd) as [e|[questionCopy fd1]] eqn:Hq; [done|].
  apply export_question_spec in Hq as [Hgrow1 Harch]; [|done].
  unfold step_bind at 1 in Hrun.
  destruct (export_questions (S qIndex) questions fd1) as [e|[copies' fd2]] eqn:Hrest; [done|].
  injection Hrun as <- <-.
  apply IH in Hrest as [Hgrow2 Hcopies]; [|by destruct Hgrow1].
  split.
  - pose proof (grows_trans _ _ _ _ _ _ _ Hgrow1 Hgrow2) as Hgrow.
    by replace (qIndex + length (question :: questions), 0)
      with (S qIndex + length questions, 0) by (cbn [length]; f_equal; lia).
  - constructor; [|done].
    eapply question_archived_mono; [|done]. by destruct Hgrow2 as (_ & ? & _).
Qed.

Lemma export_image_resolves job image fd :
  (∀ data, image = Some data → String.prefix "data:" data = true →
           ∃ blob, base64ToBlob data = inr blob) →
  ∃ out, export_image job image fd = inr out.
Proof.
  intros Hdecodes. unfold ExportService.export_image. destruct image as [data|]; [|by eexists].
  destruct (String.prefix "data:" data) eqn:Hdata; [|by eexists].
  unfold step_bind, ExportService.add_file.
  destruct (Hdecodes data eq_refl Hdata) as [blob ->]. by eexists.
Qed.

(** When every data-URL image decodes, the steps of the export resolve. *)
Lemma export_options_resolves qIndex optIndex opts fd :
  (∀ opt data, opt ∈ opts → opt_image opt = Some data → String.prefix "data:" data = true →
               ∃ blob, base64ToBlob data = inr blob) →
  ∃ out, export_options qIndex optIndex opts fd = inr out.
Proof.
  revert optIndex fd. induction opts as [|opt opts IH]; intros optIndex fd Hdecodes.
  { by eexists. }
  cbn [ExportService.export_options]. unfold step_bind at 1.
  destruct (export_image_resolves (OptionImage qIndex optIndex) (opt_image opt) fd)
    as [[image fd1] ->].
  { intros data. apply Hdecodes, list_elem_of_here. }
  unfold step_bind at 1. destruct (IH (S optIndex) fd1) as [[copies fd2] ->]; [|by eexists].
  intros opt' data Hin. by apply Hdecodes, list_elem_of_further.
Qed.

Lemma data_url_images_own question data :
  image question = Some data → String.prefix "data:" data = true →
  data ∈ data_url_images question.
Proof.
  intros Himage Hdata. unfold data_url_images. apply list_elem_of_filter.
  split; [by apply Is_true_true|]. rewrite Himage. apply list_elem_of_here.
Qed.

Lemma data_url_images_option question opt data :
  opt ∈ options question → opt_image opt = Some data → String.prefix "data:" data = true →
  data ∈ data_url_images question.
Proof.
  intros Hopt Himage Hdata. unfold data_url_images. apply list_elem_of_filter.
  split; [by apply Is_true_true|]. apply elem_of_app. right.
  apply list_elem_of_omap. by exists opt.
Qed.

Lemma export_questions_resolves qIndex questions fd :
  Forall (λ data, ∃ blob, base64ToBlob data = inr blob) (questions ≫= data_url_images) →
  ∃ out, export_questions qIndex questions fd = inr out.
Proof.
  revert qIndex fd.
  induction questions as [|question questions IH]; intros qIndex fd Hdecodes.
  { by eexists. }
  rewrite bind_cons in Hdecodes. apply Forall_app in Hdecodes as [Hq Hqs].
  rewrite Forall_forall in Hq.
  cbn [ExportService.export_questions]. unfold step_bind at 1.
  assert (∃ out, export_question qIndex question fd = inr out) as [[questionCopy fd1] ->].
  { unfold ExportService.export_question. unfold step_bind at 1.
    destruct (export_image_resolves (QuestionImage qIndex) (image question) fd)
      as [[image fd1] ->].
    { intros data Himage Hdata. by apply Hq, data_url_images_own. }
    unfold step_bind at 1.
    destruct (options question) as [|opt opts] eqn:Hopts; [by eexists|].
    destruct (export_options_resolves qIndex 0 (opt :: opts) fd1) as [[copies fd2] ->];
      [|by eexists].
    intros opt' data Hin Himage Hdata. apply Hq.
    apply (data_url_images_option question opt'); [by rewrite Hopts|done|done]. }
  unfold step_bind at 1. destruct (IH (S qIndex) fd1 Hqs) as [[copies fd2] ->]. by eexists.
Qed.

(** X13.  When the folder can be made, every data-URL image of the
    questions (their own and those of their options) decodes and the
    archive can be generated, the export resolves to an archive that holds
    one file for each data-URL image, as many as the upload counts as
    [totalImages]; [questions.json] lists the questions in their order,
    and in it every data-URL image, of a question or of an option, is
    replaced by the path [images/<name>] of a file of the archive that
    holds this image decoded, while every other image, and the text and
    the marks, are kept. *)
Theorem export_zip_holds_every_image questions sourceName :
  folder = true → generateAsync = None →
  Forall (λ data, ∃ blob, base64ToBlob data = inr blob) (questions ≫= data_url_images) →
  ∃ zip, createExportZip atob entropy folder generateAsync questions sourceName = inr zip
    ∧ size (zip_images zip) = totalImages questions
    ∧ Forall2 (question_archived (zip_images zip)) questions (questions_json zip).
Proof.
  intros -> -> Hdecodes. unfold createExportZip. cbn [negb].
  destruct (export_questions_resolves 0 questions (mkFolder ∅ 0) Hdecodes) as [[copies fd] Hrun].
  rewrite Hrun. eexists. split; [done|]. cbn [zip_images questions_json].
  apply export_questions_spec in Hrun as [(_ & _ & Hsize) Hcopies].
  - split; [|done]. rewrite Hsize. cbn [files]. rewrite map_size_empty.
    by rewrite totalImages_sum.
  - intros name [blob Hname]. cbn in Hname. by rewrite lookup_empty in Hname.
Qed.

End ArchiveFacts.

Lemma export_zip_holds_every_image_witness :
  Forall (λ data, ∃ blob, ExportService.base64ToBlob Samples.atob data = inr blob)
    (Samples.export_questions ≫= ExportService.data_url_images)
  ∧ ∃ zip,
      ExportService.createExportZip Samples.atob
        (λ _, ExportService.mkEntropy 1700 "k3x9qa") true None
        Samples.export_questions "paper.pdf" = inr zip
      ∧ size (ExportService.zip_images zip) = 4.
Proof.
  assert (Hdecodes : Forall (λ data, ∃ blob,
                        ExportService.base64ToBlob Samples.atob data = inr blob)
                       (Samples.export_questions ≫= ExportService.data_url_images)).
  { repeat constructor; eexists; reflexivity. }
  split; [exact Hdecodes|].
  destruct (export_zip_holds_every_image Samples.atob
              (λ _, ExportService.mkEntropy 1700 "k3x9qa") true None
              Samples.export_questions "paper.pdf" eq_refl eq_refl Hdecodes)
    as (zip & Hzip & Hsize & _).
  exists zip. split; [exact Hzip|exact Hsize].
Defined.


Section StringFacts.
Import JsString.

Lemma string_app_cons c (a b : string) : String c a +:+ b = String c (a +:+ b).
Proof. done. Qed.

Lemma string_app_nil_r (a : string) : a +:+ "" = a.
Proof. induction a as [|c a IH]; [done|]. by rewrite string_app_cons, IH. Qed.

Lemma prefix_app (sep rest : string) : String.prefix sep (sep +:+ rest) = true.
Proof.
  induction sep as [|c sep IH]; [by destruct rest|].
  rewrite string_app_cons. cbn [String.prefix]. by destruct (ascii_dec c c).
Qed.

Lemma prefix_first c sep d s : d ≠ c → String.prefix (String c sep) (String d s) = false.
Proof. intros Hne. cbn [String.prefix]. destruct (ascii_dec c d); [by subst|done]. Qed.

Lemma split_go_nonempty sep skip s : split_go sep skip s ≠ [].
Proof.
  revert skip. induction s as [|c s IH]; intros skip; [done|].
  cbn [split_go]. destruct skip; [|by apply IH].
  destruct (String.prefix sep (String c s)); [done|].
  by destruct (split_go sep 0 s).
Qed.

(** Behind an occurrence the search resumes after the separator. *)
Lemma split_go_skip sep (passed rest : string) :
  split_go sep (String.length passed) (passed +:+ rest) = split_go sep 0 rest.
Proof.
  induction passed as [|c passed IH]; [by destruct rest|].
  by rewrite string_app_cons.
Qed.

Lemma split_at_separator c sep rest :
  split (String c sep) (String c sep +:+ rest) = "" :: split (String c sep) rest.
Proof.
  unfold split. rewrite string_app_cons. cbn [split_go].
  rewrite <- string_app_cons, prefix_app.
  cbn [String.length Nat.sub]. rewrite ?Nat.sub_0_r. by rewrite split_go_skip.
Qed.

(** A text in which the first code unit of the separator does not occur
    is passed over in one piece. *)
Lemma split_before_separator c sep (pre rest : string) :
  occurs c pre = false →
  split (String c sep) (pre +:+ rest)
  = match split (String c sep) rest with
    | piece :: pieces => (pre +:+ piece) :: pieces
    | [] => []
    end.
Proof.
  unfold split. induction pre as [|d pre IH]; intros Hpre.
  { change ("" +:+ rest) with rest. by destruct (split_go _ 0 rest). }
  cbn [occurs] in Hpre. apply orb_false_iff in Hpre as [Hd Hpre].
  apply bool_decide_eq_false in Hd.
  rewrite string_app_cons. cbn [split_go]. rewrite prefix_first by done.
  rewrite (IH Hpre).
  destruct (split_go _ 0 rest) eqn:Hrest; [by apply split_go_nonempty in Hrest|done].
Qed.

Lemma split_absent c sep (s : string) :
  occurs c s = false → split (String c sep) s = [s].
Proof.
  intros Hs. rewrite <- (string_app_nil_r s) at 1.
  rewrite split_before_separator by done. cbn. by rewrite string_app_nil_r.
Qed.

Lemma includes_app sep (pre rest : string) :
  includes sep rest = true → includes sep (pre +:+ rest) = true.
Proof.
  intros Hrest. induction pre as [|d pre IH]; [done|].
  rewrite string_app_cons. cbn [includes]. rewrite IH. apply orb_true_r.
Qed.

Lemma includes_unfold sep s :
  includes sep s
  = String.prefix sep s || match s with EmptyString => false | String _ s' => includes sep s' end.
Proof. by destruct s. Qed.

Lemma includes_prefix sep rest : includes sep (sep +:+ rest) = true.
Proof. by rewrite includes_unfold, prefix_app. Qed.

Lemma includes_absent c sep (s : string) :
  occurs c s = false → includes (String c sep) s = false.
Proof.
  induction s as [|d s IH]; [done|]. cbn [occurs includes].
  intros [Hd Hs]%orb_false_iff. apply bool_decide_eq_false in Hd.
  rewrite prefix_first by done. by apply IH.
Qed.

Lemma occurs_app c (a b : string) : occurs c (a +:+ b) = occurs c a || occurs c b.
Proof.
  induction a as [|d a IH]; [done|].
  rewrite string_app_cons. cbn [occurs]. by rewrite IH, orb_assoc.
Qed.

End StringFacts.

Section BlobFacts.
Import JsString ExportService.
Variable atob : option string → Js.Error + string.

Lemma until_semicolon_group (group rest : string) :
  occurs ";" group = false → has_line_terminator group = false →
  until_semicolon (group +:+ String ";" rest) = Some group.
Proof.
  induction group as [|c group IH]; [done|].
  cbn [occurs has_line_terminator]. intros [Hc Hgroup]%orb_false_iff [Hl Hline]%orb_false_iff.
  rewrite string_app_cons. cbn [until_semicolon]. rewrite Hc, Hl, IH by done. done.
Qed.

Lemma kept_as_written_spec (type : string) :
  kept_as_written type = true → all_in_type_range type = true ∧ ascii_lowercase type = type.
Proof.
  induction type as [|c type IH]; [done|].
  cbn [kept_as_written all_in_type_range ascii_lowercase].
  intros [[Hrange Hupper]%andb_true_iff Hrest]%andb_true_iff.
  destruct (IH Hrest) as [-> ->]. rewrite Hrange. split; [done|].
  unfold to_ascii_lower. apply negb_true_iff in Hupper. by rewrite Hupper.
Qed.

Lemma kept_as_written_normalized (type : string) :
  kept_as_written type = true → normalized_type type = type.
Proof. unfold normalized_type. by intros [-> ->]%kept_as_written_spec. Qed.

(** X14.  A data URL [data:<type>;base64,<payload>] whose type has no
    comma, semicolon or line break and whose payload has no comma becomes
    a blob of the decoded payload; what [atob] throws is thrown.  The type
    of the blob is the type of the URL as the [Blob] constructor
    normalises it, in lower case, or empty when it holds a code unit
    outside U+0020..U+007E; an empty type in the URL gives [image/png].
    So a type written in lower-case printable characters is kept as it is
    written. *)
Theorem blob_of_a_data_url (type payload : string) :
  occurs "," type = false → occurs ";" type = false →
  has_line_terminator type = false → occurs "," payload = false →
  base64ToBlob atob ("data:" +:+ type +:+ ";base64," +:+ payload)
  = match atob (Some payload) with
    | inl e => inl e
    | inr byteString =>
        inr (mkBlob byteString
               (if String.eqb type "" then "image/png" else normalized_type type))
    end
  ∧ (kept_as_written type = true → normalized_type type = type).
Proof.
  intros Hcomma Hsemi Hline Hpayload. split; [|apply kept_as_written_normalized].
  unfold base64ToBlob.
  assert (Hsplit : split "," ("data:" +:+ type +:+ ";base64," +:+ payload)
                   = ["data:" +:+ type +:+ ";base64"; payload]).
  { assert (Hcut : "data:" +:+ type +:+ ";base64," +:+ payload
                    = ("data:" +:+ type +:+ ";base64") +:+ ("," +:+ payload))
      by (by rewrite !string_app_assoc).
    rewrite Hcut.
    rewrite split_before_separator.
    - rewrite split_at_separator, split_absent by done. by rewrite string_app_nil_r.
    - rewrite !occurs_app, Hcomma. done. }
  rewrite Hsplit. cbn [lookup list_lookup mbind option_bind].
  assert (Htype : match_content_type ("data:" +:+ type +:+ ";base64") = Some type).
  { change ("data:" +:+ type +:+ ";base64")
      with (String "d" (String "a" (String "t" (String "a"
              (String ":" (type +:+ String ";" "base64")))))).
    cbn [match_content_type].
    rewrite !bool_decide_eq_false_2 by discriminate.
    rewrite bool_decide_eq_true_2 by done.
    by rewrite until_semicolon_group. }
  rewrite Htype. destruct (atob (Some payload)); [done|].
  destruct (String.eqb type ""); done.
Qed.

End BlobFacts.

Lemma blob_of_a_data_url_witness :
  ExportService.base64ToBlob Samples.atob "data:IMAGE/PNG;base64,QUJD"
  = inr (ExportService.mkBlob "QUJD" "image/png").
Proof.
  apply (blob_of_a_data_url Samples.atob "IMAGE/PNG" "QUJD"); reflexivity.
Defined.


Section FenceFacts.
Import Js JsString GeminiTextService.

Lemma prefix_cons c sep d (s : string) :
  String.prefix (String c sep) (String d s)
  = if ascii_dec c d then String.prefix sep s else false.
Proof. done. Qed.

Lemma split_includes c sep (s : string) :
  includes (String c sep) s = true → ∃ p q rest, split (String c sep) s = p :: q :: rest.
Proof.
  unfold split. induction s as [|d s IH]; [done|].
  cbn [includes split_go]. destruct (String.prefix (String c sep) (String d s)) eqn:Hp.
  - intros _. destruct (split_go (String c sep) (String.length (String c sep) - 1) s) as [|q rest] eqn:Hq.
    + by apply split_go_nonempty in Hq.
    + by eexists _, _, _.
  - cbn [orb]. intros (p & q & rest & ->)%IH. by eexists _, _, _.
Qed.

Lemma split_first sep (s : string) : ∃ p rest, split sep s = p :: rest.
Proof.
  destruct (split sep s) as [|p rest] eqn:Hs; [by apply split_go_nonempty in Hs|].
  by eexists _, _.
Qed.

(** The text behind a fence that is not followed by a backtick is cut
    by [```json] either at once or behind the fence. *)
Lemma split_json_behind_fence (post : string) :
  String.prefix "`" post = false →
  ∃ p rest, split "```json" ("```" +:+ post) = p :: rest
    ∧ (p = "" ∨ ∃ r, p = "```" +:+ r).
Proof.
  intros Hpost. unfold split.
  change ("```" +:+ post) with (String "`" (String "`" (String "`" post))).
  cbn [split_go].
  destruct (String.prefix "```json" (String "`" (String "`" (String "`" post)))) eqn:H0.
  { eexists _, _. split; [done|]. by left. }
  assert (Hnext : String.prefix "`json" post = false).
  { destruct post as [|d post]; [done|]. rewrite prefix_cons in Hpost |- *.
    destruct (ascii_dec "`" d); [|done]. by destruct post. }
  assert (H1 : String.prefix "```json" (String "`" (String "`" post)) = false).
  { rewrite !prefix_cons. repeat (destruct (ascii_dec _ _); [|done]).
    destruct post as [|d post]; [done|]. rewrite prefix_cons in Hpost |- *.
    destruct (ascii_dec "`" d); [|done]. by destruct post. }
  assert (H2 : String.prefix "```json" (String "`" post) = false).
  { rewrite prefix_cons. destruct (ascii_dec _ _); [|done].
    destruct post as [|d post]; [done|]. rewrite prefix_cons in Hpost |- *.
    destruct (ascii_dec "`" d); [|done]. by destruct post. }
  rewrite H1, H2.
  destruct (split_go "```json" 0 post) as [|p rest] eqn:Hp;
    [by apply split_go_nonempty in Hp|].
  eexists _, _. split; [done|]. right. by exists p.
Qed.


(** X15.  The JSON of an answer is what stands inside its fence, trimmed:
    for a fence [```json] that is closed, or left open, and for a plain
    fence [```] when the answer has no [```json]; the text before the
    fence and the text behind it are dropped.  An answer without a
    backtick is taken as it is, untrimmed.  Here the text before the fence
    and the text inside have no backtick, and the text behind the closing
    fence does not start with one.  No answer makes the extraction
    throw. *)
Theorem fenced_answer_is_unwrapped (pre body post : string) :
  occurs "`" pre = false → occurs "`" body = false → String.prefix "`" post = false →
  extract_json (pre +:+ "```json" +:+ body +:+ "```" +:+ post) = inr (trim body)
  ∧ extract_json (pre +:+ "```json" +:+ body) = inr (trim body)
  ∧ (includes "```json" (pre +:+ "```" +:+ body +:+ "```" +:+ post) = false →
     extract_json (pre +:+ "```" +:+ body +:+ "```" +:+ post) = inr (trim body))
  ∧ extract_json pre = inr pre
  ∧ ∀ text, ∃ jsonText, extract_json text = inr jsonText.
Proof.
  intros Hpre Hbody Hpost.
  assert (Hinside : ∀ p, p = "" ∨ (∃ r, p = "```" +:+ r) →
            piece (split "```" (body +:+ p)) 0 = inr body).
  { intros p Hp. rewrite split_before_separator by done.
    destruct Hp as [->|[r ->]].
    - change (split "```" "") with [""]. cbn [piece lookup list_lookup].
      by rewrite string_app_nil_r.
    - rewrite split_at_separator. cbn [piece lookup list_lookup].
      by rewrite string_app_nil_r. }
  split_and!.
  - unfold extract_json.
    rewrite includes_app by apply includes_prefix.
    unfold between_fences.
    rewrite split_before_separator, split_at_separator by done.
    rewrite split_before_separator by done.
    destruct (split_json_behind_fence post Hpost) as (p & rest & -> & Hp).
    cbn [piece lookup list_lookup]. by rewrite Hinside.
  - unfold extract_json.
    rewrite includes_app by apply includes_prefix.
    unfold between_fences.
    rewrite split_before_separator, split_at_separator by done.
    rewrite (split_absent _ _ body) by done.
    cbn [piece lookup list_lookup].
    rewrite <- (string_app_nil_r body) at 1. rewrite Hinside by (by left). done.
  - intros Hnojson. unfold extract_json. rewrite Hnojson.
    rewrite includes_app by apply includes_prefix.
    unfold between_fences.
    rewrite split_before_separator, split_at_separator by done.
    rewrite split_before_separator, split_at_separator by done.
    cbn [piece lookup list_lookup]. rewrite string_app_nil_r.
    rewrite <- (string_app_nil_r body) at 1. rewrite Hinside by (by left). done.
  - unfold extract_json. by rewrite !includes_absent.
  - intros text. unfold extract_json, between_fences.
    assert (Hfence : ∀ c sep, includes (String c sep) text = true →
              ∃ jsonText,
                match piece (split (String c sep) text) 1 with
                | inl e => inl e
                | inr after =>
                    match piece (split "```" after) 0 with
                    | inl e => inl e
                    | inr inside => inr (trim inside)
                    end
                end = inr jsonText).
    { intros c sep (p & q & rest & ->)%split_includes. cbn [piece lookup list_lookup].
      destruct (split_first "```" q) as (p' & rest' & ->). by eexists. }
    destruct (includes "```json" text) eqn:Hjson; [by apply Hfence|].
    destruct (includes "```" text) eqn:Hplain; [by apply Hfence|].
    by eexists.
Qed.

End FenceFacts.

Lemma fenced_answer_is_unwrapped_witness :
  GeminiTextService.extract_json
    ("Here are the questions: " +:+ "```json" +:+ " { } " +:+ "```" +:+ " Done.")
  = inr (JsString.trim " { } ").
Proof.
  apply (fenced_answer_is_unwrapped "Here are the questions: " " { } " " Done.");
    reflexivity.
Defined.


Section TextParserFacts.
Import Types Js GeminiTextService.
Variable VITE_GEMINI_API_KEY : option string.
Variable generateContent : string → Error + string.
Variable JSON_parse : string → Error + option (list OracleClient.RawQuestion).

Local Abbreviation parseQuestionsWithGemini :=
  (parseQuestionsWithGemini VITE_GEMINI_API_KEY generateContent JSON_parse).

(** X16.  The text parser calls the service at most once, with the text
    it was given, and never without a key.  Every question it returns is
    stamped with the source, selected, without an image and with a
    standard, and the last line it logs tells their number.  When it
    throws, either the key is missing and nothing was logged, or the last
    line logged reports the failure at level [error] and the error thrown
    carries the message of the failure behind
    [Failed to process with Gemini: ]: the caller never sees the error of
    the service or of [JSON.parse] itself. *)
Theorem text_parser_outcomes textContent sourceName :
  (calls (trace (parseQuestionsWithGemini textContent sourceName))
   = if GeminiService.truthy VITE_GEMINI_API_KEY then [textContent] else [])
  ∧ (∀ qs, result (parseQuestionsWithGemini textContent sourceName) = inr qs →
       Forall (λ q, source q = sourceName ∧ isSelected q = true ∧ isActive q = true
                    ∧ image q = None ∧ hasImage q = Some false ∧ is_Some (standard q)) qs
       ∧ last (logged (trace (parseQuestionsWithGemini textContent sourceName)))
         = Some (mkLog ("Extracted " +:+ pretty (length qs) +:+ " questions") info))
  ∧ (∀ e, result (parseQuestionsWithGemini textContent sourceName) = inl e →
       (GeminiService.truthy VITE_GEMINI_API_KEY = false
        ∧ e = mkError "Gemini API Key is missing."
        ∧ trace (parseQuestionsWithGemini textContent sourceName) = [])
       ∨ (∃ cause,
            e = mkError ("Failed to process with Gemini: " +:+ cause)
            ∧ last (logged (trace (parseQuestionsWithGemini textContent sourceName)))
              = Some (mkLog ("Gemini API Error: " +:+ cause) Js.error))).
Proof.
  unfold GeminiTextService.parseQuestionsWithGemini.
  destruct (GeminiService.truthy VITE_GEMINI_API_KEY) eqn:Hkey; cbn [negb].
  2:{ split_and!; [done|done|]. intros e [= <-]. by left. }
  unfold bind, try_catch, log, emit, throw, ret.
  destruct (generateContent textContent) as [e0|text].
  { split_and!; [done|done|]. intros e [= <-]. right. by exists (err_message e0). }
  destruct (extract_json text) as [e0|jsonText].
  { split_and!; [done|done|]. intros e [= <-]. right. by exists (err_message e0). }
  destruct (JSON_parse jsonText) as [e0|parsed].
  { split_and!; [done|done|]. intros e [= <-]. right. by exists (err_message e0). }
  split_and!; [done| |done].
  intros qs [= <-]. split; [|done].
  apply Forall_fmap, Forall_forall. intros r _. cbn. split_and!; done.
Qed.

End TextParserFacts.

Section PageImageFacts.
Import JsString.

(** X17.  The cropper rebuilds the data URL that the page renderer
    stripped: of a JPEG data URL whose payload has no comma and does not
    start with [data:], the renderer keeps the payload, and the source the
    cropper loads for this payload is the data URL again. *)
Theorem page_image_round_trip (payload : string) :
  occurs "," payload = false → String.prefix "data:" payload = false →
  PdfService.base64Data ("data:image/jpeg;base64," +:+ payload) = Some payload
  ∧ ImageUtils.image_src payload = "data:image/jpeg;base64," +:+ payload.
Proof.
  intros Hcomma Hdata. split.
  - unfold PdfService.base64Data.
    change ("data:image/jpeg;base64," +:+ payload)
      with ("data:image/jpeg;base64" +:+ ("," +:+ payload)).
    rewrite split_before_separator by done.
    rewrite split_at_separator, split_absent by done. done.
  - unfold ImageUtils.image_src. by rewrite Hdata.
Qed.

End PageImageFacts.

Lemma page_image_round_trip_witness :
  PdfService.base64Data ("data:image/jpeg;base64," +:+ "AAAA") = Some "AAAA"
  ∧ ImageUtils.image_src "AAAA" = "data:image/jpeg;base64," +:+ "AAAA".
Proof. apply page_image_round_trip; reflexivity. Defined.


Section QuestionCardEdits.
Import Types QuestionCard.
Implicit Types (store : Store) (l : loc).

(** X18.  Choosing the correct option of an [mcq] question writes into the
    option objects of the question the card was given, not into copies:
    every object that stands at another index of that question reads
    [isCorrect: false] afterwards, so the question the caller still holds
    has changed too.  The object at the chosen index, when it stands
    nowhere else in the question, and the objects outside the question are
    left as they were. *)
Theorem mcq_choice_writes_into_the_old_options store (question : QuestionOf loc) optIndex :
  type question = mcq →
  (∀ j l o, j ≠ optIndex → options question !! j = Some l → store !! l = Some o →
     (handleOptionChange store question optIndex (SetIsCorrect true)).1 !! l
     = Some (clear_correct o))
  ∧ (∀ l o, (∀ j, options question !! j = Some l → j = optIndex) → store !! l = Some o →
       (handleOptionChange store question optIndex (SetIsCorrect true)).1 !! l = Some o).
Proof.
  intros Hmcq. unfold handleOptionChange. rewrite Hmcq. cbn [clears fst].
  set (l0 := fresh (dom store)).
  set (old := default empty_object (options question !! optIndex ≫= (store !!.))).
  set (arr := array_set (Some <$> options question) optIndex l0).
  assert (Harr : ∀ j l, j ≠ optIndex → options question !! j = Some l →
            arr !! j = Some (Some l)).
  { intros j l Hj Hl. unfold arr, array_set. case_decide.
    - rewrite list_lookup_insert_ne by done. by rewrite list_lookup_fmap, Hl.
    - rewrite lookup_app_l by (rewrite length_fmap; by eapply lookup_lt_Some).
      by rewrite list_lookup_fmap, Hl. }
  assert (Hold : ∀ l o, store !! l = Some o →
            <[l0 := assign old (SetIsCorrect true)]> store !! l = Some o).
  { intros l o Ho. rewrite lookup_insert_ne; [done|].
    intros <-. by apply (fresh_not_allocated store o). }
  split.
  - intros j l o Hj Hl Ho.
    rewrite (clear_others_touched _ _ _ _ _ j) by (by apply Harr || lia).
    by rewrite (Hold l o Ho).
  - intros l o Honly Ho. rewrite clear_others_untouched; [by apply Hold|].
    intros j Hj. destruct (decide (j = optIndex)) as [|Hne]; [done|].
    apply array_set_lookup_ne in Hj; [|done].
    apply list_lookup_fmap_Some in Hj as (l' & [= <-] & Hl). by apply Honly.
Qed.

(** X19.  An edit of an option that is not the choice of the correct
    option of an [mcq] question (a text, an image, a mark on another type
    of question) changes one slot only: the slot at the index holds a new
    object, the old one with the field set; every other slot holds the
    object it held, no existing object is written to, and the fields of
    the question are kept.  At an index past the end the array grows to
    reach it, with holes in between, and the new object starts empty. *)
Theorem other_edits_replace_one_option store (question : QuestionOf loc) optIndex c :
  clears c (type question) = false →
  (∀ l o, store !! l = Some o →
     (handleOptionChange store question optIndex c).1 !! l = Some o)
  ∧ (∀ j l, j ≠ optIndex → options question !! j = Some l →
       options (handleOptionChange store question optIndex c).2 !! j = Some (Some l))
  ∧ (∃ l', options (handleOptionChange store question optIndex c).2 !! optIndex
           = Some (Some l')
         ∧ store !! l' = None
         ∧ (handleOptionChange store question optIndex c).1 !! l'
           = Some (assign (default empty_object
                             (options question !! optIndex ≫= (store !!.))) c))
  ∧ (optIndex < length (options question) →
     length (options (handleOptionChange store question optIndex c).2)
     = length (options question))
  ∧ (length (options question) ≤ optIndex →
     length (options (handleOptionChange store question optIndex c).2) = S optIndex
     ∧ (∀ j, length (options question) ≤ j < optIndex →
          options (handleOptionChange store question optIndex c).2 !! j = Some None)
     ∧ (handleOptionChange store question optIndex c).1 !! fresh (dom store)
       = Some (assign empty_object c))
  ∧ text (handleOptionChange store question optIndex c).2 = text question
  ∧ type (handleOptionChange store question optIndex c).2 = type question
  ∧ image (handleOptionChange store question optIndex c).2 = image question
  ∧ isSelected (handleOptionChange store question optIndex c).2 = isSelected question.
Proof.
  intros Hclear. unfold handleOptionChange. rewrite Hclear.
  cbn [fst snd with_options options text type image isSelected].
  split_and!; try done.
  - intros l o Ho. rewrite lookup_insert_ne; [done|].
    intros <-. by apply (fresh_not_allocated store o).
  - intros j l Hj Hl. unfold array_set. case_decide.
    + rewrite list_lookup_insert_ne by done. by rewrite list_lookup_fmap, Hl.
    + rewrite lookup_app_l by (rewrite length_fmap; by eapply lookup_lt_Some).
      by rewrite list_lookup_fmap, Hl.
  - exists (fresh (dom store)). split_and!.
    + apply array_set_lookup.
    + apply eq_None_not_Some. intros [o Ho]. by apply (fresh_not_allocated store o).
    + by rewrite lookup_insert_eq.
  - intros Hlt. rewrite array_set_length by (by rewrite length_fmap). by rewrite length_fmap.
  - intros Hge. unfold array_set. rewrite decide_False by (rewrite length_fmap; lia).
    split_and!.
    + rewrite !length_app, length_replicate, length_fmap. cbn. lia.
    + intros j [Hj1 Hj2]. rewrite lookup_app_r by (rewrite length_fmap; lia).
      rewrite length_fmap. rewrite lookup_app_l by (rewrite length_replicate; lia).
      apply lookup_replicate. split; [done|lia].
    + rewrite lookup_insert_eq. rewrite (lookup_ge_None_2 (options question)) by lia. done.
Qed.

End QuestionCardEdits.

Lemma mcq_choice_writes_into_the_old_options_witness :
  (QuestionCard.handleOptionChange Samples.store Samples.card_question 0
     (QuestionCard.SetIsCorrect true)).1 !! 2%positive
  = Some (QuestionCard.clear_correct (Samples.option_with None true)).
Proof.
  apply (proj1 (mcq_choice_writes_into_the_old_options Samples.store Samples.card_question 0
                  eq_refl) 1 2%positive (Samples.option_with None true));
    [discriminate|reflexivity|reflexivity].
Defined.

Lemma other_edits_replace_one_option_witness :
  (QuestionCard.handleOptionChange Samples.store Samples.card_question 1
     (QuestionCard.SetImage (Some "data:image/png;base64,AAAA"))).1 !! 2%positive
  = Some (Samples.option_with None true).
Proof.
  apply (proj1 (other_edits_replace_one_option Samples.store Samples.card_question 1
                  (QuestionCard.SetImage (Some "data:image/png;base64,AAAA")) eq_refl)
           2%positive (Samples.option_with None true)).
  reflexivity.
Defined.


Section ExportNameFacts.
Import JsString App.

Lemma is_extension_no_dot (s : string) : is_extension s = true → occurs "." s = false.
Proof.
  induction s as [|c s IH]; [done|]. cbn [is_extension occurs].
  intros [Hc Hs]%andb_true_iff. apply negb_true_iff, orb_false_iff in Hc as [_ Hc].
  rewrite Hc. cbn [orb]. destruct s as [|d s]; [done|]. by apply IH.
Qed.

Lemma remove_extension_no_dot (s : string) : occurs "." s = false → remove_extension s = s.
Proof.
  induction s as [|c s IH]; [done|]. cbn [occurs remove_extension].
  intros [Hc Hs]%orb_false_iff. rewrite Hc. cbn [andb]. by rewrite IH.
Qed.

(** X20.  The archive is named after the source without its last
    extension: a last dot followed by one or more characters other than a
    dot or a slash is cut with what follows it, whatever stands before
    (dots and slashes included); a name without a dot, and a name that ends
    with a dot, are kept whole. *)
Theorem export_name_drops_the_last_extension (base ext : string) :
  is_extension ext = true →
  export_filename (base +:+ "." +:+ ext) = base +:+ "_JEE_Export.zip"
  ∧ (occurs "." base = false → export_filename base = base +:+ "_JEE_Export.zip")
  ∧ export_filename (base +:+ ".") = (base +:+ ".") +:+ "_JEE_Export.zip".
Proof.
  intros Hext. unfold export_filename. split_and!.
  - f_equal. induction base as [|c base IH].
    + change ("" +:+ "." +:+ ext) with (String "." ext). cbn [remove_extension].
      by rewrite bool_decide_eq_true_2, Hext.
    + rewrite string_app_cons. cbn [remove_extension]. rewrite IH.
      destruct (bool_decide (c = "."%char)); [|done]. cbn [andb].
      assert (is_extension (base +:+ "." +:+ ext) = false) as ->; [|done].
      apply not_true_iff_false. intros Hdot%is_extension_no_dot.
      rewrite occurs_app in Hdot. apply orb_false_iff in Hdot as [_ Hdot]. done.
  - intros Hbase. by rewrite remove_extension_no_dot.
  - f_equal. induction base as [|c base IH]; [done|].
    rewrite string_app_cons. cbn [remove_extension]. rewrite IH.
    destruct (bool_decide (c = "."%char)); [|done]. cbn [andb].
    assert (is_extension (base +:+ ".") = false) as ->; [|done].
    apply not_true_iff_false. intros Hdot%is_extension_no_dot.
    rewrite occurs_app in Hdot. apply orb_false_iff in Hdot as [_ Hdot]. done.
Qed.

End ExportNameFacts.

Lemma export_name_drops_the_last_extension_witness :
  App.export_filename ("JEE.Main/2024.paper" +:+ "." +:+ "pdf")
  = "JEE.Main/2024.paper" +:+ "_JEE_Export.zip".
Proof. apply (export_name_drops_the_last_extension "JEE.Main/2024.paper" "pdf"). reflexivity. Defined.


Section MathDisplayFacts.
Import JsString QuestionCard.

Lemma closing_spec (s body : string) :
  closing s = Some body →
  ∃ rest, s = body +:+ String "$" rest
    ∧ occurs "$" body = false ∧ has_line_terminator body = false.
Proof.
  revert body. induction s as [|c s IH]; intros body; [done|]. cbn [closing].
  destruct (bool_decide (c = "$"%char)) eqn:Hc.
  { intros [= <-]. apply bool_decide_eq_true in Hc as ->. by exists s. }
  destruct (is_line_terminator c) eqn:Hl; [done|].
  destruct (closing s) as [body'|]; [|done]. intros [= <-].
  destruct (IH body' eq_refl) as (rest & -> & Hd & Hline).
  exists rest. cbn [occurs has_line_terminator]. by rewrite Hc, Hl, Hd, Hline.
Qed.

Lemma split_formulas_go_skip (passed rest : string) :
  split_formulas_go (String.length passed) (passed +:+ rest) = split_formulas_go 0 rest.
Proof.
  induction passed as [|c passed IH]; [by destruct rest|].
  by rewrite string_app_cons.
Qed.

Lemma string_length_app (a b : string) :
  String.length (a +:+ b) = String.length a + String.length b.
Proof. induction a as [|c a IH]; [done|]. rewrite string_app_cons. cbn. by rewrite IH. Qed.

Lemma join_empty_cons (part : string) parts :
  join "" (part :: parts) = part +:+ join "" parts.
Proof. destruct parts; [by rewrite string_app_nil_r|done]. Qed.

(** The split of a text, by the size of the text. *)
Lemma split_formulas_sound (n : nat) (s : string) :
  String.length s ≤ n →
  join "" (split_formulas s) = s ∧ interleaved (split_formulas s).
Proof.
  revert s. induction n as [|n IH]; intros s Hn.
  { destruct s; [|cbn in Hn; lia]. split; [done|constructor]. }
  destruct s as [|c s]; [split; [done|constructor]|].
  unfold split_formulas. cbn [split_formulas_go].
  destruct (if bool_decide (c = "$"%char) then closing s else None) as [body|] eqn:Hmatch.
  - destruct (bool_decide (c = "$"%char)) eqn:Hc; [|done].
    apply bool_decide_eq_true in Hc as ->.
    apply closing_spec in Hmatch as (rest & -> & Hd & Hline).
    assert (Hskip : split_formulas_go (S (String.length body)) (body +:+ String "$" rest)
                    = split_formulas_go 0 rest).
    { change (body +:+ String "$" rest) with (body +:+ ("$" +:+ rest)).
      rewrite <- string_app_assoc, <- (split_formulas_go_skip (body +:+ "$") rest).
      by rewrite string_length_app, Nat.add_1_r. }
    rewrite Hskip.
    destruct (IH rest) as [Hjoin Hparts].
    { cbn in Hn. rewrite string_length_app in Hn. cbn in Hn. lia. }
    split.
    + rewrite !join_empty_cons. fold (split_formulas rest). rewrite Hjoin.
      change ("" +:+ ?x) with x. rewrite string_app_cons. f_equal.
      by rewrite string_app_assoc.
    + constructor; [by exists body|done].
  - destruct (IH s) as [Hjoin Hparts]; [cbn in Hn; lia|].
    unfold split_formulas in Hjoin, Hparts.
    destruct (split_formulas_go 0 s) as [|part parts]; [by inversion Hparts|].
    split.
    + rewrite join_empty_cons in Hjoin |- *. by rewrite string_app_cons, Hjoin.
    + inversion Hparts; subst; by constructor.
Qed.

Lemma without_last_dollar (part : string) :
  endsWith_dollar part = true → without_last part +:+ "$" = part.
Proof.
  induction part as [|c part IH]; [done|]. destruct part as [|d part].
  - cbn. by intros ->%bool_decide_eq_true.
  - intros Hend. change (without_last (String c (String d part)))
      with (String c (without_last (String d part))).
    rewrite string_app_cons. f_equal. by apply IH.
Qed.

Lemma shown_render_part katex_throws (part : string) :
  part ≠ "$" → shown (render_part katex_throws part) = part.
Proof.
  intros Hpart. unfold render_part.
  destruct (String.prefix "$" part && endsWith_dollar part) eqn:Htest; [|done].
  destruct (katex_throws (slice_1_m1 part)); [done|].
  apply andb_true_iff in Htest as [Hstart Hend].
  destruct part as [|c part]; [done|]. rewrite prefix_cons in Hstart.
  destruct (ascii_dec "$" c) as [<-|]; [|done].
  destruct part as [|d part]; [done|].
  cbn [shown slice_1_m1]. f_equal. by apply without_last_dollar.
Qed.

Lemma interleaved_lookup parts i part :
  interleaved parts → parts !! (2 * i + 1) = Some part → is_formula part.
Proof.
  intros Hparts. revert i. induction Hparts as [text|text formula parts Hf _ IH]; intros i.
  - by destruct i.
  - destruct i as [|i]; [by intros [= <-]|].
    replace (2 * S i + 1) with (S (S (2 * i + 1))) by lia. apply IH.
Qed.

Lemma interleaved_length parts : interleaved parts → ∃ n, length parts = 2 * n + 1.
Proof.
  induction 1 as [text|text formula parts _ _ [n IH]]; [by exists 0|].
  exists (S n). cbn [length]. lia.
Qed.

(** X21.  The split of a text into texts and formulas loses nothing: the
    parts put together are the text.  The parts are, in turn, a text and a
    formula, starting and ending with a text (so their number is odd), and
    every formula is what the pattern matches: it stands between two [$]
    and has no [$] and no line break inside.  What is displayed stands for
    the whole text too, whether or not [katex] throws, unless a part is a
    [$] alone: this one is displayed as an empty formula (when [katex]
    takes the empty formula). *)
Theorem formula_split_loses_nothing (text : string) :
  join "" (split_formulas text) = text
  ∧ (∀ i part, split_formulas text !! (2 * i + 1) = Some part → is_formula part)
  ∧ (∃ n, length (split_formulas text) = 2 * n + 1)
  ∧ (∀ katex_throws,
       Forall (λ part, part ≠ "$") (split_formulas text) →
       join "" (shown <$> MathDisplay katex_throws text) = text)
  ∧ (∀ katex_throws, katex_throws "" = false → render_part katex_throws "$" = Formula "").
Proof.
  destruct (split_formulas_sound (String.length text) text (le_n _)) as [Hjoin Hparts].
  split_and!; [done|intros i part; by apply interleaved_lookup
              |by apply interleaved_length| |].
  2:{ intros katex_throws Hk. unfold render_part. cbn. by rewrite Hk. }
  intros katex_throws Hall. unfold MathDisplay. rewrite <- Hjoin at 2. f_equal.
  rewrite <- list_fmap_compose.
  rewrite <- (list_fmap_id (split_formulas text)) at 2.
  apply Forall_fmap_ext_1. eapply Forall_impl; [done|].
  intros part Hpart. by apply shown_render_part.
Qed.

End MathDisplayFacts.


Section UploadOrder.
Import Types ExportService.
Implicit Types (questions : list Question) (st : Run) (jobs : list Job).

Lemma option_jobs_elem qIndex optIndex opts job :
  job ∈ option_jobs qIndex optIndex opts ↔
  ∃ o opt, job = OptionImage qIndex o ∧ optIndex ≤ o
    ∧ opts !! (o - optIndex) = Some opt ∧ is_data_url (opt_image opt) = true.
Proof.
  revert optIndex. induction opts as [|opt opts IH]; intros optIndex.
  { split; [by intros ?%elem_of_nil|]. by intros (? & ? & _ & _ & ? & _). }
  cbn [option_jobs]. rewrite elem_of_app, IH. split.
  - intros [Hhead|(o & opt' & -> & Ho & Hopt & Hd)].
    + destruct (is_data_url (opt_image opt)) eqn:Hd; [|by apply elem_of_nil in Hhead].
      apply list_elem_of_singleton in Hhead as ->.
      exists optIndex, opt. rewrite Nat.sub_diag. done.
    + exists o, opt'. split_and!; [done|lia| |done].
      replace (o - optIndex) with (S (o - S optIndex)) by lia. done.
  - intros (o & opt' & -> & Ho & Hopt & Hd).
    destruct (decide (o = optIndex)) as [->|Hne].
    + left. rewrite Nat.sub_diag in Hopt. injection Hopt as <-. rewrite Hd.
      by apply list_elem_of_singleton.
    + right. exists o, opt'. split_and!; [done|lia| |done].
      replace (o - optIndex) with (S (o - S optIndex)) in Hopt by lia. done.
Qed.

Lemma option_jobs_NoDup qIndex optIndex opts : NoDup (option_jobs qIndex optIndex opts).
Proof.
  revert optIndex. induction opts as [|opt opts IH]; intros optIndex; [constructor|].
  cbn [option_jobs]. apply NoDup_app. split_and!; [|intros job Hjob|apply IH].
  - destruct (is_data_url (opt_image opt)); [apply NoDup_singleton|constructor].
  - destruct (is_data_url (opt_image opt)); [|by apply elem_of_nil in Hjob].
    apply list_elem_of_singleton in Hjob as ->.
    intros (o & opt' & [= <-] & Ho & _)%option_jobs_elem. lia.
Qed.

Lemma first_jobs_elem qIndex questions job :
  job ∈ first_jobs qIndex questions ↔
  match job with
  | QuestionImage q =>
      qIndex ≤ q ∧ ∃ question, questions !! (q - qIndex) = Some question
        ∧ is_data_url (image question) = true
  | OptionImage q o =>
      qIndex ≤ q ∧ ∃ question opt, questions !! (q - qIndex) = Some question
        ∧ is_data_url (image question) = false
        ∧ options question !! o = Some opt ∧ is_data_url (opt_image opt) = true
  end.
Proof.
  revert qIndex. induction questions as [|question questions IH]; intros qIndex.
  { split; [by intros ?%elem_of_nil|].
    destruct job; intros (_ & ? & Hex);
      [destruct Hex as [Hl _]|destruct Hex as (? & Hl & _)]; by rewrite lookup_nil in Hl. }
  cbn [first_jobs]. rewrite elem_of_app, IH. split.
  - intros [Hhead|Htail].
    + destruct (is_data_url (image question)) eqn:Hd.
      * apply list_elem_of_singleton in Hhead as ->. split; [done|].
        exists question. by rewrite Nat.sub_diag.
      * apply option_jobs_elem in Hhead as (o & opt & -> & _ & Hopt & Hdo).
        split; [done|]. exists question, opt. rewrite Nat.sub_diag, Nat.sub_0_r in *. done.
    + destruct job as [q|q o].
      * destruct Htail as (Hq & question' & Hlook & Hd). split; [lia|].
        exists question'. replace (q - qIndex) with (S (q - S qIndex)) by lia. done.
      * destruct Htail as (Hq & question' & opt & Hlook & Hrest). split; [lia|].
        exists question', opt. replace (q - qIndex) with (S (q - S qIndex)) by lia. done.
  - destruct job as [q|q o].
    + intros (Hq & question' & Hlook & Hd). destruct (decide (q = qIndex)) as [->|Hne].
      * left. rewrite Nat.sub_diag in Hlook. injection Hlook as <-. rewrite Hd.
        by apply list_elem_of_singleton.
      * right. split; [lia|]. exists question'.
        replace (q - qIndex) with (S (q - S qIndex)) in Hlook by lia. done.
    + intros (Hq & question' & opt & Hlook & Hd & Hopt & Hdo).
      destruct (decide (q = qIndex)) as [->|Hne].
      * left. rewrite Nat.sub_diag in Hlook. injection Hlook as <-. rewrite Hd.
        apply option_jobs_elem. exists o, opt. rewrite Nat.sub_0_r. split_and!; [done|lia|done|done].
      * right. split; [lia|]. exists question', opt.
        replace (q - qIndex) with (S (q - S qIndex)) in Hlook by lia. done.
Qed.

Lemma first_jobs_NoDup qIndex questions : NoDup (first_jobs qIndex questions).
Proof.
  revert qIndex. induction questions as [|question questions IH]; intros qIndex; [constructor|].
  cbn [first_jobs]. apply NoDup_app. split_and!; [|intros job Hjob|apply IH].
  - destruct (is_data_url (image question)); [apply NoDup_singleton|apply option_jobs_NoDup].
  - intros Htail%first_jobs_elem.
    destruct (is_data_url (image question)).
    + apply list_elem_of_singleton in Hjob as ->. destruct Htail as [? _]. lia.
    + apply option_jobs_elem in Hjob as (o & opt & -> & _). destruct Htail as [? _]. lia.
Qed.

Lemma orderly_start questions : orderly questions [] (first_jobs 0 questions).
Proof.
  unfold orderly. cbn [fmap list_fmap app]. split_and!.
  - apply first_jobs_NoDup.
  - apply Forall_forall. intros job Hjob%first_jobs_elem.
    destruct job as [q|q o]; rewrite Nat.sub_0_r in Hjob.
    + by destruct Hjob as (_ & question & ? & ?); exists question.
    + by destruct Hjob as (_ & question & opt & ? & _ & ? & ?); exists question, opt.
  - intros q o question Hjob%first_jobs_elem Hq Hd.
    destruct Hjob as (_ & question' & opt & Hq' & Hd' & _).
    rewrite Nat.sub_0_r in Hq'. congruence.
  - intros q o Hq%first_jobs_elem Ho%first_jobs_elem.
    destruct Hq as (_ & question & Hlook & Hd).
    destruct Ho as (_ & question' & opt & Hlook' & Hd' & _). congruence.
Qed.

Lemma resumed_elem questions job job' :
  job' ∈ resumed questions job →
  ∃ q o question opt, job = QuestionImage q ∧ job' = OptionImage q o
    ∧ questions !! q = Some question ∧ options question !! o = Some opt
    ∧ is_data_url (opt_image opt) = true.
Proof.
  destruct job as [q|q o]; cbn [resumed]; [|by intros ?%elem_of_nil].
  destruct (questions !! q) as [question|] eqn:Hq; [|by intros ?%elem_of_nil].
  intros (o & opt & -> & _ & Hopt & Hd)%option_jobs_elem. rewrite Nat.sub_0_r in Hopt.
  by exists q, o, question, opt.
Qed.

Lemma resumed_NoDup questions job : NoDup (resumed questions job).
Proof.
  destruct job as [q|q o]; cbn [resumed]; [|constructor].
  destruct (questions !! q); [apply option_jobs_NoDup|constructor].
Qed.

(** One settlement keeps the order. *)
Lemma orderly_settle questions onProgress total past st step job :
  inflight st !! step.1 = Some job →
  orderly questions past (inflight st) →
  orderly questions (past ++ [(job, step.2)])
    (inflight (settle questions onProgress total st step)).
Proof.
  intros Hjob (Hnodup & Hvalid & Hafter & Hwait).
  pose proof (delete_Permutation _ _ _ Hjob) as Hperm.
  set (others := delete step.1 (inflight st)) in *.
  assert (Hbase : (past ++ [(job, step.2)]).*1 ++ others ≡ₚ past.*1 ++ inflight st).
  { rewrite fmap_app, <- app_assoc. cbn [fmap list_fmap app]. by rewrite Hperm. }
  assert (Hin : ∀ job', job' ∈ (past ++ [(job, step.2)]).*1 ++ others ↔
                        job' ∈ past.*1 ++ inflight st).
  { intros job'. by rewrite Hbase. }
  assert (Hjob_in : job ∈ inflight st) by (by eapply list_elem_of_lookup_2).
  assert (Hothers : ∀ job', job' ∈ others → job' ∈ inflight st ∧ job' ≠ job).
  { intros job' Hjob'. split; [rewrite Hperm; by right|].
    intros ->. rewrite Hperm in Hnodup. apply NoDup_app in Hnodup as (_ & _ & Hnd).
    by apply NoDup_cons in Hnd as [? _]. }
  assert (Hstay : orderly questions (past ++ [(job, step.2)]) others).
  { split_and!.
    - by rewrite Hbase.
    - by rewrite Hbase.
    - intros q o question Ho%Hin Hq Hd. apply elem_of_app. left. by eapply Hafter.
    - intros q o Hq%Hothers Ho%Hin. destruct Hq as [Hq _]. by eapply Hwait. }
  unfold settle. rewrite Hjob. fold others.
  destruct (step.2) eqn:Hout; cbn [inflight]; [|done].
  destruct Hstay as (Hnodup' & Hvalid' & Hafter' & Hwait').
  split_and!.
  - rewrite app_assoc. apply NoDup_app. split_and!; [done| |apply resumed_NoDup].
    intros job' Hold%Hin (q & o & question & opt & -> & -> & _)%resumed_elem.
    by eapply Hwait.
  - rewrite app_assoc. apply Forall_app. split; [done|].
    apply Forall_forall. intros job' (q & o & question & opt & -> & -> & ? & ? & ?)%resumed_elem.
    by exists question, opt.
  - intros q o question Ho Hq Hd. rewrite app_assoc in Ho.
    apply elem_of_app in Ho as [Ho|Ho]; [by eapply Hafter'|].
    apply resumed_elem in Ho as (q' & o' & _ & _ & -> & [= <- <-] & _).
    apply elem_of_app. right. by apply list_elem_of_singleton.
  - intros q o Hq Ho.
    apply elem_of_app in Hq as [Hq|Hq];
      [|by apply resumed_elem in Hq as (? & ? & ? & ? & _ & ? & _)].
    rewrite app_assoc in Ho. apply elem_of_app in Ho as [Ho|Ho]; [by eapply Hwait'|].
    apply resumed_elem in Ho as (q' & o' & _ & _ & -> & [= <- <-] & _).
    by destruct (Hothers _ Hq) as [_ ?].
Qed.

Lemma orderly_schedule questions onProgress total schedule past st :
  orderly questions past (inflight st) →
  orderly questions (past ++ settlements questions onProgress total st schedule)
    (inflight (foldl (settle questions onProgress total) st schedule)).
Proof.
  revert past st. induction schedule as [|step schedule IH]; intros past st Hst.
  { cbn. by rewrite app_nil_r. }
  cbn [settlements foldl].
  destruct (inflight st !! step.1) as [job|] eqn:Hjob.
  - rewrite app_assoc. apply IH. by apply orderly_settle.
  - cbn [app]. apply IH. unfold settle. by rewrite Hjob.
Qed.

(** X22.  Under every schedule, whether uploads succeed or fail, the
    uploads of an export keep to its order: no image is uploaded twice,
    every upload is of a data-URL image of the questions, and the image of
    an option of a question that has a data-URL image of its own is
    uploaded only after that image has been stored; so when the upload of
    the image of a question fails, the images of its options are never
    uploaded. *)
Theorem uploads_keep_the_order questions onProgress schedule :
  let past := settlements questions onProgress (totalImages questions)
                (mkRun 0 [] (first_jobs 0 questions) false) schedule in
  let st := uploadImagesToFirebaseAndCreateJSON questions onProgress schedule in
  NoDup (past.*1 ++ inflight st)
  ∧ Forall (uploads_an_image questions) (past.*1 ++ inflight st)
  ∧ (∀ qIndex optIndex question,
       OptionImage qIndex optIndex ∈ past.*1 ++ inflight st →
       questions !! qIndex = Some question → is_data_url (image question) = true →
       (QuestionImage qIndex, Uploaded) ∈ past)
  ∧ (∀ qIndex optIndex,
       (QuestionImage qIndex, Failed) ∈ past →
       OptionImage qIndex optIndex ∉ past.*1 ++ inflight st).
Proof.
  intros past st.
  destruct (orderly_schedule questions onProgress (totalImages questions) schedule []
              (mkRun 0 [] (first_jobs 0 questions) false) (orderly_start questions))
    as (Hnodup & Hvalid & Hafter & Hwait).
  cbn [app] in Hnodup, Hvalid, Hafter, Hwait.
  fold past in Hnodup, Hvalid, Hafter, Hwait.
  unfold uploadImagesToFirebaseAndCreateJSON in st. fold st in Hnodup, Hvalid, Hafter, Hwait.
  split_and!; [done|done|done|].
  intros q o Hfailed Ho.
  assert (Hq : QuestionImage q ∈ past.*1 ++ inflight st).
  { apply elem_of_app. left. apply list_elem_of_fmap. by exists (QuestionImage q, Failed). }
  rewrite Forall_forall in Hvalid. destruct (Hvalid _ Hq) as (question & Hlook & Hd).
  pose proof (Hafter q o question Ho Hlook Hd) as Hstored.
  (* the same job cannot be in the past twice *)
  apply NoDup_app in Hnodup as (Hpast & _ & _).
  apply list_elem_of_lookup in Hfailed as [i Hi]. apply list_elem_of_lookup in Hstored as [j Hj].
  assert (i = j).
  { eapply NoDup_lookup; [exact Hpast| |]; rewrite list_lookup_fmap.
    - by rewrite Hi. - by rewrite Hj. }
  subst j. congruence.
Qed.

End UploadOrder.


Section CropSession.
Import Types App.

(** X23.  With a PDF at hand, asking for an image on the card of a
    question opens the crop modal.  The handler the modal is given then
    belongs to a render that holds the function of this card, and whenever
    it is called with a cropped image, the image lands on this question:
    the list of questions becomes the one the card was rendered with, with
    the image set on this question and the other fields of the question,
    its [hasImage] among them, as they were; the modal is closed and the
    card forgotten.  This is so whatever the state has become in between:
    also for an image that arrives after the modal was closed, and for a
    second image. *)
Theorem cropped_image_lands_on_its_question (st render now : State) i question croppedImage :
  sourceFile st = true → questions st !! i = Some question →
  cropCallback render = cropCallback (handleAddQuestionImage i st).1 →
  modal_rendered (handleAddQuestionImage i st).1 = true
  ∧ (handleAddQuestionImage i st).2 = []
  ∧ questions (handleCropComplete render croppedImage now)
    = <[i := with_image question (Some croppedImage)]> (questions st)
  ∧ questions (handleCropComplete render croppedImage now) !! i
    = Some (with_image question (Some croppedImage))
  ∧ hasImage (with_image question (Some croppedImage)) = hasImage question
  ∧ modal_rendered (handleCropComplete render croppedImage now) = false
  ∧ cropCallback (handleCropComplete render croppedImage now) = None.
Proof.
  intros Hfile Hq. unfold handleAddQuestionImage. rewrite Hq, Hfile. cbn [fst snd].
  unfold modal_rendered, handleCropComplete, handleRequestImageCrop, call, onUpdate.
  cbn [cropCallback questions sourceFile showCropModal]. intros ->.
  cbn [cropCallback questions sourceFile showCropModal cb_index cb_question cb_questions].
  split_and!; try done.
  apply list_lookup_insert_eq. by eapply lookup_lt_Some.
Qed.

End CropSession.

Lemma cropped_image_lands_on_its_question_witness :
  let opened := (App.handleAddQuestionImage 1
                   (App.mkState Samples.export_questions true false None)).1 in
  App.questions
    (App.handleCropComplete opened "data:image/png;base64,AAAA" (App.onClose opened)) !! 1
  = Some (App.with_image (Samples.question_with "Q2" Types.mcq None
                            [Samples.option_with (Some "data:image/png;base64,DDDD") true;
                             Samples.option_with (Some "https://example.org/e.png") false])
            (Some "data:image/png;base64,AAAA")).
Proof.
  apply (cropped_image_lands_on_its_question
           (App.mkState Samples.export_questions true false None)
           (App.handleAddQuestionImage 1
              (App.mkState Samples.export_questions true false None)).1
           (App.onClose (App.handleAddQuestionImage 1
                           (App.mkState Samples.export_questions true false None)).1)
           1 _ "data:image/png;base64,AAAA"); reflexivity.
Defined.


Section ReconciledCrops.
Import Types Js OracleClient.
Context {PDFPageImage : Type}.
Variable inlineData : PDFPageImage → option string.
Variable generateContent : list (@GeminiService.Part PDFPageImage) → option nat → Error + string.
Variable JSON_parse : string → Error + Questions.
Variable browser : ImageUtils.Browser.
Variable toDataURL : ImageUtils.CroppedImage → string.

(** X24.  In a run over the pages of a document, with this client, every
    crop is cut from the image of the first page of a window.  For a
    document of two pages or more these are the pages before the last:
    nothing is ever cut from the image of the last page, whose diagrams
    are seen in the last window only, behind the page before it. *)
Theorem last_page_is_never_cropped key (pages : list PDFPageImage) sourceName d box :
  GeminiService.truthy key = true →
  CropCall d box
    ∈ crops_of inlineData generateContent JSON_parse browser toDataURL sourceName
        (trace (GeminiService.parseQuestionsWithGemini key
                  (client inlineData generateContent JSON_parse browser toDataURL)
                  (inr pages) sourceName)) →
  ∃ i page, pages !! i = Some page ∧ inlineData page = Some d ∧ d ≠ ""
    ∧ (2 ≤ length pages → S i < length pages).
Proof.
  intros Hkey Hcrop. unfold crops_of in Hcrop.
  rewrite reconciler_batches in Hcrop by done.
  apply list_elem_of_bind in Hcrop as (call & Hcrop & Hcall).
  apply list_elem_of_fmap in Hcall as (i & -> & Hi). apply elem_of_seq in Hi as [_ Hi].
  apply crop_source in Hcrop as (page & rest & Hparts & Hpage & Hd).
  exists i, page. split_and!; [|done|done|].
  - unfold GeminiService.window_call, GeminiService.slice in Hparts. cbn [fst] in Hparts.
    destruct (drop i pages) as [|p ps] eqn:Hdrop.
    { rewrite take_nil in Hparts. done. }
    assert (Hlook : pages !! i = Some p).
    { rewrite <- (Nat.add_0_r i), <- lookup_drop, Hdrop. done. }
    replace (i + GeminiService.WINDOW_SIZE - i) with 2 in Hparts
      by (unfold GeminiService.WINDOW_SIZE; lia).
    cbn in Hparts. destruct ps; injection Hparts as -> _; done.
  - intros Hlen. rewrite spec_windows_length in Hi.
    destruct (length pages) as [|[|n]]; [lia|lia|]. lia.
Qed.

End ReconciledCrops.

Lemma last_page_is_never_cropped_witness :
  ∃ i page, [1; 2; 3] !! i = Some page
    ∧ Samples.inlineData page = Some "image of page 2" ∧ "image of page 2" ≠ ""
    ∧ (2 ≤ length [1; 2; 3] → S i < length [1; 2; 3]).
Proof.
  apply (last_page_is_never_cropped Samples.inlineData Samples.generateContent
           Samples.JSON_parse Samples.browser Samples.toDataURL (Some "key")
           [1; 2; 3] "paper.pdf" "image of page 2" [100; 100; 400; 900]%Q eq_refl).
  vm_compute. do 2 right. left.
Defined.
